(** * DJ Basin investment model: a shallow embedding of the quantitative core

    The Python modules [config], [yield_curve], [stochastic_decline_curve],
    [commodity_price_simulation], [cash_flows], [analysis] and the
    transforms and the delayed Monte Carlo run of [test_delay_scenarios]
    are transcribed function by function (Part I); the properties follow
    (Parts II and III).

    Numbers.  A float is modelled by an exact rational in lowest terms
    ([Qc]): arithmetic is exact, [==] on floats is Leibniz equality, and
    rounding, overflow, [inf] and [nan] are outside the model.  Sums and
    quotients that the code rounds to binary64 after every operation are
    exact here, so the order of two values that differ in the last
    digits only is not that of the code: a statement that compares two
    such values carries a tolerance.  Division
    is the division of Python floats, which raises [ZeroDivisionError] on
    a zero divisor (type [result]); only the division that
    [calculate_payback] performs on an element of a NumPy array is
    modelled as NumPy's, which does not raise ([npfloat]).  The float
    power with a fractional exponent has no rational counterpart and is a
    parameter ([fpow]) of the sections that use it.

    Effects.  The module global [BASE_YIELD_SUM] is threaded explicitly
    (monad [M]); random draws are explicit inputs; printing is dropped. *)

From Stdlib Require Import String QArith Qcanon Qcabs Qround ZArith List Bool Lia Psatz Morphisms Setoid.
Import ListNotations.
Local Open Scope Qc_scope.

(* ================================================================== *)
(** * Part I: the embedding *)

(* ------------------------------------------------------------------ *)
(** ** Numbers *)

Module Num.

(** A float literal. *)
Definition lit (x : Q) : Qc := Q2Qc x.

Definition of_Z (z : Z) : Qc := Q2Qc (inject_Z z).
Definition of_nat (n : nat) : Qc := of_Z (Z.of_nat n).

Definition ltb (a b : Qc) : bool :=
  match a ?= b with Lt => true | _ => false end.
Definition leb (a b : Qc) : bool :=
  match a ?= b with Gt => false | _ => true end.
Definition eqb (a b : Qc) : bool :=
  match a ?= b with Eq => true | _ => false end.

(** Python's [max(a, b)]: [b] when [b > a], else [a]. *)
Definition py_max (a b : Qc) : Qc := if ltb a b then b else a.
(** Python's [min(a, b)]: [b] when [b < a], else [a]. *)
Definition py_min (a b : Qc) : Qc := if ltb b a then b else a.

(** [np.clip(x, lo, hi)]. *)
Definition clip (x lo hi : Qc) : Qc := py_min (py_max x lo) hi.

(** Python's [sum]: left to right from 0. *)
Definition py_sum (l : list Qc) : Qc := fold_left Qcplus l 0.

(** [np.mean] of a non-empty list. *)
Definition mean (l : list Qc) : Qc := py_sum l / of_nat (length l).

(** [np.cumsum]. *)
Fixpoint cumsum_from (acc : Qc) (l : list Qc) : list Qc :=
  match l with
  | [] => []
  | x :: r => (acc + x) :: cumsum_from (acc + x) r
  end.
Definition cumsum (l : list Qc) : list Qc := cumsum_from 0 l.

(** [np.floor] as an integer. *)
Definition floor (x : Qc) : Z := Qfloor x.

(** Element-wise sum of two arrays of one shape. *)
Fixpoint vec_add (u v : list Qc) : list Qc :=
  match u, v with
  | x :: u', y :: v' => (x + y) :: vec_add u' v'
  | _, _ => []
  end.

(** [x ** e] at a whole, non-negative exponent [e], where it is repeated
    multiplication; it is only ever applied at such exponents. *)
Definition pow_whole (x e : Qc) : Qc := x ^ Z.to_nat (floor e).

(** A NumPy scalar: a finite value, or [inf]/[nan]. *)
Inductive npfloat : Set :=
| Fin (x : Qc)
| NonFin.

(** NumPy true division: a zero divisor gives [inf] or [nan], no exception. *)
Definition np_div (a b : Qc) : npfloat :=
  if eqb b 0 then NonFin else Fin (a / b).

Definition np_add (a : Qc) (b : npfloat) : npfloat :=
  match b with
  | Fin y => Fin (a + y)
  | NonFin => NonFin
  end.

End Num.
Import Num.

(* ------------------------------------------------------------------ *)
(** ** Exceptions and the module-global state *)

Inductive exn : Set := ZeroDivisionError | IndexError.

Inductive result (A : Type) : Type :=
| Ok (a : A)
| Raise (e : exn).
Arguments Ok {A} a.
Arguments Raise {A} e.

Definition rbind {A B} (r : result A) (k : A -> result B) : result B :=
  match r with
  | Ok a => k a
  | Raise e => Raise e
  end.

Declare Scope py_scope.
Delimit Scope py_scope with py.
Notation "x <- c ;; k" := (rbind c (fun x => k))
  (at level 61, c at next level, right associativity) : py_scope.
Local Open Scope py_scope.

(** Float division [a / b]. *)
Definition py_div (a b : Qc) : result Qc :=
  if eqb b 0 then Raise ZeroDivisionError else Ok (a / b).

(** [l[i]] on a Python list. *)
Definition py_index {A} (l : list A) (i : nat) : result A :=
  match nth_error l i with
  | Some x => Ok x
  | None => Raise IndexError
  end.

(** Code that reads or writes the module global [BASE_YIELD_SUM] of
    [yield_curve] ([None] until a calibrated call stores a sum).  An
    exception leaves the global as it was when it was raised. *)
Definition global : Set := option Qc.
Definition M (A : Type) : Type := global -> result A * global.

Definition ret {A} (a : A) : M A := fun g => (Ok a, g).
Definition lift {A} (r : result A) : M A := fun g => (r, g).
Definition put (v : Qc) : M unit := fun _ => (Ok tt, Some v).
Definition get : M global := fun g => (Ok g, g).
Definition mbind {A B} (m : M A) (k : A -> M B) : M B :=
  fun g =>
    match m g with
    | (Ok a, g') => k a g'
    | (Raise e, g') => (Raise e, g')
    end.

Declare Scope m_scope.
Delimit Scope m_scope with M.
Notation "x <~ c ;; k" := (mbind c (fun x => k))
  (at level 61, c at next level, right associativity) : m_scope.
Local Open Scope m_scope.

(* ------------------------------------------------------------------ *)
(** ** config.py *)

Definition CO_INVEST_MM : Qc := lit 195.0.
Definition TOTAL_EQUITY_MM : Qc := lit 710.0.
Definition CO_INVEST_SHARE : Qc := CO_INVEST_MM / TOTAL_EQUITY_MM.
Definition GA_RATE : Qc := lit 0.0075.

Definition NAV_PDP : Qc := lit 691.
Definition NAV_DUC : Qc := lit 123.
Definition NAV_Permit : Qc := lit 39.
Definition NAV_APD : Qc := lit 91.
Definition NAV_Undeveloped : Qc := lit 108.
Definition TOTAL_NAV_MM : Qc :=
  py_sum [NAV_PDP; NAV_DUC; NAV_Permit; NAV_APD; NAV_Undeveloped].

Definition COMMODITY_MIX_oil : Qc := lit 0.32.
Definition COMMODITY_MIX_gas : Qc := lit 0.40.
Definition COMMODITY_MIX_ngl : Qc := lit 0.28.

Definition YIELD_Y1 : Qc := lit 0.269.
Definition YIELD_Y2 : Qc := lit 0.266.
Definition YIELD_Y3 : Qc := lit 0.251.
Definition AVG_10Y_YIELD : Qc := lit 0.186.

Definition base_b_factor : Qc := lit 0.9.
Definition b_factor_volatility : Qc := lit 0.12.
Definition base_Di : Qc := lit 0.25.
Definition Di_volatility : Qc := lit 0.05.

(** [PRICE_PARAMS[commodity]]. *)
Record price_param : Set :=
  { mu : Qc; theta : Qc; sigma : Qc; current : Qc }.
Definition PRICE_PARAMS_oil : price_param :=
  {| mu := lit 1.0; theta := lit 0.3; sigma := lit 0.25; current := lit 1.0 |}.
Definition PRICE_PARAMS_gas : price_param :=
  {| mu := lit 1.0; theta := lit 0.5; sigma := lit 0.45; current := lit 1.0 |}.
Definition PRICE_PARAMS_ngl : price_param :=
  {| mu := lit 1.0; theta := lit 0.35; sigma := lit 0.30; current := lit 1.0 |}.

Definition REMAINING_RESERVES_PCT : Qc := lit 0.15.

(** Constants of the legacy configuration (Misc/OLD/config.py); the
    current configuration has no delay penalty rates. *)
Definition CAPEX_INFLATION_RATE : Qc := lit 0.03.
Definition OPPORTUNITY_COST_RATE : Qc := lit 0.10.

(* ------------------------------------------------------------------ *)
(** ** yield_curve.py *)

Section YieldCurve.

(** The float power [x ** e]. *)
Variable fpow : Qc -> Qc -> Qc.

(** One pass of the loop over [t] in [range(1, 8)]. *)
Definition arps_tail_yield (b_factor Di : Qc) (t : nat) : result Qc :=
  let q3 := YIELD_Y3 in
  e <- py_div 1 b_factor ;;
  yield_t <- py_div q3 (fpow (1 + b_factor * Di * of_nat t) e) ;;
  Ok (py_max yield_t (lit 0.03)).

Fixpoint arps_tail (b_factor Di : Qc) (ts : list nat) : result (list Qc) :=
  match ts with
  | [] => Ok []
  | t :: ts' =>
      y <- arps_tail_yield b_factor Di t ;;
      tail_yields <- arps_tail b_factor Di ts' ;;
      Ok (y :: tail_yields)
  end.

Definition is_base_case (b_factor Di : Qc) : bool :=
  eqb b_factor base_b_factor && eqb Di base_Di.

Definition generate_hyperbolic_yield_curve
    (b_factor Di : option Qc) (calibrate_base : bool) : M (list Qc) :=
  let b_factor := match b_factor with None => base_b_factor | Some b => b end in
  let Di := match Di with None => base_Di | Some d => d end in
  let base_yields := [YIELD_Y1; YIELD_Y2; YIELD_Y3] in
  tail_yields <~ lift (arps_tail b_factor Di (seq 1 7)) ;;
  if is_base_case b_factor Di || calibrate_base then
    let target_sum := AVG_10Y_YIELD * lit 10 in
    let known_sum := py_sum base_yields in
    let remaining_target := target_sum - known_sum in
    let tail_sum := py_sum tail_yields in
    tail_yields <~
      (if ltb 0 tail_sum then
         scale <~ lift (py_div remaining_target tail_sum) ;;
         ret (map (fun y => y * scale) tail_yields)
       else ret tail_yields) ;;
    _ <~ put (py_sum (base_yields ++ tail_yields)) ;;
    ret (base_yields ++ tail_yields)
  else
    ret (base_yields ++ tail_yields).

Definition get_base_yield_sum : M global := get.

End YieldCurve.

(* ------------------------------------------------------------------ *)
(** ** stochastic_decline_curve.py *)

(** [b_shock] and [Di_shock] are the two normal draws. *)
Definition simulate_decline_curve_risk
    (stochastic : bool) (b_shock Di_shock : Qc) : Qc * Qc * string :=
  let base_b := base_b_factor in
  if stochastic then
    let b_factor := clip (base_b + b_shock) (lit 0.3) (lit 1.2) in
    let Di := clip (base_Di + Di_shock) (lit 0.10) (lit 0.45) in
    let curve_label :=
      if ltb b_factor (lit 0.5) then "Severe Steepening"%string
      else if ltb b_factor (lit 0.7) then "Moderate Steepening"%string
      else if ltb (lit 1.0) b_factor then "Flatter than Expected"%string
      else "Near Type Curve"%string in
    (b_factor, Di, curve_label)
  else (base_b, base_Di, "Base Case"%string).

(* ------------------------------------------------------------------ *)
(** ** commodity_price_simulation.py *)

Definition vec3 : Set := (Qc * Qc * Qc)%type.

Definition dot3 (r z : vec3) : Qc :=
  let '(r0, r1, r2) := r in
  let '(z0, z1, z2) := z in
  r0 * z0 + r1 * z1 + r2 * z2.

(** [chol @ z]. *)
Definition matvec3 (m : vec3 * vec3 * vec3) (z : vec3) : vec3 :=
  let '(m0, m1, m2) := m in (dot3 m0 z, dot3 m1 z, dot3 m2 z).

(** The dictionary [prices] of one simulation. *)
Record prices : Set := { oil : list Qc; gas : list Qc; ngl : list Qc }.

(** The dictionary returned by [simulate_commodity_prices]. *)
Record price_results : Set :=
  { res_oil : list Qc;
    res_gas : list Qc;
    res_ngl : list Qc;
    blended_avg : list Qc;
    blended_paths : list (list Qc) }.

Definition dt : Qc := lit 1.0.
(** [np.sqrt(dt)] at [dt = 1.0]. *)
Definition sqrt_dt : Qc := lit 1.0.

(** The body of the loop over the commodities: the next price. *)
Definition ou_step (p : price_param) (current_price shock : Qc) : Qc :=
  let drift := theta p * (mu p - current_price) * dt in
  let diffusion := sigma p * sqrt_dt * shock in
  py_max (lit 0.2) (current_price + drift + diffusion).

Section PriceSimulation.

(** The Cholesky factor of [PRICE_CORRELATION]. *)
Variable chol : vec3 * vec3 * vec3.

(** One year: draw [z], correlate, append a price per commodity. *)
Definition simulate_year (z : vec3) (ps : prices) : prices :=
  let '(c0, c1, c2) := matvec3 chol z in
  {| oil := oil ps ++ [ou_step PRICE_PARAMS_oil (last (oil ps) 0) c0];
     gas := gas ps ++ [ou_step PRICE_PARAMS_gas (last (gas ps) 0) c1];
     ngl := ngl ps ++ [ou_step PRICE_PARAMS_ngl (last (ngl ps) 0) c2] |}.

(** The loop over the years; [zs y] is the draw of year [y]. *)
Fixpoint simulate_years (n : nat) (zs : nat -> vec3) (ps : prices) : prices :=
  match n with
  | O => ps
  | S n' => simulate_years n' (fun y => zs (S y)) (simulate_year (zs O) ps)
  end.

Definition simulate_path (years : nat) (zs : nat -> vec3) : prices :=
  simulate_years years zs
    {| oil := [lit 1.0]; gas := [lit 1.0]; ngl := [lit 1.0] |}.

Definition blended_at (ps : prices) (t : nat) : Qc :=
  COMMODITY_MIX_oil * nth t (oil ps) 0 +
  COMMODITY_MIX_gas * nth t (gas ps) 0 +
  COMMODITY_MIX_ngl * nth t (ngl ps) 0.

Definition blend (years : nat) (ps : prices) : list Qc :=
  map (blended_at ps) (seq 1 years).

(** The loop over the simulations; [draws s y] is the draw of year [y] in
    simulation [s]. *)
Fixpoint simulate_sims (years : nat) (sims : nat) (draws : nat -> nat -> vec3)
    (results : price_results) : price_results :=
  match sims with
  | O => results
  | S sims' =>
      let ps := simulate_path years (draws O) in
      let blended_path := blend years ps in
      simulate_sims years sims' (fun s => draws (S s))
        {| res_oil := res_oil results ++ [mean (tl (oil ps))];
           res_gas := res_gas results ++ [mean (tl (gas ps))];
           res_ngl := res_ngl results ++ [mean (tl (ngl ps))];
           blended_avg := blended_avg results ++ [mean blended_path];
           blended_paths := blended_paths results ++ [blended_path] |}
  end.

Definition simulate_commodity_prices
    (years sims : nat) (draws : nat -> nat -> vec3) : price_results :=
  simulate_sims years sims draws
    {| res_oil := []; res_gas := []; res_ngl := [];
       blended_avg := []; blended_paths := [] |}.

End PriceSimulation.

(* ------------------------------------------------------------------ *)
(** ** cash_flows.py *)

(** The step function of the exit multiple ("market sentiment"). *)
Definition nav_multiple (year_10_price_factor : Qc) : Qc :=
  if leb (lit 0.9) year_10_price_factor then lit 0.95
  else if leb (lit 0.7) year_10_price_factor then lit 0.85
  else if leb (lit 0.5) year_10_price_factor then lit 0.75
  else lit 0.60.

Definition estimate_terminal_value
    (year_10_price_factor : Qc) (remaining_reserves_pct : option Qc) : Qc :=
  let remaining_reserves_pct :=
    match remaining_reserves_pct with
    | None => REMAINING_RESERVES_PCT
    | Some r => r
    end in
  let remaining_nav_at_base := TOTAL_NAV_MM * remaining_reserves_pct in
  let terminal_value :=
    remaining_nav_at_base * year_10_price_factor
    * nav_multiple year_10_price_factor in
  terminal_value * CO_INVEST_SHARE.

(** The loop over [enumerate(zip(yield_curve, price_factors_by_year))],
    from index [year] on. *)
Fixpoint cash_flow_years (year : nat) (yield_curve price_factors_by_year : list Qc)
    (include_ga : bool) : list Qc :=
  match yield_curve, price_factors_by_year with
  | base_yield :: ys, price_factor :: ps =>
      let annual_cf := CO_INVEST_MM * base_yield * price_factor in
      let annual_cf :=
        if include_ga then annual_cf - CO_INVEST_MM * GA_RATE else annual_cf in
      let annual_cf :=
        if Nat.eqb year 9
        then annual_cf + estimate_terminal_value price_factor None
        else annual_cf in
      annual_cf :: cash_flow_years (S year) ys ps include_ga
  | _, _ => []
  end.

Definition build_cash_flows
    (yield_curve price_factors_by_year : list Qc) (include_ga : bool) : list Qc :=
  - CO_INVEST_MM :: cash_flow_years 0 yield_curve price_factors_by_year include_ga.

(** [sum(term(t, cf) for t, cf in enumerate(cfs))], from index [t] on with
    the partial sum [acc]. *)
Fixpoint sum_terms (term : nat -> Qc -> result Qc) (t : nat) (cfs : list Qc)
    (acc : Qc) : result Qc :=
  match cfs with
  | [] => Ok acc
  | cf :: rest =>
      x <- term t cf ;;
      sum_terms term (S t) rest (acc + x)
  end.

Definition npv (rate : Qc) (cfs : list Qc) : result Qc :=
  sum_terms (fun t cf => py_div cf ((1 + rate) ^ t)) 0 cfs 0.

Definition npv_derivative (rate : Qc) (cfs : list Qc) : result Qc :=
  sum_terms (fun t cf => py_div (- of_nat t * cf) ((1 + rate) ^ (t + 1))) 0 cfs 0.

(** How the Newton-Raphson loop is left: by [return new_rate], or by
    [break] or exhaustion with the current [rate]. *)
Inductive newton_exit : Set :=
| Converged (new_rate : Qc)
| Stopped (rate : Qc).

(** [for _ in range(max_iterations)], with [n] passes left. *)
Fixpoint newton (n : nat) (rate : Qc) (cfs : list Qc) (tolerance : Qc)
    : result newton_exit :=
  match n with
  | O => Ok (Stopped rate)
  | S n' =>
      f <- npv rate cfs ;;
      f_prime <- npv_derivative rate cfs ;;
      if ltb (Qcabs f_prime) (lit 1e-10) then Ok (Stopped rate)
      else
        step <- py_div f f_prime ;;
        let new_rate := rate - step in
        if ltb (Qcabs (new_rate - rate)) tolerance then Ok (Converged new_rate)
        else newton n' new_rate cfs tolerance
  end.

Definition in_band (rate : Qc) : bool :=
  ltb (- lit 0.99) rate && ltb rate (lit 2.0).

Definition calculate_irr_with
    (cfs : list Qc) (max_iterations : nat) (tolerance : Qc) : result (option Qc) :=
  e <- newton max_iterations (lit 0.10) cfs tolerance ;;
  match e with
  | Converged new_rate => Ok (Some new_rate)
  | Stopped rate => Ok (if in_band rate then Some rate else None)
  end.

(** [calculate_irr(cfs)] with the default arguments. *)
Definition calculate_irr (cfs : list Qc) : result (option Qc) :=
  calculate_irr_with cfs 100 (lit 1e-8).

Definition calculate_roi (cfs : list Qc) : result Qc :=
  c0 <- py_index cfs 0 ;;
  py_div (py_sum (tl cfs)) (Qcabs c0).

(** [for t in range(1, len(cumulative))], over the remaining indices. *)
Fixpoint payback_loop (cumulative cfs : list Qc) (ts : list nat) : option npfloat :=
  match ts with
  | [] => None
  | t :: ts' =>
      if leb 0 (nth t cumulative 0) then
        let fraction := np_div (- nth (t - 1) cumulative 0) (nth t cfs 0) in
        Some (np_add (of_nat (t - 1)) fraction)
      else payback_loop cumulative cfs ts'
  end.

Definition calculate_payback (cfs : list Qc) : option npfloat :=
  let cumulative := cumsum cfs in
  payback_loop cumulative cfs (seq 1 (length cumulative - 1)).

(** [sum(cf / (1 + discount_rate) ** t for t, cf in enumerate(cfs))]: the
    code adds the binary64 quotients from left to right, the model adds
    the exact ones. *)
Definition calculate_npv (cfs : list Qc) (discount_rate : Qc) : result Qc :=
  sum_terms (fun t cf => py_div cf ((1 + discount_rate) ^ t)) 0 cfs 0.

(* ------------------------------------------------------------------ *)
(** ** test_delay_scenarios.py: the delay transform *)

Definition PDP_SHARE : Qc := NAV_PDP / TOTAL_NAV_MM.
Definition NON_PDP_SHARE : Qc := 1 - PDP_SHARE.

(** The body of the loop over [target_year]: the delayed non-PDP yield
    that arrives in that year. *)
Definition delayed_non_pdp_at
    (non_pdp_yields : list Qc) (whole_years : Z) (fractional_year : Qc)
    (target_year : nat) : Qc :=
  let source_year := (Z.of_nat target_year - whole_years)%Z in
  if (source_year <? 0)%Z then lit 0.0
  else if (source_year =? 0)%Z then
    let fraction_arriving := lit 1.0 - fractional_year in
    nth 0 non_pdp_yields 0 * fraction_arriving
  else
    let current_year_contribution :=
      if (source_year <? Z.of_nat (length non_pdp_yields))%Z
      then nth (Z.to_nat source_year) non_pdp_yields 0 * (lit 1.0 - fractional_year)
      else lit 0.0 in
    let previous_year_spillover :=
      if (source_year - 1 <? Z.of_nat (length non_pdp_yields))%Z
      then nth (Z.to_nat (source_year - 1)) non_pdp_yields 0 * fractional_year
      else lit 0.0 in
    current_year_contribution + previous_year_spillover.

(** The array [delayed_non_pdp] once the loop has run. *)
Definition delayed_non_pdp (base_yields : list Qc) (delay_years : Qc) : list Qc :=
  let non_pdp_yields := map (fun y => y * NON_PDP_SHARE) base_yields in
  let whole_years := floor delay_years in
  let fractional_year := delay_years - of_Z (floor delay_years) in
  map (delayed_non_pdp_at non_pdp_yields whole_years fractional_year) (seq 0 10).

(** [base_yields] holds ten values. *)
Definition delay_non_pdp_yields (base_yields : list Qc) (delay_years : Qc) : list Qc :=
  let yields := base_yields in
  if leb delay_years 0 then yields
  else if leb (lit 10) delay_years then map (fun y => y * PDP_SHARE) yields
  else
    let pdp_yields := map (fun y => y * PDP_SHARE) yields in
    vec_add pdp_yields (delayed_non_pdp yields delay_years).

(** The transform as the specification words it: every delayed non-PDP
    value is divided by
    [(1 + capex_inflation)^delay * (1 + opportunity_cost)^delay]
    before it is added to the PDP component. *)
Definition penalty_factor (fpow : Qc -> Qc -> Qc)
    (capex_inflation opportunity_cost delay_years : Qc) : Qc :=
  fpow (1 + capex_inflation) delay_years * fpow (1 + opportunity_cost) delay_years.

Definition spec_penalised_delay (fpow : Qc -> Qc -> Qc)
    (capex_inflation opportunity_cost : Qc)
    (base_yields : list Qc) (delay_years : Qc) : list Qc :=
  let penalty := penalty_factor fpow capex_inflation opportunity_cost delay_years in
  vec_add (map (fun y => y * PDP_SHARE) base_yields)
          (map (fun v => v / penalty) (delayed_non_pdp base_yields delay_years)).

(* ------------------------------------------------------------------ *)
(** ** analysis.py *)

(** The dictionary [risk_attribution]. *)
Record attribution : Set :=
  { price : nat; decline : nat; combined : nat; other : nat }.

Inductive factor : Set := factor_price | factor_decline.

(** [risk_attribution[key] += 1]. *)
Definition incr_factor (f : factor) (a : attribution) : attribution :=
  match f with
  | factor_price =>
      {| price := S (price a); decline := decline a;
         combined := combined a; other := other a |}
  | factor_decline =>
      {| price := price a; decline := S (decline a);
         combined := combined a; other := other a |}
  end.
Definition incr_combined (a : attribution) : attribution :=
  {| price := price a; decline := decline a;
     combined := S (combined a); other := other a |}.
Definition incr_other (a : attribution) : attribution :=
  {| price := price a; decline := decline a;
     combined := combined a; other := S (other a) |}.

(** The block "Attribute losses to risk factors". *)
Definition attribute_loss (profit avg_price b_factor : Qc) (a : attribution)
    : attribution :=
  if ltb profit 0 then
    let factors :=
      (if ltb avg_price (lit 0.80) then [factor_price] else []) ++
      (if ltb b_factor (lit 0.70) then [factor_decline] else []) in
    match factors with
    | nil => incr_other a
    | f :: nil => incr_factor f a
    | _ => incr_combined a
    end
  else a.

(** [irr if irr else -1.0]: [None] and [0.0] are both falsy. *)
Definition irr_or_sentinel (irr : option Qc) : Qc :=
  match irr with
  | Some r => if eqb r 0 then - lit 1.0 else r
  | None => - lit 1.0
  end.

(** [irr if irr is not None else -1.0], as [run_monte_carlo_with_delay]
    writes it. *)
Definition irr_or_sentinel_not_none (irr : option Qc) : Qc :=
  match irr with
  | Some r => r
  | None => - lit 1.0
  end.

(** The storage lists and the attribution dictionary of [run_monte_carlo]. *)
Record mc_result : Set :=
  { sim_irrs : list Qc;
    sim_rois : list Qc;
    sim_profits : list Qc;
    sim_b_factors : list Qc;
    sim_prices : list Qc;
    risk_attribution : attribution }.

Section MonteCarlo.

Variable fpow : Qc -> Qc -> Qc.

(** The body of [for i in range(num_sims)]; [shocks] are the two normal
    draws of [simulate_decline_curve_risk] in this pass. *)
Definition mc_trial (price_sims : price_results) (shocks : Qc * Qc) (i : nat)
    (acc : mc_result) : M mc_result :=
  price_path <~ lift (py_index (blended_paths price_sims) i) ;;
  avg_price <~ lift (py_index (blended_avg price_sims) i) ;;
  let '(b_factor, Di, _) :=
    simulate_decline_curve_risk true (fst shocks) (snd shocks) in
  stressed_yields <~
    generate_hyperbolic_yield_curve fpow (Some b_factor) (Some Di) false ;;
  let cfs := build_cash_flows stressed_yields price_path true in
  irr <~ lift (calculate_irr cfs) ;;
  roi <~ lift (calculate_roi cfs) ;;
  let profit := py_sum cfs in
  ret {| sim_irrs := sim_irrs acc ++ [irr_or_sentinel irr];
         sim_rois := sim_rois acc ++ [roi];
         sim_profits := sim_profits acc ++ [profit];
         sim_b_factors := sim_b_factors acc ++ [b_factor];
         sim_prices := sim_prices acc ++ [avg_price];
         risk_attribution :=
           attribute_loss profit avg_price b_factor (risk_attribution acc) |}.

(** The loop, from pass [i] on with [n] passes left; [draws j] are the
    normal draws of pass [j]. *)
Fixpoint mc_loop (n : nat) (price_sims : price_results) (draws : nat -> Qc * Qc)
    (i : nat) (acc : mc_result) : M mc_result :=
  match n with
  | O => ret acc
  | S n' =>
      acc' <~ mc_trial price_sims (draws i) i acc ;;
      mc_loop n' price_sims draws (S i) acc'
  end.

Definition mc_empty : mc_result :=
  {| sim_irrs := []; sim_rois := []; sim_profits := [];
     sim_b_factors := []; sim_prices := [];
     risk_attribution := {| price := 0; decline := 0; combined := 0; other := 0 |} |}.

(** [run_monte_carlo(num_sims, price_sims)] with pre-simulated prices. *)
Definition run_monte_carlo (num_sims : nat) (price_sims : price_results)
    (draws : nat -> Qc * Qc) : M mc_result :=
  mc_loop num_sims price_sims draws 0 mc_empty.

End MonteCarlo.

(* ------------------------------------------------------------------ *)
(** ** test_delay_scenarios.py: the other transforms and the delayed run *)

(** A list built by a loop whose body may raise: the first exception
    leaves the loop. *)
Fixpoint for_each {A B} (body : A -> result B) (l : list A) : result (list B) :=
  match l with
  | [] => Ok []
  | a :: l' =>
      b <- body a ;;
      bs <- for_each body l' ;;
      Ok (b :: bs)
  end.

Definition BASELINE_YIELD_DURING_DELAY : Qc := lit 0.05.
Definition POST_DELAY_EFFICIENCY_FACTOR : Qc := lit 0.85.

(** The body of the loop over [target_year] in [delay_all_yields];
    [yields[0]] on an empty array raises [IndexError]. *)
Definition delayed_all_at
    (yields : list Qc) (whole_years : Z) (fractional_year : Qc)
    (target_year : nat) : result Qc :=
  if (Z.of_nat target_year <? whole_years)%Z then
    Ok BASELINE_YIELD_DURING_DELAY
  else if (Z.of_nat target_year =? whole_years)%Z then
    y0 <- py_index yields 0 ;;
    let ramped_first_year := y0 * POST_DELAY_EFFICIENCY_FACTOR in
    Ok (BASELINE_YIELD_DURING_DELAY * fractional_year
        + ramped_first_year * (lit 1.0 - fractional_year))
  else
    let source_year := (Z.of_nat target_year - whole_years)%Z in
    let current_contribution :=
      if (source_year <? Z.of_nat (length yields))%Z
      then nth (Z.to_nat source_year) yields 0
           * POST_DELAY_EFFICIENCY_FACTOR * (lit 1.0 - fractional_year)
      else lit 0.0 in
    let previous_spillover :=
      if (0 <=? source_year - 1)%Z
         && (source_year - 1 <? Z.of_nat (length yields))%Z
      then nth (Z.to_nat (source_year - 1)) yields 0
           * POST_DELAY_EFFICIENCY_FACTOR * fractional_year
      else lit 0.0 in
    Ok (current_contribution + previous_spillover).

Definition delay_all_yields (base_yields : list Qc) (delay_years : Qc)
    : result (list Qc) :=
  let yields := base_yields in
  if leb delay_years 0 then Ok yields
  else if leb (lit 10) delay_years then Ok (repeat (lit 0.03) 10)
  else
    let whole_years := floor delay_years in
    let fractional_year := delay_years - of_Z (floor delay_years) in
    for_each (delayed_all_at yields whole_years fractional_year) (seq 0 10).

Definition apply_yield_haircut (base_yields : list Qc) (haircut_percentage : Qc)
    : list Qc :=
  map (fun y => y * (lit 1.0 - haircut_percentage)) base_yields.

(** The three arrays returned by [run_monte_carlo_with_delay]; a payback
    is a NumPy scalar. *)
Record delay_mc_result : Set :=
  { irrs : list Qc;
    profits : list Qc;
    paybacks : list npfloat }.

(** [payback if payback is not None else 99.0]. *)
Definition payback_or_sentinel (payback : option npfloat) : npfloat :=
  match payback with
  | Some p => p
  | None => Fin (lit 99.0)
  end.

Section MonteCarloWithDelay.

Variable fpow : Qc -> Qc -> Qc.

(** [quiet_yield_curve]: the same call with the output discarded. *)
Definition quiet_yield_curve
    (b_factor Di : option Qc) (calibrate_base : bool) : M (list Qc) :=
  generate_hyperbolic_yield_curve fpow b_factor Di calibrate_base.

(** The body of [for sim_index in range(num_simulations)];
    [b_factor_shock] is the normal draw of this pass and
    [delay_function] is [None] or a transform that may raise. *)
Definition mc_delay_trial
    (delay_function : option (list Qc -> Qc -> result (list Qc)))
    (delay_parameter : Qc) (price_simulations : price_results)
    (b_factor_shock : Qc) (sim_index : nat) (acc : delay_mc_result)
    : M delay_mc_result :=
  let b_factor := base_b_factor + b_factor_shock in
  let b_factor := clip b_factor (lit 0.3) (lit 1.2) in
  base_yields <~ quiet_yield_curve (Some b_factor) None false ;;
  modified_yields <~
    lift (match delay_function with
          | Some f => f base_yields delay_parameter
          | None => Ok base_yields
          end) ;;
  price_path <~ lift (py_index (blended_paths price_simulations) sim_index) ;;
  let cash_flows := build_cash_flows modified_yields price_path true in
  irr <~ lift (calculate_irr cash_flows) ;;
  let payback := calculate_payback cash_flows in
  let profit := py_sum cash_flows in
  ret {| irrs := irrs acc ++ [irr_or_sentinel_not_none irr];
         profits := profits acc ++ [profit];
         paybacks := paybacks acc ++ [payback_or_sentinel payback] |}.

Fixpoint mc_delay_loop (n : nat)
    (delay_function : option (list Qc -> Qc -> result (list Qc)))
    (delay_parameter : Qc) (price_simulations : price_results)
    (draws : nat -> Qc) (sim_index : nat) (acc : delay_mc_result)
    : M delay_mc_result :=
  match n with
  | O => ret acc
  | S n' =>
      acc' <~ mc_delay_trial delay_function delay_parameter price_simulations
                (draws sim_index) sim_index acc ;;
      mc_delay_loop n' delay_function delay_parameter price_simulations
        draws (S sim_index) acc'
  end.

Definition run_monte_carlo_with_delay
    (delay_function : option (list Qc -> Qc -> result (list Qc)))
    (delay_parameter : Qc) (num_simulations : nat)
    (price_simulations : price_results) (draws : nat -> Qc)
    : M delay_mc_result :=
  mc_delay_loop num_simulations delay_function delay_parameter
    price_simulations draws 0
    {| irrs := []; profits := []; paybacks := [] |}.

End MonteCarloWithDelay.

(* ------------------------------------------------------------------ *)
(** ** analysis.py: the breakeven search *)

(** A Python dictionary with string keys, in insertion order. *)
Definition dict : Set := list (string * Qc).

Fixpoint dict_get (k : string) (d : dict) : option Qc :=
  match d with
  | [] => None
  | (k', v) :: d' => if String.eqb k k' then Some v else dict_get k d'
  end.

(** [d[k] = v]. *)
Fixpoint dict_set (k : string) (v : Qc) (d : dict) : dict :=
  match d with
  | [] => (k, v) :: nil
  | (k', v') :: d' =>
      if String.eqb k k' then (k, v) :: d' else (k', v') :: dict_set k v d'
  end.

(** [np.arange(1.0, 0.0, -0.01)]: the hundred values [1.0 + i * (-0.01)]. *)
Definition breakeven_grid : list Qc :=
  map (fun i => lit 1.0 + of_nat i * (- lit 0.01)) (seq 0 100).

(** One of the two search loops of [run_breakeven_analysis]: they differ
    by the threshold ([0] and [0.10]) and by the two keys they set. *)
Fixpoint threshold_search (base_yields : list Qc) (threshold : Qc)
    (key_factor key_price : string) (factors : list Qc) (results : dict)
    : result dict :=
  match factors with
  | [] => Ok results
  | factor :: rest =>
      let cfs := build_cash_flows base_yields (repeat factor 10) true in
      irr <- calculate_irr cfs ;;
      match irr with
      | Some r =>
          if ltb r threshold then
            let results := dict_set key_factor (factor + lit 0.01) results in
            let results :=
              dict_set key_price (lit 70 * (factor + lit 0.01)) results in
            Ok results
          else
            threshold_search base_yields threshold key_factor key_price rest
              results
      | None =>
          threshold_search base_yields threshold key_factor key_price rest
            results
      end
  end.

Definition run_breakeven_analysis (base_yields : list Qc) : result dict :=
  let results := [] in
  results <-
    threshold_search base_yields 0
      "breakeven_factor" "breakeven_price" breakeven_grid results ;;
  results <-
    threshold_search base_yields (lit 0.10)
      "irr_10_floor_factor" "irr_10_floor_price" breakeven_grid results ;;
  Ok results.

(* ------------------------------------------------------------------ *)
(** ** Vocabulary of the statements *)

(** The defaults of [generate_hyperbolic_yield_curve]. *)
Definition default_b (b_factor : option Qc) : Qc :=
  match b_factor with None => base_b_factor | Some b => b end.
Definition default_Di (Di : option Qc) : Qc :=
  match Di with None => base_Di | Some d => d end.

(** The Arps tail of years 4 to 10 before any rescaling, floored at 3%. *)
Definition raw_tail (fpow : Qc -> Qc -> Qc) (b_factor Di : Qc) : list Qc :=
  map (fun t => py_max (YIELD_Y3 / fpow (1 + b_factor * Di * of_nat t) (1 / b_factor))
                       (lit 0.03))
      (seq 1 7).

(** A pair of draws whose clipped decline parameters are not the base case. *)
Definition stressed_draw (shocks : Qc * Qc) : bool :=
  let '(b_factor, Di, _) :=
    simulate_decline_curve_risk true (fst shocks) (snd shocks) in
  negb (is_base_case b_factor Di).

(** A list of price factors at or above the floor. *)
Definition floored (l : list Qc) : Prop := Forall (fun x => lit 0.2 <= x) l.

(** What the loop over the years maintains: three floored lists of one
    length. *)
Definition floored_prices (n : nat) (ps : prices) : Prop :=
  (floored (oil ps) /\ List.length (oil ps) = n) /\
  (floored (gas ps) /\ List.length (gas ps) = n) /\
  (floored (ngl ps) /\ List.length (ngl ps) = n).

(** Cumulative cash flow at year [t]: [cfs[0] + ... + cfs[t]]. *)
Definition cumulative_at (cfs : list Qc) (t : nat) : Qc :=
  py_sum (firstn (S t) cfs).

(** The per-trial tuples recorded by [run_monte_carlo]:
    [(profit, avg_price, b_factor)]. *)
Fixpoint trials_of (profits prices b_factors : list Qc) : list (Qc * Qc * Qc) :=
  match profits, prices, b_factors with
  | p :: ps, a :: avs, b :: bs => (p, a, b) :: trials_of ps avs bs
  | _, _, _ => []
  end.

Definition count {A} (f : A -> bool) (l : list A) : nat :=
  List.length (filter f l).

Definition losing (t : Qc * Qc * Qc) : bool :=
  let '(profit, _, _) := t in ltb profit 0.
Definition low_price (t : Qc * Qc * Qc) : bool :=
  let '(_, avg_price, _) := t in ltb avg_price (lit 0.80).
Definition steep_decline (t : Qc * Qc * Qc) : bool :=
  let '(_, _, b_factor) := t in ltb b_factor (lit 0.70).

(** The four attribution classes of a recorded trial. *)
Definition is_price (t : Qc * Qc * Qc) : bool :=
  losing t && low_price t && negb (steep_decline t).
Definition is_decline (t : Qc * Qc * Qc) : bool :=
  losing t && negb (low_price t) && steep_decline t.
Definition is_combined (t : Qc * Qc * Qc) : bool :=
  losing t && low_price t && steep_decline t.
Definition is_other (t : Qc * Qc * Qc) : bool :=
  losing t && negb (low_price t) && negb (steep_decline t).

(** The counters agree with the trials recorded so far. *)
Definition attributed (acc : mc_result) : Prop :=
  let trials := trials_of (sim_profits acc) (sim_prices acc) (sim_b_factors acc) in
  List.length (sim_profits acc) = List.length trials /\
  List.length (sim_prices acc) = List.length trials /\
  List.length (sim_b_factors acc) = List.length trials /\
  price (risk_attribution acc) = count is_price trials /\
  decline (risk_attribution acc) = count is_decline trials /\
  combined (risk_attribution acc) = count is_combined trials /\
  other (risk_attribution acc) = count is_other trials.

(** A list whose entries are non-negative and never rise. *)
Fixpoint antitone_nonneg (l : list Qc) : Prop :=
  match l with
  | [] => True
  | a :: l' =>
      match l' with
      | [] => 0 <= a
      | b :: _ => b <= a
      end /\ antitone_nonneg l'
  end.

(** [sum(u[i] * v[i])] over the common indices. *)
Fixpoint dot (u v : list Qc) : Qc :=
  match u, v with
  | x :: u', y :: v' => x * y + dot u' v'
  | _, _ => 0
  end.

(** A ten-year curve moved [k] whole years to the right inside the
    horizon. *)
Definition shift (k : nat) (l : list Qc) : list Qc :=
  firstn 10 (repeat 0 k ++ l).

(** The terms of a net present value: [l[i] / (1 + rate) ** (t + i)]. *)
Fixpoint discounted (rate : Qc) (t : nat) (l : list Qc) : list Qc :=
  match l with
  | [] => []
  | x :: l' => x / (1 + rate) ^ t :: discounted rate (S t) l'
  end.

(** Whole years and fraction by which the non-PDP curve is moved, over
    the three branches of [delay_non_pdp_yields]. *)
Definition delay_split (delay_years : Qc) : nat * Qc :=
  if leb delay_years 0 then (0%nat, 0)
  else if leb (lit 10) delay_years then (10%nat, 0)
  else (Z.to_nat (floor delay_years), delay_years - of_Z (floor delay_years)).



(** Interval arithmetic for the Newton-Raphson loop: a run of the loop
    on exact rationals has iterates with thousands of digits, so its
    result is bounded by enclosures with fifteen decimals instead. *)
(** Rounding to fifteen decimals, downwards and upwards. *)
Definition rounding_scale : Qc := lit 1e15.
Definition round_down (x : Qc) : Qc :=
  of_Z (floor (x * rounding_scale)) / rounding_scale.
Definition round_up (x : Qc) : Qc := - round_down (- x).

(** [sum(c[i] * p * x ** i)]: a net present value and its derivative are
    such sums at [x = 1 / (1 + rate)]. *)
Fixpoint series (x p : Qc) (coeffs : list Qc) : Qc :=
  match coeffs with
  | [] => 0
  | c :: rest => c * p + series x (p * x) rest
  end.

(** Rounded bounds of [series x p coeffs] for [x] in [[xl, xh]] and [p]
    in [[pl, ph]], [0 < xl] and [0 <= pl]. *)
Fixpoint series_lower (xl xh pl ph : Qc) (coeffs : list Qc) : Qc :=
  match coeffs with
  | [] => 0
  | c :: rest =>
      round_down (if leb 0 c then c * pl else c * ph)
      + series_lower xl xh (round_down (pl * xl)) (round_up (ph * xh)) rest
  end.
Fixpoint series_upper (xl xh pl ph : Qc) (coeffs : list Qc) : Qc :=
  match coeffs with
  | [] => 0
  | c :: rest =>
      round_up (if leb 0 c then c * ph else c * pl)
      + series_upper xl xh (round_down (pl * xl)) (round_up (ph * xh)) rest
  end.

(** The coefficients [-t * cf] of the derivative of the net present
    value. *)
Fixpoint derivative_coeffs (t : nat) (cfs : list Qc) : list Qc :=
  match cfs with
  | [] => []
  | cf :: rest => (- of_nat t * cf) :: derivative_coeffs (S t) rest
  end.

(** The terms of the derivative of the net present value:
    [-t * cf / (1 + rate) ** (t + 1)]. *)
Fixpoint derivative_terms (rate : Qc) (t : nat) (cfs : list Qc) : list Qc :=
  match cfs with
  | [] => []
  | cf :: rest =>
      (- of_nat t * cf / (1 + rate) ^ (t + 1)) :: derivative_terms rate (S t) rest
  end.

(** The checks under which a Newton pass from any rate of [[a, b]] has a
    negative derivative outside the guard and a step [f / f_prime] in
    [[q_lo, q_hi]], so that the next rate lies in [[a', b']]. *)
Definition newton_enclosure (a b q_lo q_hi a' b' : Qc) (cfs : list Qc) : bool :=
  let xl := round_down (1 / (1 + b)) in
  let xh := round_up (1 / (1 + a)) in
  let f_lo := series_lower xl xh 1 1 cfs in
  let f_hi := series_upper xl xh 1 1 cfs in
  let g_lo := series_lower xl xh xl xh (derivative_coeffs 0 cfs) in
  let g_hi := series_upper xl xh xl xh (derivative_coeffs 0 cfs) in
  ltb (- lit 1.0) a && leb a b && ltb 0 xl
  && ltb g_hi (- lit 1e-10)
  && leb f_hi (q_lo * g_lo) && leb f_hi (q_lo * g_hi)
  && leb (q_hi * g_lo) f_lo && leb (q_hi * g_hi) f_lo
  && leb a' (a - q_hi) && leb (b - q_lo) b'.

(** A certificate of a run of the Newton-Raphson loop from a rate of
    [[a, b]]: for each pass the bounds [q_lo, q_hi] of its step and the
    bounds [a', b'] of the rate it reaches.  The check succeeds, with the
    bounds of the returned rate, when every pass but the last moves by
    the tolerance or more and the last one by less. *)
Fixpoint newton_certified (cert : list (Qc * Qc * Qc * Qc)) (a b : Qc)
    (cfs : list Qc) (tolerance : Qc) : option (Qc * Qc) :=
  match cert with
  | [] => None
  | (q_lo, q_hi, a', b') :: rest =>
      if newton_enclosure a b q_lo q_hi a' b' cfs then
        if leb tolerance q_lo || leb q_hi (- tolerance) then
          newton_certified rest a' b' cfs tolerance
        else if ltb (- tolerance) q_lo && ltb q_hi tolerance then
          match rest with
          | [] => Some (a', b')
          | _ :: _ => None
          end
        else None
      else None
  end.

(** The bounds of the rate returned by [calculate_irr], read off a
    certificate of its run. *)
Definition certified_within (cert : list (Qc * Qc * Qc * Qc)) (cfs : list Qc)
    (lo hi : Qc) : bool :=
  match newton_certified cert (lit 0.10) (lit 0.10) cfs (lit 1e-8) with
  | Some (a, b) => ltb lo a && ltb b hi
  | None => false
  end.


(* ------------------------------------------------------------------ *)
(** ** Vocabulary of the further properties *)

(** The remaining-reserves fraction that [estimate_terminal_value] uses. *)
Definition reserves_pct (remaining_reserves_pct : option Qc) : Qc :=
  match remaining_reserves_pct with
  | None => REMAINING_RESERVES_PCT
  | Some r => r
  end.

(** The G&A charge deducted from each year's cash flow. *)
Definition ga_charge (include_ga : bool) : Qc :=
  if include_ga then CO_INVEST_MM * GA_RATE else 0.

(** [sum(t * abs(cf))] over the series, counting years from [t]. *)
Fixpoint timed_abs_sum (t : nat) (cfs : list Qc) : Qc :=
  match cfs with
  | [] => 0
  | cf :: rest => of_nat t * Qcabs cf + timed_abs_sum (S t) rest
  end.

(** What [run_monte_carlo] has recorded after [i] passes. *)
Definition recorded (price_sims : price_results) (i : nat) (acc : mc_result)
    : Prop :=
  List.length (sim_irrs acc) = i /\
  List.length (sim_rois acc) = i /\
  List.length (sim_profits acc) = i /\
  List.length (sim_b_factors acc) = i /\
  List.length (sim_prices acc) = i /\
  (i <= List.length (blended_paths price_sims))%nat /\
  (i <= List.length (blended_avg price_sims))%nat /\
  sim_prices acc = firstn i (blended_avg price_sims) /\
  Forall (fun b => lit 0.3 <= b /\ b <= lit 1.2) (sim_b_factors acc).

(** The baseline part of [delay_all_yields] in year [t]: the whole
    baseline before the transition year, its fraction in that year. *)
Definition baseline_at (w : nat) (f : Qc) (t : nat) : Qc :=
  if (t <? w)%nat then BASELINE_YIELD_DURING_DELAY
  else if (t =? w)%nat then BASELINE_YIELD_DURING_DELAY * f
  else 0.

(** What [run_monte_carlo_with_delay] has recorded after [i] passes. *)
Definition delay_recorded (price_simulations : price_results) (i : nat)
    (acc : delay_mc_result) : Prop :=
  List.length (irrs acc) = i /\
  List.length (profits acc) = i /\
  List.length (paybacks acc) = i /\
  (i <= List.length (blended_paths price_simulations))%nat /\
  Forall (fun payback => exists p, payback = Fin p /\ 0 < p) (paybacks acc).

(** A pass of a breakeven search that goes on: the internal rate of
    return at price factor [factor] is [None] or not below the
    threshold. *)
Definition search_continues (base_yields : list Qc) (threshold factor : Qc)
    : Prop :=
  exists irr,
    calculate_irr (build_cash_flows base_yields (repeat factor 10) true) = Ok irr /\
    match irr with
    | None => True
    | Some r => threshold <= r
    end.
(* ------------------------------------------------------------------ *)
(** ** Concrete inputs used by the examples *)

(** A price path that rises after the first year. *)
Definition rising_path : list Qc := lit 0.4 :: repeat (lit 0.95) 9.

(** A trial whose cash flows sum to zero and whose first Newton step
    lands on the rate 0: a first-year price factor near 3.94, a
    second-year factor near 0.059, nothing afterwards; the draws give the
    harmonic curve b_factor = 1.0, Di = 0.25. *)
Definition zero_irr_path : list Qc :=
  lit (454188500515 # 115325077978) :: lit (6683093635 # 114038924692)
  :: repeat (lit 0.0) 8.

Definition zero_irr_sims : price_results :=
  {| res_oil := []; res_gas := []; res_ngl := [];
     blended_avg := mean zero_irr_path :: nil;
     blended_paths := zero_irr_path :: nil |}.

Definition zero_irr_draws (j : nat) : Qc * Qc := (lit 0.1, lit 0.0).

(** Three one-year price paths and their draws: steep decline with a low
    price, a profitable trial, a low price alone. *)
Definition short_sims : price_results :=
  {| res_oil := []; res_gas := []; res_ngl := [];
     blended_avg := lit 0.5 :: lit 4.0 :: lit 0.5 :: nil;
     blended_paths :=
       (lit 0.5 :: nil) :: (lit 4.0 :: nil) :: (lit 0.5 :: nil) :: nil |}.

Definition short_draws (j : nat) : Qc * Qc :=
  match j with
  | O => (- lit 0.4, lit 0.0)
  | S O => (lit 0.1, lit 0.01)
  | _ => (lit 0.1, lit 0.0)
  end.


(** The uncalibrated harmonic curve (b_factor = 1, Di = 0.25) and a flat
    price path at 30% of the strip, on which the investment loses
    money. *)
Definition harmonic_yields : list Qc :=
  YIELD_Y1 :: YIELD_Y2 :: YIELD_Y3 :: raw_tail pow_whole 1 (lit 0.25).

Definition flat_low_path : list Qc := repeat (lit 0.3) 10.

(** The eleven passes of [calculate_irr] on the flat path, without delay
    and with a delay of a quarter of a year: the bounds of each step and
    of the rate it reaches. *)
Definition flat_certificate_undelayed : list (Qc * Qc * Qc * Qc) :=
  (lit 0.59437334217862, lit 0.59437334217865,
   lit (-0.49437334217865), lit (-0.49437334217862)) ::
  (lit (-0.05400060605496), lit (-0.05400060605489),
   lit (-0.44037273612376), lit (-0.44037273612366)) ::
  (lit (-0.06034569777262), lit (-0.0603456977724),
   lit (-0.38002703835136), lit (-0.38002703835104)) ::
  (lit (-0.06656013682853), lit (-0.06656013682785),
   lit (-0.31346690152351), lit (-0.31346690152251)) ::
  (lit (-0.06991296816082), lit (-0.06991296815881),
   lit (-0.2435539333647), lit (-0.24355393336169)) ::
  (lit (-0.06367100119738), lit (-0.06367100119196),
   lit (-0.17988293217274), lit (-0.17988293216431)) ::
  (lit (-0.04047880564477), lit (-0.04047880563257),
   lit (-0.13940412654017), lit (-0.13940412651954)) ::
  (lit (-0.01173485341899), lit (-0.01173485339589),
   lit (-0.12766927314428), lit (-0.12766927310055)) ::
  (lit (-0.0007506711507), lit (-0.00075067110663),
   lit (-0.12691860203765), lit (-0.12691860194985)) ::
  (lit (-0.00000280694516), lit (-0.00000280685735),
   lit (-0.1269157951803), lit (-0.12691579500469)) ::
  (lit (-0.00000000012682), lit 0.0000000000488,
   lit (-0.1269157952291), lit (-0.12691579487787)) :: nil.

Definition flat_certificate_delayed : list (Qc * Qc * Qc * Qc) :=
  (lit 0.59371456538392, lit 0.59371456538395,
   lit (-0.49371456538395), lit (-0.49371456538392)) ::
  (lit (-0.05410855259173), lit (-0.05410855259165),
   lit (-0.4396060127923), lit (-0.43960601279219)) ::
  (lit (-0.06047134939205), lit (-0.06047134939181),
   lit (-0.37913466340049), lit (-0.37913466340014)) ::
  (lit (-0.06668573607139), lit (-0.06668573607065),
   lit (-0.31244892732984), lit (-0.31244892732875)) ::
  (lit (-0.06997654334055), lit (-0.06997654333836),
   lit (-0.24247238399148), lit (-0.2424723839882)) ::
  (lit (-0.06354770679974), lit (-0.06354770679385),
   lit (-0.17892467719763), lit (-0.17892467718846)) ::
  (lit (-0.04013016760036), lit (-0.04013016758714),
   lit (-0.13879450961049), lit (-0.1387945095881)) ::
  (lit (-0.01147734826446), lit (-0.01147734823945),
   lit (-0.12731716137104), lit (-0.12731716132364)) ::
  (lit (-0.00071606475276), lit (-0.00071606470501),
   lit (-0.12660109666603), lit (-0.12660109657088)) ::
  (lit (-0.00000255204472), lit (-0.00000255194955),
   lit (-0.12659854471648), lit (-0.12659854452616)) ::
  (lit (-0.0000000001274), lit 0.00000000006294,
   lit (-0.12659854477942), lit (-0.12659854439876)) :: nil.
(* ================================================================== *)
(** * Part II: properties *)

(* ------------------------------------------------------------------ *)
(** ** Arithmetic and list basics *)

Lemma ltb_lt a b : ltb a b = true <-> a < b.
Proof.
  unfold ltb. rewrite Qclt_alt. destruct (a ?= b); split; congruence.
Qed.

Lemma ltb_ge a b : ltb a b = false <-> b <= a.
Proof.
  split; intro H.
  - apply Qcnot_lt_le. intro L. apply ltb_lt in L. congruence.
  - destruct (ltb a b) eqn:E; trivial.
    apply ltb_lt in E. exfalso. exact (Qcle_not_lt _ _ H E).
Qed.

Lemma leb_le a b : leb a b = true <-> a <= b.
Proof.
  unfold leb. rewrite Qcle_alt. destruct (a ?= b); split; congruence.
Qed.

Lemma leb_gt a b : leb a b = false <-> b < a.
Proof.
  split; intro H.
  - apply Qcnot_le_lt. intro L. apply leb_le in L. congruence.
  - destruct (leb a b) eqn:E; trivial.
    apply leb_le in E. exfalso. exact (Qcle_not_lt _ _ E H).
Qed.

Lemma eqb_eq a b : eqb a b = true <-> a = b.
Proof.
  unfold eqb. rewrite Qceq_alt. destruct (a ?= b); split; congruence.
Qed.

Lemma eqb_neq a b : eqb a b = false <-> a <> b.
Proof.
  rewrite <- eqb_eq. destruct (eqb a b); split; congruence.
Qed.

Lemma Qc_eq_Qeq (x y : Qc) : x = y -> (x == y)%Q.
Proof. intros ->. reflexivity. Qed.

Lemma Qc_neq_Qeq (x y : Qc) : x <> y -> ~ (x == y)%Q.
Proof. intros H E. apply H. now apply Qc_is_canon. Qed.

Lemma this_Q2Qc (q : Q) : (this (Q2Qc q) == q)%Q.
Proof. apply Qred_correct. Qed.

#[export] Instance Q2Qc_Proper : Proper (Qeq ==> eq) Q2Qc.
Proof. intros x y E. now apply Q2Qc_eq_iff. Qed.

#[export] Instance this_Proper : Proper (eq ==> Qeq) this.
Proof. intros x y E. now subst. Qed.

(** Goals over [Qc] are sent to [Q], where [lra], [nra] and [field] know
    the numerals. *)
Ltac to_Q_in H :=
  unfold Qcdiv, Qcminus, Qcplus, Qcmult, Qcopp, Qcinv,
         lit, of_nat, of_Z in H;
  repeat rewrite !this_Q2Qc in H.

Ltac to_Q :=
  repeat match goal with
  | H : @eq Qc _ _ |- _ => apply Qc_eq_Qeq in H
  | H : ~ @eq Qc _ _ |- _ => apply Qc_neq_Qeq in H
  | H : Qcle _ _ |- _ => unfold Qcle in H
  | H : Qclt _ _ |- _ => unfold Qclt in H
  | |- @eq Qc _ _ => apply Qc_is_canon
  | |- ~ @eq Qc _ _ =>
      let E := fresh in intro E; apply Qc_eq_Qeq in E; revert E;
      change (~ ?P) with (P -> False)
  | |- Qcle _ _ => unfold Qcle
  | |- Qclt _ _ => unfold Qclt
  end;
  repeat match goal with
  | H : Qle _ _ |- _ => progress to_Q_in H
  | H : Qlt _ _ |- _ => progress to_Q_in H
  | H : Qeq _ _ |- _ => progress to_Q_in H
  | H : ~ Qeq _ _ |- _ => progress to_Q_in H
  end;
  unfold Qcdiv, Qcminus, Qcplus, Qcmult, Qcopp, Qcinv,
         lit, of_nat, of_Z;
  repeat rewrite !this_Q2Qc.

Ltac qc_lra := to_Q; lra.
Ltac qc_nra := to_Q; nra.

(** Closed comparisons between numerals. *)
Ltac qc_eval := vm_compute; first [reflexivity | discriminate | congruence].

Lemma py_max_ge_r a b : b <= py_max a b.
Proof.
  unfold py_max. destruct (ltb a b) eqn:E.
  - apply Qcle_refl.
  - now apply ltb_ge.
Qed.

Lemma py_max_ge_l a b : a <= py_max a b.
Proof.
  unfold py_max. destruct (ltb a b) eqn:E.
  - apply Qclt_le_weak. now apply ltb_lt.
  - apply Qcle_refl.
Qed.

Lemma py_sum_from acc l : fold_left Qcplus l acc = acc + py_sum l.
Proof.
  unfold py_sum. revert acc.
  induction l as [|x l IH]; intro acc; cbn [fold_left].
  - ring.
  - rewrite IH, (IH (0 + x)). ring.
Qed.

Lemma py_sum_cons x l : py_sum (x :: l) = x + py_sum l.
Proof.
  unfold py_sum at 1. cbn [fold_left]. rewrite py_sum_from. ring.
Qed.

Lemma py_sum_nil : py_sum [] = 0.
Proof. reflexivity. Qed.

Lemma py_sum_app l1 l2 : py_sum (l1 ++ l2) = py_sum l1 + py_sum l2.
Proof.
  induction l1 as [|x l1 IH]; cbn [app].
  - rewrite py_sum_nil. ring.
  - rewrite !py_sum_cons, IH. ring.
Qed.

Lemma py_sum_scale k l : py_sum (map (fun y => y * k) l) = py_sum l * k.
Proof.
  induction l as [|x l IH]; cbn [map].
  - rewrite py_sum_nil. ring.
  - rewrite !py_sum_cons, IH. ring.
Qed.

Lemma py_div_ok a b : b <> 0 -> py_div a b = Ok (a / b).
Proof. intro H. unfold py_div. apply eqb_neq in H. now rewrite H. Qed.

Lemma py_div_zero a : py_div a 0 = Raise ZeroDivisionError.
Proof. reflexivity. Qed.

Lemma py_div_inv a b r : py_div a b = Ok r -> b <> 0 /\ r = a / b.
Proof.
  unfold py_div. destruct (eqb b 0) eqn:E; intro H; inversion H.
  split; trivial. now apply eqb_neq.
Qed.

Lemma py_div_raise a b e : py_div a b = Raise e -> b = 0 /\ e = ZeroDivisionError.
Proof.
  unfold py_div. destruct (eqb b 0) eqn:E; intro H; inversion H.
  split; trivial. now apply eqb_eq.
Qed.

(* ------------------------------------------------------------------ *)
(** ** Cash flows *)

Ltac list10 l H :=
  do 10 (destruct l as [|? l]; [discriminate H|]);
  destruct l; [clear H|discriminate H].

Lemma nav_multiple_bands x :
  nav_multiple x =
    if ltb x (lit 0.5) then lit 0.60
    else if ltb x (lit 0.7) then lit 0.75
    else if ltb x (lit 0.9) then lit 0.85
    else lit 0.95.
Proof.
  unfold nav_multiple.
  destruct (leb (lit 0.9) x) eqn:E9.
  - apply leb_le in E9.
    assert (H5 : ltb x (lit 0.5) = false) by (apply ltb_ge; qc_lra).
    assert (H7 : ltb x (lit 0.7) = false) by (apply ltb_ge; qc_lra).
    assert (H9 : ltb x (lit 0.9) = false) by (apply ltb_ge; qc_lra).
    now rewrite H5, H7, H9.
  - apply leb_gt in E9. apply ltb_lt in E9 as H9. rewrite H9.
    destruct (leb (lit 0.7) x) eqn:E7.
    + apply leb_le in E7.
      assert (H5 : ltb x (lit 0.5) = false) by (apply ltb_ge; qc_lra).
      assert (H7 : ltb x (lit 0.7) = false) by (apply ltb_ge; qc_lra).
      now rewrite H5, H7.
    + apply leb_gt in E7. apply ltb_lt in E7 as H7. rewrite H7.
      destruct (leb (lit 0.5) x) eqn:E5.
      * apply leb_le in E5. apply ltb_ge in E5. now rewrite E5.
      * apply leb_gt in E5. apply ltb_lt in E5. now rewrite E5.
Qed.

Lemma nav_multiple_monotone x y : x <= y -> nav_multiple x <= nav_multiple y.
Proof.
  intro Hxy. unfold nav_multiple.
  destruct (leb (lit 0.9) x) eqn:X9; destruct (leb (lit 0.9) y) eqn:Y9;
  destruct (leb (lit 0.7) x) eqn:X7; destruct (leb (lit 0.7) y) eqn:Y7;
  destruct (leb (lit 0.5) x) eqn:X5; destruct (leb (lit 0.5) y) eqn:Y5;
  try (unfold lit; qc_eval);
  repeat match goal with
  | H : leb _ _ = true |- _ => apply leb_le in H
  | H : leb _ _ = false |- _ => apply leb_gt in H
  end; exfalso; qc_lra.
Qed.

(** C8. On a ten-value yield curve and a ten-value price path
    [build_cash_flows] returns exactly eleven values (it is a total
    function: nothing can be raised).  Year 0 is minus the investment,
    -195.0.  Years 1 to 10 are investment x yield[t] x price[t], less the
    fixed G&A charge (195 x 0.0075 = 1.4625) when [include_ga] is set.
    Year 10 has in addition the terminal value
    (TOTAL_NAV x remaining fraction) x price[9] x multiple(price[9]) x
    co-invest share, where the multiple is the step function with values
    0.60, 0.75, 0.85, 0.95 on the bands cut at 0.5, 0.7 and 0.9, and is
    monotonically non-decreasing. *)
Theorem build_cash_flows_spec
    (yield_curve price_factors_by_year : list Qc) (include_ga : bool) :
  List.length yield_curve = 10%nat ->
  List.length price_factors_by_year = 10%nat ->
  let cfs := build_cash_flows yield_curve price_factors_by_year include_ga in
  let ga := if include_ga then CO_INVEST_MM * GA_RATE else 0 in
  let operating t :=
    CO_INVEST_MM * nth t yield_curve 0 * nth t price_factors_by_year 0 - ga in
  let p9 := nth 9 price_factors_by_year 0 in
  List.length cfs = 11%nat /\
  nth 0 cfs 0 = - lit 195.0 /\
  (forall t, (t < 9)%nat -> nth (S t) cfs 0 = operating t) /\
  nth 10 cfs 0 =
    operating 9%nat
    + TOTAL_NAV_MM * REMAINING_RESERVES_PCT * p9 * nav_multiple p9
      * CO_INVEST_SHARE /\
  CO_INVEST_MM * GA_RATE = lit 1.4625 /\
  (forall x,
     nav_multiple x =
       if ltb x (lit 0.5) then lit 0.60
       else if ltb x (lit 0.7) then lit 0.75
       else if ltb x (lit 0.9) then lit 0.85
       else lit 0.95) /\
  (forall x y, x <= y -> nav_multiple x <= nav_multiple y).
Proof.
  intros Hy Hp.
  list10 yield_curve Hy. list10 price_factors_by_year Hp.
  cbv zeta.
  unfold build_cash_flows.
  cbn [cash_flow_years Nat.eqb List.length nth].
  unfold estimate_terminal_value.
  repeat split.
  - intros t Ht.
    do 9 (destruct t as [|t]; [cbn [nth]; destruct include_ga; ring|]).
    lia.
  - destruct include_ga; ring.
  - apply Qc_is_canon. vm_compute. reflexivity.
  - apply nav_multiple_bands.
  - apply nav_multiple_monotone.
Qed.

Lemma build_cash_flows_spec_witness :
  List.length
    (build_cash_flows (repeat (lit 0.186) 10) (repeat (lit 1.0) 10) true)
  = 11%nat.
Proof.
  exact (proj1 (build_cash_flows_spec (repeat (lit 0.186) 10)
                  (repeat (lit 1.0) 10) true eq_refl eq_refl)).
Defined.

(* ------------------------------------------------------------------ *)
(** ** Payback *)

Lemma cumsum_from_length acc l : List.length (cumsum_from acc l) = List.length l.
Proof.
  revert acc. induction l as [|x l IH]; intro acc; cbn [cumsum_from List.length].
  - reflexivity.
  - now rewrite IH.
Qed.

Lemma cumsum_from_nth acc l t :
  (t < List.length l)%nat ->
  nth t (cumsum_from acc l) 0 = acc + py_sum (firstn (S t) l).
Proof.
  revert acc t. induction l as [|x l IH]; intros acc t Ht; cbn [List.length] in Ht.
  - lia.
  - cbn [cumsum_from]. destruct t as [|t].
    + cbn [nth firstn]. rewrite py_sum_cons, py_sum_nil. ring.
    + cbn [nth]. rewrite IH by lia.
      change (firstn (S (S t)) (x :: l)) with (x :: firstn (S t) l).
      rewrite py_sum_cons. ring.
Qed.

Lemma cumsum_nth cfs t :
  (t < List.length cfs)%nat -> nth t (cumsum cfs) 0 = cumulative_at cfs t.
Proof.
  intro Ht. unfold cumsum, cumulative_at. rewrite cumsum_from_nth by exact Ht. ring.
Qed.

Lemma firstn_S_snoc (l : list Qc) t :
  (t < List.length l)%nat -> firstn (S t) l = firstn t l ++ [nth t l 0].
Proof.
  revert t. induction l as [|x l IH]; intros t Ht; cbn [List.length] in Ht.
  - lia.
  - destruct t as [|t].
    + reflexivity.
    + change (firstn (S (S t)) (x :: l)) with (x :: firstn (S t) l).
      rewrite IH by lia. reflexivity.
Qed.

Lemma cumulative_at_S cfs t :
  (S t < List.length cfs)%nat ->
  cumulative_at cfs (S t) = cumulative_at cfs t + nth (S t) cfs 0.
Proof.
  intro Ht. unfold cumulative_at.
  rewrite (firstn_S_snoc cfs (S t)) by exact Ht.
  rewrite py_sum_app, py_sum_cons, py_sum_nil. ring.
Qed.

Lemma payback_loop_none cumulative cfs a n :
  (forall k, (a <= k < a + n)%nat -> leb 0 (nth k cumulative 0) = false) ->
  payback_loop cumulative cfs (seq a n) = None.
Proof.
  revert a. induction n as [|n IH]; intros a H; cbn [seq payback_loop].
  - reflexivity.
  - rewrite H by lia. apply IH. intros k Hk. apply H. lia.
Qed.

Lemma payback_loop_first cumulative cfs a n t :
  (a <= t < a + n)%nat ->
  leb 0 (nth t cumulative 0) = true ->
  (forall k, (a <= k < t)%nat -> leb 0 (nth k cumulative 0) = false) ->
  payback_loop cumulative cfs (seq a n) =
    Some (np_add (of_nat (t - 1))
            (np_div (- nth (t - 1) cumulative 0) (nth t cfs 0))).
Proof.
  revert a. induction n as [|n IH]; intros a Ht Hpos Hneg; [lia|].
  cbn [seq payback_loop].
  destruct (Nat.eq_dec a t) as [->|Hat].
  - now rewrite Hpos.
  - rewrite Hneg by lia. apply IH; [lia|assumption|].
    intros k Hk. apply Hneg. lia.
Qed.

(** C9. [calculate_payback] returns
    [(t - 1) + (-cumulative[t-1]) / cfs[t]] for the smallest index
    [t >= 1] at which the cumulative cash flow is [>= 0], and [None] when
    the cumulative cash flow stays negative over years 1 to the end.  In
    particular a series whose cumulative flow first turns non-negative at
    year 4, with -10 at year 3 and +5 at year 4, has payback exactly
    [3 + 10/15]. *)
Theorem calculate_payback_spec (cfs : list Qc) :
  (forall t,
     (1 <= t < List.length cfs)%nat ->
     0 <= cumulative_at cfs t ->
     (forall k, (1 <= k < t)%nat -> cumulative_at cfs k < 0) ->
     calculate_payback cfs =
       Some (np_add (of_nat (t - 1))
               (np_div (- cumulative_at cfs (t - 1)) (nth t cfs 0))) /\
     (nth t cfs 0 <> 0 ->
      calculate_payback cfs =
        Some (Fin (of_nat (t - 1) + - cumulative_at cfs (t - 1) / nth t cfs 0))))
  /\
  ((forall k, (1 <= k < List.length cfs)%nat -> cumulative_at cfs k < 0) ->
   calculate_payback cfs = None)
  /\
  ((5 <= List.length cfs)%nat ->
   cumulative_at cfs 1 < 0 ->
   cumulative_at cfs 2 < 0 ->
   cumulative_at cfs 3 = - lit 10 ->
   cumulative_at cfs 4 = lit 5 ->
   calculate_payback cfs = Some (Fin (lit 3 + lit 10 / lit 15))).
Proof.
  assert (First : forall t,
     (1 <= t < List.length cfs)%nat ->
     0 <= cumulative_at cfs t ->
     (forall k, (1 <= k < t)%nat -> cumulative_at cfs k < 0) ->
     calculate_payback cfs =
       Some (np_add (of_nat (t - 1))
               (np_div (- cumulative_at cfs (t - 1)) (nth t cfs 0)))).
  { intros t Ht Hpos Hneg. unfold calculate_payback. cbv zeta.
    unfold cumsum at 2. rewrite cumsum_from_length.
    rewrite (payback_loop_first _ _ 1 _ t).
    - rewrite cumsum_nth by lia. reflexivity.
    - lia.
    - rewrite cumsum_nth by lia. now apply leb_le.
    - intros k Hk. rewrite cumsum_nth by lia. apply leb_gt. apply Hneg. lia. }
  split; [|split].
  - intros t Ht Hpos Hneg. split.
    + now apply First.
    + intro Hnz. rewrite (First t Ht Hpos Hneg).
      unfold np_div. apply eqb_neq in Hnz. rewrite Hnz. reflexivity.
  - intro Hneg. unfold calculate_payback. cbv zeta.
    unfold cumsum at 2. rewrite cumsum_from_length.
    apply payback_loop_none. intros k Hk.
    rewrite cumsum_nth by lia. apply leb_gt. apply Hneg. lia.
  - intros Hlen H1 H2 H3 H4.
    assert (C4 : nth 4 cfs 0 = lit 15).
    { generalize (cumulative_at_S cfs 3 ltac:(lia)). rewrite H3, H4.
      intro E. to_Q. lra. }
    rewrite (First 4%nat).
    + cbn [Nat.sub]. rewrite H3, C4. f_equal.
    + lia.
    + rewrite H4. unfold lit. qc_eval.
    + intros k Hk.
      assert (k = 1 \/ k = 2 \/ k = 3)%nat as [->|[->| ->]] by lia;
        [assumption|assumption|].
      rewrite H3. unfold lit. qc_eval.
Qed.

Lemma calculate_payback_spec_witness :
  calculate_payback (map lit [-40; 10; 10; 10; 15]%Q)
  = Some (Fin (lit 3 + lit 10 / lit 15)).
Proof.
  apply (proj2 (proj2 (calculate_payback_spec
                         (map lit [-40; 10; 10; 10; 15]%Q)))).
  - cbn; lia.
  - unfold Qclt; vm_compute; reflexivity.
  - unfold Qclt; vm_compute; reflexivity.
  - apply Qc_is_canon; vm_compute; reflexivity.
  - apply Qc_is_canon; vm_compute; reflexivity.
Defined.

(* ------------------------------------------------------------------ *)
(** ** Internal rate of return *)

Lemma newton_converged n rate cfs tolerance r :
  newton n rate cfs tolerance = Ok (Converged r) ->
  exists rate' f f_prime,
    npv rate' cfs = Ok f /\
    npv_derivative rate' cfs = Ok f_prime /\
    lit 1e-10 <= Qcabs f_prime /\
    r = rate' - f / f_prime /\
    Qcabs (r - rate') < tolerance.
Proof.
  revert rate. induction n as [|n IH]; intros rate H; cbn [newton] in H.
  - discriminate.
  - destruct (npv rate cfs) as [f|] eqn:Ef; cbn [rbind] in H; [|discriminate].
    destruct (npv_derivative rate cfs) as [f'|] eqn:Ef'; cbn [rbind] in H;
      [|discriminate].
    destruct (ltb (Qcabs f') (lit 1e-10)) eqn:Eb; [discriminate|].
    destruct (py_div f f') as [step|] eqn:Ed; cbn [rbind] in H; [|discriminate].
    apply py_div_inv in Ed as [_ ->].
    destruct (ltb (Qcabs (rate - f / f' - rate)) tolerance) eqn:Ec.
    + inversion H; subst r. exists rate, f, f'.
      repeat split; trivial.
      * now apply ltb_ge.
      * now apply ltb_lt.
    + now apply IH in H.
Qed.

Lemma in_band_iff rate : in_band rate = true <-> - lit 0.99 < rate /\ rate < lit 2.0.
Proof.
  unfold in_band. rewrite andb_true_iff, !ltb_lt. tauto.
Qed.

(** The first step never divides by a zero derivative: the guard has
    already left the loop. *)
Lemma guard_excludes_zero f_prime :
  ltb (Qcabs f_prime) (lit 1e-10) = false -> f_prime <> 0.
Proof.
  intros H ->. apply ltb_ge in H. revert H. unfold lit. qc_eval.
Qed.

(** C2, as the code has it.  A number returned by [calculate_irr] is
    either the iterate on which the Newton-Raphson loop converged (a
    Newton step [rate - f/f'] that moved by less than the tolerance 1e-8,
    returned without any check against the band), or the last iterate of
    a loop left by [break] or by exhaustion, and then it lies strictly
    inside (-0.99, 2.0); [None] is returned only for such a last iterate
    outside the band. *)
Theorem calculate_irr_band (cfs : list Qc) :
  (forall r,
     calculate_irr cfs = Ok (Some r) ->
     (exists rate f f_prime,
        npv rate cfs = Ok f /\
        npv_derivative rate cfs = Ok f_prime /\
        lit 1e-10 <= Qcabs f_prime /\
        r = rate - f / f_prime /\
        Qcabs (r - rate) < lit 1e-8)
     \/ (newton 100 (lit 0.10) cfs (lit 1e-8) = Ok (Stopped r) /\
         - lit 0.99 < r /\ r < lit 2.0))
  /\
  (calculate_irr cfs = Ok None ->
   exists rate,
     newton 100 (lit 0.10) cfs (lit 1e-8) = Ok (Stopped rate) /\
     ~ (- lit 0.99 < rate /\ rate < lit 2.0)).
Proof.
  unfold calculate_irr, calculate_irr_with.
  destruct (newton 100 (lit 0.10) cfs (lit 1e-8)) as [[new_rate|rate]|e] eqn:E;
    cbn [rbind]; split.
  - intros r H. inversion H; subst r. left.
    now apply newton_converged in E.
  - discriminate.
  - intros r H. right. destruct (in_band rate) eqn:B; inversion H; subst r.
    split; trivial. now apply in_band_iff.
  - intro H. destruct (in_band rate) eqn:B; [discriminate|].
    exists rate. split; trivial.
    intro C. apply in_band_iff in C. congruence.
  - discriminate.
  - discriminate.
Qed.

Lemma calculate_irr_band_witness :
  exists r,
    calculate_irr (map lit [-1; 4]%Q) = Ok (Some r) /\
    ((exists rate f f_prime,
        npv rate (map lit [-1; 4]%Q) = Ok f /\
        npv_derivative rate (map lit [-1; 4]%Q) = Ok f_prime /\
        lit 1e-10 <= Qcabs f_prime /\
        r = rate - f / f_prime /\
        Qcabs (r - rate) < lit 1e-8)
     \/ (newton 100 (lit 0.10) (map lit [-1; 4]%Q) (lit 1e-8) = Ok (Stopped r) /\
         - lit 0.99 < r /\ r < lit 2.0)).
Proof.
  eexists. split.
  - vm_compute. reflexivity.
  - apply (proj1 (calculate_irr_band (map lit [-1; 4]%Q))).
    vm_compute. reflexivity.
Defined.

(** C2 as claimed fails: a stake of 1 repaid by 4 a year later has an
    internal rate of 300%; the iteration converges on it and the number
    is returned although it lies outside (-0.99, 2.0). *)
Lemma calculate_irr_out_of_band :
  exists r,
    calculate_irr (map lit [-1; 4]%Q) = Ok (Some r) /\
    lit 2.999999 < r /\ ~ (- lit 0.99 < r /\ r < lit 2.0).
Proof.
  eexists. split; [vm_compute; reflexivity|]. split.
  - unfold Qclt. vm_compute. reflexivity.
  - intros [_ H]. revert H. unfold Qclt. vm_compute. discriminate.
Qed.

(** Nor is the function free of exceptions on Python floats: here the
    first Newton step lands on [rate = -1] and the next evaluation of the
    net present value divides by [(1 + rate) ** 1 = 0]. *)
Lemma calculate_irr_raises :
  calculate_irr (map lit [-20; 11]%Q) = Raise ZeroDivisionError.
Proof. vm_compute. reflexivity. Qed.

Lemma sum_terms_raise term t cfs acc e :
  (forall t cf e', term t cf = Raise e' -> e' = ZeroDivisionError) ->
  sum_terms term t cfs acc = Raise e -> e = ZeroDivisionError.
Proof.
  intro Hterm. revert t acc.
  induction cfs as [|cf cfs IH]; intros t acc H; cbn [sum_terms] in H.
  - discriminate.
  - destruct (term t cf) as [x|e'] eqn:E; cbn [rbind] in H.
    + now apply IH in H.
    + inversion H; subst. now apply Hterm in E.
Qed.

(** The only exception of the model is the division by zero. *)
Lemma calculate_irr_raise_kind cfs e :
  calculate_irr cfs = Raise e -> e = ZeroDivisionError.
Proof.
  unfold calculate_irr, calculate_irr_with.
  generalize (lit 0.10) as rate. generalize 100%nat as n.
  assert (N : forall n rate, newton n rate cfs (lit 1e-8) = Raise e ->
                             e = ZeroDivisionError).
  { induction n as [|n IH]; intros rate H; cbn [newton] in H; [discriminate|].
    destruct (npv rate cfs) as [f|e1] eqn:Ef; cbn [rbind] in H.
    - destruct (npv_derivative rate cfs) as [f'|e2] eqn:Ef'; cbn [rbind] in H.
      + destruct (ltb (Qcabs f') (lit 1e-10)); [discriminate|].
        destruct (py_div f f') as [step|e3] eqn:Ed; cbn [rbind] in H.
        * destruct (ltb _ _); [discriminate|]. now apply IH in H.
        * inversion H; subst. now apply py_div_raise in Ed.
      + inversion H; subst. unfold npv_derivative in Ef'.
        apply sum_terms_raise in Ef'; [exact Ef'|].
        intros t cf e' E. now apply py_div_raise in E.
    - inversion H; subst. unfold npv in Ef.
      apply sum_terms_raise in Ef; [exact Ef|].
      intros t cf e' E. now apply py_div_raise in E. }
  intros n rate H.
  destruct (newton n rate cfs (lit 1e-8)) as [[r|r]|e1] eqn:E; cbn [rbind] in H;
    try discriminate.
  inversion H; subst. now apply N in E.
Qed.

(* ------------------------------------------------------------------ *)
(** ** Yield curve: calibration and the module global *)

Section YieldCurveFacts.

Variable fpow : Qc -> Qc -> Qc.

Lemma arps_tail_yield_floor b Di t y :
  arps_tail_yield fpow b Di t = Ok y -> lit 0.03 <= y.
Proof.
  unfold arps_tail_yield. cbv zeta.
  destruct (py_div 1 b) as [e|]; cbn [rbind]; [|discriminate].
  destruct (py_div YIELD_Y3 _) as [yt|]; cbn [rbind]; [|discriminate].
  intro H. inversion H. apply py_max_ge_r.
Qed.

Lemma arps_tail_floor b Di ts raw :
  arps_tail fpow b Di ts = Ok raw ->
  List.length raw = List.length ts /\ Forall (fun y => lit 0.03 <= y) raw.
Proof.
  revert raw. induction ts as [|t ts IH]; intros raw H; cbn [arps_tail] in H.
  - inversion H. split; [reflexivity|constructor].
  - destruct (arps_tail_yield fpow b Di t) as [y|] eqn:Ey; cbn [rbind] in H;
      [|discriminate].
    destruct (arps_tail fpow b Di ts) as [rest|] eqn:Er; cbn [rbind] in H;
      [|discriminate].
    inversion H; subst raw. destruct (IH rest eq_refl) as [L F].
    split.
    + cbn [List.length]. now rewrite L.
    + constructor; [|assumption]. now apply arps_tail_yield_floor in Ey.
Qed.

(** The raw tail written as the Arps formula with its 3% floor. *)
Lemma arps_tail_formula b Di ts raw :
  arps_tail fpow b Di ts = Ok raw ->
  b <> 0 /\
  raw = map (fun t => py_max (YIELD_Y3 / fpow (1 + b * Di * of_nat t) (1 / b))
                             (lit 0.03)) ts
  \/ ts = [] /\ raw = [].
Proof.
  revert raw. induction ts as [|t ts IH]; intros raw H; cbn [arps_tail] in H.
  - inversion H. now right.
  - left.
    destruct (arps_tail_yield fpow b Di t) as [y|] eqn:Ey; cbn [rbind] in H;
      [|discriminate].
    destruct (arps_tail fpow b Di ts) as [rest|] eqn:Er; cbn [rbind] in H;
      [|discriminate].
    inversion H; subst raw. clear H.
    unfold arps_tail_yield in Ey. cbv zeta in Ey.
    destruct (py_div 1 b) as [e|] eqn:Ee; cbn [rbind] in Ey; [|discriminate].
    apply py_div_inv in Ee as [Hb ->].
    destruct (py_div YIELD_Y3 _) as [yt|] eqn:Ed; cbn [rbind] in Ey;
      [|discriminate].
    apply py_div_inv in Ed as [_ ->]. inversion Ey; subst y.
    split; [assumption|]. cbn [map]. f_equal.
    destruct (IH rest eq_refl) as [[_ ->]|[-> ->]]; reflexivity.
Qed.

Lemma sum_floor_positive raw :
  Forall (fun y => lit 0.03 <= y) raw -> raw <> [] -> 0 < py_sum raw.
Proof.
  induction 1 as [|y raw Hy F IH]; intro Hne; [congruence|].
  rewrite py_sum_cons. destruct raw as [|z raw].
  - rewrite py_sum_nil. qc_lra.
  - assert (Hs : 0 < py_sum (z :: raw)) by (apply IH; discriminate).
    qc_lra.
Qed.

(** The function, read off branch by branch. *)
Lemma generate_unfold b_factor Di calibrate_base g :
  let b := default_b b_factor in
  let D := default_Di Di in
  let base_yields := [YIELD_Y1; YIELD_Y2; YIELD_Y3] in
  generate_hyperbolic_yield_curve fpow b_factor Di calibrate_base g =
    match arps_tail fpow b D (seq 1 7) with
    | Raise e => (Raise e, g)
    | Ok raw =>
        if is_base_case b D || calibrate_base then
          let scale := (AVG_10Y_YIELD * lit 10 - py_sum base_yields) / py_sum raw in
          let curve := base_yields ++ map (fun y => y * scale) raw in
          (Ok curve, Some (py_sum curve))
        else (Ok (base_yields ++ raw), g)
    end.
Proof.
  cbv zeta. unfold generate_hyperbolic_yield_curve, default_b, default_Di.
  set (b := match b_factor with None => base_b_factor | Some b => b end).
  set (D := match Di with None => base_Di | Some d => d end).
  unfold mbind at 1. unfold lift at 1.
  destruct (arps_tail fpow b D (seq 1 7)) as [raw|e] eqn:Er; [|reflexivity].
  destruct (is_base_case b D || calibrate_base); [|reflexivity].
  apply arps_tail_floor in Er as [L F].
  assert (Hpos : 0 < py_sum raw).
  { apply sum_floor_positive; [assumption|].
    intros ->. discriminate L. }
  apply ltb_lt in Hpos as Hb. rewrite Hb.
  assert (Hnz : py_sum raw <> 0) by (intros E; rewrite E in Hpos; revert Hpos; qc_eval).
  unfold mbind, lift, ret, put. rewrite (py_div_ok _ _ Hnz). reflexivity.
Qed.

Lemma calibrated_sum raw :
  py_sum raw <> 0 ->
  let base_yields := [YIELD_Y1; YIELD_Y2; YIELD_Y3] in
  let scale := (AVG_10Y_YIELD * lit 10 - py_sum base_yields) / py_sum raw in
  py_sum (base_yields ++ map (fun y => y * scale) raw) = AVG_10Y_YIELD * lit 10.
Proof.
  intros Hnz. cbv zeta. rewrite py_sum_app, py_sum_scale. field. exact Hnz.
Qed.

End YieldCurveFacts.

Lemma target_sum_value : AVG_10Y_YIELD * lit 10 = lit 1.86.
Proof. apply Qc_is_canon. vm_compute. reflexivity. Qed.

Lemma pow_whole_one x : pow_whole x 1 = x.
Proof.
  unfold pow_whole. change (Z.to_nat (floor 1)) with 1%nat.
  cbn [Qcpower]. ring.
Qed.

(** At [b_factor = 1] the exponent is [1 / 1 = 1], so any power with
    [x ** 1 = x] gives the harmonic tail. *)
Lemma harmonic_tail fpow Di ts :
  (forall x, fpow x 1 = x) ->
  arps_tail fpow 1 Di ts = arps_tail pow_whole 1 Di ts.
Proof.
  intro H1. induction ts as [|t ts IH]; cbn [arps_tail]; [reflexivity|].
  rewrite IH. f_equal.
  unfold arps_tail_yield. cbv zeta.
  change (py_div 1 1) with (Ok (1 : Qc)). cbn [rbind].
  now rewrite H1, pow_whole_one.
Qed.

Lemma harmonic_curve fpow Di g :
  (forall x, fpow x 1 = x) ->
  generate_hyperbolic_yield_curve fpow (Some 1) (Some Di) false g =
  generate_hyperbolic_yield_curve pow_whole (Some 1) (Some Di) false g.
Proof.
  intro H1. rewrite !generate_unfold. cbv zeta. unfold default_b, default_Di.
  now rewrite (harmonic_tail fpow Di _ H1).
Qed.

Lemma arps_tail_ok fpow b D ts :
  b <> 0 ->
  (forall t, In t ts -> fpow (1 + b * D * of_nat t) (1 / b) <> 0) ->
  exists raw, arps_tail fpow b D ts = Ok raw.
Proof.
  intros Hb. induction ts as [|t ts IH]; intro H; cbn [arps_tail].
  - now exists [].
  - destruct IH as [raw Er]; [intros u Hu; apply H; now right|].
    unfold arps_tail_yield. cbv zeta.
    rewrite (py_div_ok _ _ Hb). cbn [rbind].
    rewrite py_div_ok by (apply H; now left). cbn [rbind].
    rewrite Er. cbn [rbind]. eexists. reflexivity.
Qed.

Lemma is_base_case_iff b D :
  is_base_case b D = true <-> b = lit 0.9 /\ D = lit 0.25.
Proof.
  unfold is_base_case. rewrite andb_true_iff, !eqb_eq. reflexivity.
Qed.

(** C3. The Years 4-10 tail is rescaled exactly when [(b_factor, Di)] is
    the base case (0.9, 0.25) or [calibrate_base] is set.  Then the ten
    values sum to AVG_10Y_YIELD x 10 = 1.86 (exactly, hence within 1e-6);
    otherwise the tail is the raw Arps values with their 3% floor.  In
    both cases the curve is a function of the arguments alone: the value
    held by the module global from earlier calls does not enter it.  The
    sum of an uncalibrated curve moves with the parameters: with a power
    satisfying [x ** 1 = x], the harmonic curves at Di = 0.25 and
    Di = 0.45 have different sums, both below the target.  (A call whose
    divisions by [b_factor] or by the power are by zero raises instead.) *)
Theorem calibration_rule
    (fpow : Qc -> Qc -> Qc) (b_factor Di : option Qc) (calibrate_base : bool)
    (g : global) :
  let b := default_b b_factor in
  let D := default_Di Di in
  let base_yields := [YIELD_Y1; YIELD_Y2; YIELD_Y3] in
  let call := generate_hyperbolic_yield_curve fpow b_factor Di calibrate_base in
  (is_base_case b D = true <-> b = lit 0.9 /\ D = lit 0.25) /\
  match arps_tail fpow b D (seq 1 7) with
  | Raise e => fst (call g) = Raise e
  | Ok raw =>
      raw = raw_tail fpow b D /\
      if is_base_case b D || calibrate_base then
        exists scale,
          fst (call g) = Ok (base_yields ++ map (fun y => y * scale) raw) /\
          py_sum (base_yields ++ map (fun y => y * scale) raw)
            = AVG_10Y_YIELD * lit 10 /\
          AVG_10Y_YIELD * lit 10 = lit 1.86 /\
          Qcabs (py_sum (base_yields ++ map (fun y => y * scale) raw) - lit 1.86)
            < lit 1e-6
      else fst (call g) = Ok (base_yields ++ raw)
  end /\
  (b <> 0 ->
   (forall t, (1 <= t <= 7)%nat -> fpow (1 + b * D * of_nat t) (1 / b) <> 0) ->
   exists curve, fst (call g) = Ok curve /\ List.length curve = 10%nat) /\
  (forall g', fst (call g') = fst (call g)) /\
  ((forall x, fpow x 1 = x) ->
   exists c1 c2,
     fst (generate_hyperbolic_yield_curve fpow (Some 1) (Some (lit 0.25)) false g)
       = Ok c1 /\
     fst (generate_hyperbolic_yield_curve fpow (Some 1) (Some (lit 0.45)) false g)
       = Ok c2 /\
     py_sum c2 < py_sum c1 /\ py_sum c1 < lit 1.86).
Proof.
  cbv zeta. split; [apply is_base_case_iff|]. split; [|split; [|split]].
  - rewrite generate_unfold. cbv zeta.
    destruct (arps_tail fpow (default_b b_factor) (default_Di Di) (seq 1 7))
      as [raw|e] eqn:Er; [|reflexivity].
    split.
    { destruct (arps_tail_formula _ _ _ _ _ Er) as [[_ ->]|[E _]];
        [reflexivity|discriminate E]. }
    destruct (is_base_case _ _ || calibrate_base); [|reflexivity].
    eexists. split; [reflexivity|].
    apply arps_tail_floor in Er as [L F].
    assert (Hpos : 0 < py_sum raw).
    { apply sum_floor_positive; [assumption|]. intros ->. discriminate L. }
    assert (Hnz : py_sum raw <> 0)
      by (intros E; rewrite E in Hpos; revert Hpos; qc_eval).
    pose proof (calibrated_sum raw Hnz) as S. cbv zeta in S.
    split; [exact S|]. split; [exact target_sum_value|].
    rewrite S, target_sum_value. unfold lit. qc_eval.
  - intros Hb Hp. rewrite generate_unfold. cbv zeta.
    destruct (arps_tail_ok fpow (default_b b_factor) (default_Di Di) (seq 1 7) Hb)
      as [raw Er].
    { intros t Ht. apply in_seq in Ht. apply Hp. lia. }
    rewrite Er. apply arps_tail_floor in Er as [L _]. cbn [List.length seq] in L.
    destruct (is_base_case _ _ || calibrate_base); cbn [fst];
      eexists; (split; [reflexivity|]);
      rewrite length_app, ?length_map, L; reflexivity.
  - intro g'. rewrite !generate_unfold. cbv zeta.
    destruct (arps_tail fpow _ _ _); [|reflexivity].
    destruct (is_base_case _ _ || calibrate_base); reflexivity.
  - intro H1. rewrite !(harmonic_curve fpow _ g H1).
    eexists. eexists.
    split; [vm_compute; reflexivity|].
    split; [vm_compute; reflexivity|].
    split; unfold Qclt; vm_compute; reflexivity.
Qed.

Lemma calibration_rule_witness :
  exists c1 c2,
    fst (generate_hyperbolic_yield_curve pow_whole (Some 1) (Some (lit 0.25)) false None)
      = Ok c1 /\
    fst (generate_hyperbolic_yield_curve pow_whole (Some 1) (Some (lit 0.45)) false None)
      = Ok c2 /\
    py_sum c2 < py_sum c1 /\ py_sum c1 < lit 1.86.
Proof.
  exact (proj2 (proj2 (proj2 (proj2
           (calibration_rule pow_whole None None false None)))) pow_whole_one).
Defined.

(* ------------------------------------------------------------------ *)
(** ** The module global is written by calibrated calls only *)

Section GlobalFrame.

Variable fpow : Qc -> Qc -> Qc.

Lemma generate_global b_factor Di calibrate_base g :
  snd (generate_hyperbolic_yield_curve fpow b_factor Di calibrate_base g) = g
  \/ (is_base_case (default_b b_factor) (default_Di Di) || calibrate_base = true /\
      exists curve,
        generate_hyperbolic_yield_curve fpow b_factor Di calibrate_base g
          = (Ok curve, Some (py_sum curve))).
Proof.
  rewrite generate_unfold. cbv zeta.
  destruct (arps_tail fpow _ _ _) as [raw|e]; [|now left].
  destruct (is_base_case _ _ || calibrate_base); [|now left].
  right. split; [reflexivity|]. eexists. reflexivity.
Qed.

Lemma generate_stressed_global b_factor Di g :
  is_base_case (default_b b_factor) (default_Di Di) = false ->
  snd (generate_hyperbolic_yield_curve fpow b_factor Di false g) = g.
Proof.
  intro H. rewrite generate_unfold. cbv zeta. rewrite H. cbn [orb].
  destruct (arps_tail fpow _ _ _); reflexivity.
Qed.

Lemma mc_trial_global price_sims shocks i acc g :
  stressed_draw shocks = true ->
  snd (mc_trial fpow price_sims shocks i acc g) = g.
Proof.
  unfold stressed_draw, mc_trial.
  destruct (simulate_decline_curve_risk true (fst shocks) (snd shocks))
    as [[b D] label].
  intro H. apply negb_true_iff in H.
  unfold mbind at 1. unfold lift at 1.
  destruct (py_index (blended_paths price_sims) i) as [price_path|]; [|reflexivity].
  unfold mbind at 1. unfold lift at 1.
  destruct (py_index (blended_avg price_sims) i) as [avg_price|]; [|reflexivity].
  unfold mbind at 1.
  pose proof (generate_stressed_global (Some b) (Some D) g H) as G.
  destruct (generate_hyperbolic_yield_curve fpow (Some b) (Some D) false g)
    as [[ys|e] g'] eqn:E; cbn [snd] in G; subst g'; [|reflexivity].
  unfold mbind at 1. unfold lift at 1.
  destruct (calculate_irr _) as [irr|]; [|reflexivity].
  unfold mbind at 1. unfold lift at 1.
  destruct (calculate_roi _) as [roi|]; reflexivity.
Qed.

Lemma mc_loop_global n price_sims draws i acc g :
  (forall j, stressed_draw (draws j) = true) ->
  snd (mc_loop fpow n price_sims draws i acc g) = g.
Proof.
  intro H. revert i acc. induction n as [|n IH]; intros i acc; cbn [mc_loop].
  - reflexivity.
  - unfold mbind.
    pose proof (mc_trial_global price_sims (draws i) i acc g (H i)) as T.
    destruct (mc_trial fpow price_sims (draws i) i acc g) as [[acc'|e] g'];
      cbn [snd] in T; subst g'; [apply IH|reflexivity].
Qed.

End GlobalFrame.

(** C10. A call of [generate_hyperbolic_yield_curve] whose calibration
    branch does not fire ([(b_factor, Di)] is not the base case and
    [calibrate_base] is false) leaves the module global BASE_YIELD_SUM,
    the value reported by [get_base_yield_sum], as it was.  Any call that
    changes the global is a calibrated call that returned a curve, and
    stores that curve's sum.  Hence a Monte Carlo run all of whose draws
    are stressed leaves the recorded sum untouched. *)
Theorem stressed_call_keeps_base_yield_sum
    (fpow : Qc -> Qc -> Qc) (b_factor Di : option Qc) (g : global) :
  is_base_case (default_b b_factor) (default_Di Di) = false ->
  snd (generate_hyperbolic_yield_curve fpow b_factor Di false g) = g /\
  get_base_yield_sum
    (snd (generate_hyperbolic_yield_curve fpow b_factor Di false g)) = (Ok g, g) /\
  (forall b' Di' calibrate_base g',
     snd (generate_hyperbolic_yield_curve fpow b' Di' calibrate_base g') <> g' ->
     is_base_case (default_b b') (default_Di Di') || calibrate_base = true /\
     exists curve,
       generate_hyperbolic_yield_curve fpow b' Di' calibrate_base g'
         = (Ok curve, Some (py_sum curve))) /\
  (forall num_sims price_sims draws,
     (forall j, stressed_draw (draws j) = true) ->
     snd (run_monte_carlo fpow num_sims price_sims draws g) = g).
Proof.
  intro H. split; [|split; [|split]].
  - now apply generate_stressed_global.
  - rewrite generate_stressed_global by exact H. reflexivity.
  - intros b' Di' c g' Hne.
    destruct (generate_global fpow b' Di' c g') as [E|R]; [contradiction|exact R].
  - intros n ps draws Hd. unfold run_monte_carlo. now apply mc_loop_global.
Qed.

Lemma stressed_call_keeps_base_yield_sum_witness :
  snd (generate_hyperbolic_yield_curve pow_whole (Some 1) (Some (lit 0.26)) false
         (Some (lit 1.86)))
  = Some (lit 1.86).
Proof.
  apply (stressed_call_keeps_base_yield_sum pow_whole (Some 1) (Some (lit 0.26))
           (Some (lit 1.86))).
  vm_compute. reflexivity.
Defined.

(* ------------------------------------------------------------------ *)
(** ** Price floor *)

Lemma ou_step_floor p current_price shock : lit 0.2 <= ou_step p current_price shock.
Proof. unfold ou_step. cbv zeta. apply py_max_ge_l. Qed.

Lemma floored_snoc l x : floored l -> lit 0.2 <= x -> floored (l ++ [x]).
Proof.
  intros F H. apply Forall_app. split; [assumption|].
  constructor; [assumption|constructor].
Qed.

Lemma floored_nth l t : floored l -> (t < List.length l)%nat -> lit 0.2 <= nth t l 0.
Proof.
  intros F Ht. unfold floored in F. rewrite Forall_forall in F.
  apply F. now apply nth_In.
Qed.

Lemma mix_weights_sum :
  COMMODITY_MIX_oil + COMMODITY_MIX_gas + COMMODITY_MIX_ngl = lit 1.0.
Proof. apply Qc_is_canon. vm_compute. reflexivity. Qed.

Lemma blend_floor o g n :
  lit 0.2 <= o -> lit 0.2 <= g -> lit 0.2 <= n ->
  lit 0.2 <= COMMODITY_MIX_oil * o + COMMODITY_MIX_gas * g + COMMODITY_MIX_ngl * n.
Proof.
  intros Ho Hg Hn.
  unfold COMMODITY_MIX_oil, COMMODITY_MIX_gas, COMMODITY_MIX_ngl. qc_lra.
Qed.

Section PriceFloor.

Variable chol : vec3 * vec3 * vec3.

Lemma simulate_year_floor z n ps :
  floored_prices n ps -> floored_prices (S n) (simulate_year chol z ps).
Proof.
  intros [[Fo Lo] [[Fg Lg] [Fn Ln]]]. unfold simulate_year.
  destruct (matvec3 chol z) as [[c0 c1] c2]. unfold floored_prices.
  cbn [oil gas ngl]. rewrite !length_app, Lo, Lg, Ln. cbn [List.length].
  repeat split; try lia; apply floored_snoc; trivial; apply ou_step_floor.
Qed.

Lemma simulate_years_floor years zs n ps :
  floored_prices n ps ->
  floored_prices (years + n) (simulate_years chol years zs ps).
Proof.
  revert zs n ps. induction years as [|years IH]; intros zs n ps H;
    cbn [simulate_years].
  - exact H.
  - replace (S years + n)%nat with (years + S n)%nat by lia.
    apply IH. now apply simulate_year_floor.
Qed.

Lemma simulate_path_floor years zs :
  floored_prices (S years) (simulate_path chol years zs).
Proof.
  unfold simulate_path. replace (S years) with (years + 1)%nat by lia.
  apply simulate_years_floor. unfold floored_prices. cbn [oil gas ngl List.length].
  assert (F : floored [lit 1.0]).
  { constructor; [|constructor]. unfold lit. qc_eval. }
  repeat split; trivial.
Qed.

Lemma blend_path_floor years zs :
  floored (blend years (simulate_path chol years zs)).
Proof.
  destruct (simulate_path_floor years zs) as [[Fo Lo] [[Fg Lg] [Fn Ln]]].
  unfold blend, floored. apply Forall_forall. intros x Hx.
  apply in_map_iff in Hx as [t [<- Ht]]. apply in_seq in Ht.
  unfold blended_at.
  apply blend_floor; apply floored_nth; trivial; lia.
Qed.

Lemma simulate_sims_floor years sims draws results :
  Forall floored (blended_paths results) ->
  Forall floored (blended_paths (simulate_sims chol years sims draws results)).
Proof.
  revert draws results. induction sims as [|sims IH]; intros draws results H;
    cbn [simulate_sims].
  - exact H.
  - apply IH. cbn [blended_paths]. apply Forall_app. split; [assumption|].
    constructor; [apply blend_path_floor|constructor].
Qed.

End PriceFloor.

(** C6. In every simulated trial every per-commodity price factor is at
    least 0.2: the floor closes each step, per commodity and per year
    (and the starting value is 1.0).  Consequently every value of the
    blended path, the weighted sum with the commodity-mix weights
    0.32 + 0.40 + 0.28 = 1.0, is at least 0.2 and positive, in each path
    that [simulate_commodity_prices] returns. *)
Theorem price_floor
    (chol : vec3 * vec3 * vec3) (years sims : nat) (draws : nat -> nat -> vec3) :
  (forall p current_price shock, lit 0.2 <= ou_step p current_price shock) /\
  (forall zs,
     let ps := simulate_path chol years zs in
     (forall x, In x (oil ps) -> lit 0.2 <= x) /\
     (forall x, In x (gas ps) -> lit 0.2 <= x) /\
     (forall x, In x (ngl ps) -> lit 0.2 <= x) /\
     List.length (oil ps) = S years /\
     List.length (gas ps) = S years /\
     List.length (ngl ps) = S years) /\
  COMMODITY_MIX_oil + COMMODITY_MIX_gas + COMMODITY_MIX_ngl = lit 1.0 /\
  (forall path x,
     In path (blended_paths (simulate_commodity_prices chol years sims draws)) ->
     In x path -> lit 0.2 <= x /\ 0 < x) /\
  List.length (blended_paths (simulate_commodity_prices chol years sims draws)) = sims.
Proof.
  split; [exact ou_step_floor|]. split; [|split; [exact mix_weights_sum|split]].
  - intro zs. cbv zeta.
    destruct (simulate_path_floor chol years zs) as [[Fo Lo] [[Fg Lg] [Fn Ln]]].
    unfold floored in Fo, Fg, Fn. rewrite Forall_forall in Fo, Fg, Fn.
    repeat split; trivial.
  - intros path x Hp Hx.
    assert (F : Forall floored
                  (blended_paths (simulate_commodity_prices chol years sims draws))).
    { unfold simulate_commodity_prices. apply simulate_sims_floor. constructor. }
    rewrite Forall_forall in F. specialize (F path Hp).
    unfold floored in F. rewrite Forall_forall in F. specialize (F x Hx).
    split; [exact F|]. qc_lra.
  - unfold simulate_commodity_prices.
    assert (L : forall n d r,
               List.length (blended_paths (simulate_sims chol years n d r))
               = (n + List.length (blended_paths r))%nat).
    { induction n as [|n IH]; intros d r; cbn [simulate_sims].
      - reflexivity.
      - rewrite IH. cbn [blended_paths]. rewrite length_app. cbn [List.length]. lia. }
    rewrite L. cbn [blended_paths List.length]. lia.
Qed.

Lemma price_floor_witness :
  let paths :=
    blended_paths
      (simulate_commodity_prices ((1, 0, 0), (0, 1, 0), (0, 0, 1)) 2 1
         (fun _ _ => (- lit 5.0, lit 0.5, lit 0.0))) in
  let path := nth 0 paths [] in
  let x := nth 0 path 0 in
  In path paths /\ In x path /\ lit 0.2 <= x /\ 0 < x.
Proof.
  cbv zeta.
  assert (Hp : In (nth 0
                     (blended_paths
                        (simulate_commodity_prices ((1, 0, 0), (0, 1, 0), (0, 0, 1))
                           2 1 (fun _ _ => (- lit 5.0, lit 0.5, lit 0.0)))) [])
                  (blended_paths
                     (simulate_commodity_prices ((1, 0, 0), (0, 1, 0), (0, 0, 1))
                        2 1 (fun _ _ => (- lit 5.0, lit 0.5, lit 0.0)))))
    by (vm_compute; left; reflexivity).
  assert (Hx : In (nth 0 (nth 0
                     (blended_paths
                        (simulate_commodity_prices ((1, 0, 0), (0, 1, 0), (0, 0, 1))
                           2 1 (fun _ _ => (- lit 5.0, lit 0.5, lit 0.0)))) []) 0)
                  (nth 0
                     (blended_paths
                        (simulate_commodity_prices ((1, 0, 0), (0, 1, 0), (0, 0, 1))
                           2 1 (fun _ _ => (- lit 5.0, lit 0.5, lit 0.0)))) []))
    by (vm_compute; left; reflexivity).
  split; [exact Hp|]. split; [exact Hx|].
  exact (proj1 (proj2 (proj2 (proj2
           (price_floor ((1, 0, 0), (0, 1, 0), (0, 0, 1)) 2 1
              (fun _ _ => (- lit 5.0, lit 0.5, lit 0.0))))))
           _ _ Hp Hx).
Defined.

(* ------------------------------------------------------------------ *)
(** ** Monte Carlo: one pass of the loop *)

Section MonteCarloFacts.

Variable fpow : Qc -> Qc -> Qc.

(** What a pass that returns has done. *)
Lemma mc_trial_inv price_sims shocks i acc g acc' g' :
  mc_trial fpow price_sims shocks i acc g = (Ok acc', g') ->
  exists price_path avg_price stressed_yields irr roi,
    let b_factor := fst (fst (simulate_decline_curve_risk true (fst shocks) (snd shocks))) in
    let Di := snd (fst (simulate_decline_curve_risk true (fst shocks) (snd shocks))) in
    let cfs := build_cash_flows stressed_yields price_path true in
    py_index (blended_paths price_sims) i = Ok price_path /\
    py_index (blended_avg price_sims) i = Ok avg_price /\
    generate_hyperbolic_yield_curve fpow (Some b_factor) (Some Di) false g
      = (Ok stressed_yields, g') /\
    calculate_irr cfs = Ok irr /\
    calculate_roi cfs = Ok roi /\
    acc' =
      {| sim_irrs := sim_irrs acc ++ [irr_or_sentinel irr];
         sim_rois := sim_rois acc ++ [roi];
         sim_profits := sim_profits acc ++ [py_sum cfs];
         sim_b_factors := sim_b_factors acc ++ [b_factor];
         sim_prices := sim_prices acc ++ [avg_price];
         risk_attribution :=
           attribute_loss (py_sum cfs) avg_price b_factor (risk_attribution acc) |}.
Proof.
  unfold mc_trial.
  destruct (simulate_decline_curve_risk true (fst shocks) (snd shocks))
    as [[b D] label]. cbn [fst snd].
  unfold mbind at 1. unfold lift at 1.
  destruct (py_index (blended_paths price_sims) i) as [price_path|];
    [|discriminate].
  unfold mbind at 1. unfold lift at 1.
  destruct (py_index (blended_avg price_sims) i) as [avg_price|];
    [|discriminate].
  unfold mbind at 1.
  destruct (generate_hyperbolic_yield_curve fpow (Some b) (Some D) false g)
    as [[ys|e] g1] eqn:E; [|discriminate].
  unfold mbind at 1. unfold lift at 1.
  destruct (calculate_irr _) as [irr|] eqn:Ei; [|discriminate].
  unfold mbind at 1. unfold lift at 1.
  destruct (calculate_roi _) as [roi|] eqn:Eo; [|discriminate].
  unfold ret. intro H. inversion H; subst.
  exists price_path, avg_price, ys, irr, roi. cbv zeta.
  repeat split; trivial.
Qed.

End MonteCarloFacts.

(* ------------------------------------------------------------------ *)
(** ** The recorded IRR *)

Lemma irr_or_sentinel_cases irr :
  (irr = None -> irr_or_sentinel irr = - lit 1.0) /\
  (forall r, irr = Some r -> r <> 0 -> irr_or_sentinel irr = r) /\
  (irr = Some 0 -> irr_or_sentinel irr = - lit 1.0) /\
  (forall r, irr = Some r -> irr_or_sentinel_not_none irr = r).
Proof.
  repeat split.
  - now intros ->.
  - intros r -> Hr. unfold irr_or_sentinel. apply eqb_neq in Hr. now rewrite Hr.
  - now intros ->.
  - now intros r ->.
Qed.

(** C5, where the code departs from the claim.  The value stored in
    [sim_irrs] is [irr if irr else -1.0]: it is -1.0 when [calculate_irr]
    returned [None], the returned number when that number is not zero,
    and -1.0 again when [calculate_irr] returned the number 0.0, which is
    falsy.  (The sibling loop [run_monte_carlo_with_delay] tests
    [irr is not None] and keeps the 0.0.)  On the trial above the cash
    flows sum to zero, [calculate_irr] returns exactly 0.0, and the run
    records -1.0. *)
Theorem zero_irr_recorded_as_sentinel :
  (forall irr,
     (irr = None -> irr_or_sentinel irr = - lit 1.0) /\
     (forall r, irr = Some r -> r <> 0 -> irr_or_sentinel irr = r) /\
     (irr = Some 0 -> irr_or_sentinel irr = - lit 1.0) /\
     (forall r, irr = Some r -> irr_or_sentinel_not_none irr = r)) /\
  (exists stressed_yields res,
     fst (generate_hyperbolic_yield_curve pow_whole (Some (lit 1.0)) (Some (lit 0.25))
            false None) = Ok stressed_yields /\
     py_sum (build_cash_flows stressed_yields zero_irr_path true) = 0 /\
     calculate_irr (build_cash_flows stressed_yields zero_irr_path true)
       = Ok (Some 0) /\
     run_monte_carlo pow_whole 1 zero_irr_sims zero_irr_draws None = (Ok res, None) /\
     sim_irrs res = - lit 1.0 :: nil) /\
  calculate_irr (map lit [-100; 140; -29; -11]%Q) = Ok (Some 0).
Proof.
  split; [exact irr_or_sentinel_cases|]. split.
  - eexists. eexists.
    split; [vm_compute; reflexivity|].
    split; [apply Qc_is_canon; vm_compute; reflexivity|].
    split; [vm_compute; reflexivity|].
    split; vm_compute; reflexivity.
  - vm_compute. reflexivity.
Qed.

(* ------------------------------------------------------------------ *)
(** ** Loss attribution *)

Lemma count_snoc {A} (f : A -> bool) l x :
  count f (l ++ [x]) = (count f l + if f x then 1 else 0)%nat.
Proof.
  unfold count. rewrite filter_app, length_app. cbn [filter].
  destruct (f x); reflexivity.
Qed.

Lemma trials_of_length ps avs bs :
  List.length ps = List.length avs -> List.length ps = List.length bs ->
  List.length (trials_of ps avs bs) = List.length ps.
Proof.
  revert avs bs. induction ps as [|p ps IH]; intros [|a avs] [|b bs] Ha Hb;
    cbn [List.length] in *; try discriminate; cbn [trials_of List.length].
  - reflexivity.
  - f_equal. apply IH; lia.
Qed.

Lemma trials_of_snoc ps avs bs p a b :
  List.length ps = List.length avs -> List.length ps = List.length bs ->
  trials_of (ps ++ [p]) (avs ++ [a]) (bs ++ [b]) = trials_of ps avs bs ++ [(p, a, b)].
Proof.
  revert avs bs. induction ps as [|p0 ps IH]; intros [|a0 avs] [|b0 bs] Ha Hb;
    cbn [List.length] in *; try discriminate; cbn [app trials_of].
  - reflexivity.
  - f_equal. apply IH; lia.
Qed.

Lemma count_losing_profits ps avs bs :
  List.length ps = List.length avs -> List.length ps = List.length bs ->
  count losing (trials_of ps avs bs) = count (fun p => ltb p 0) ps.
Proof.
  revert avs bs. induction ps as [|p ps IH]; intros [|a avs] [|b bs] Ha Hb;
    cbn [List.length] in *; try discriminate; unfold count in *;
    cbn [trials_of filter losing].
  - reflexivity.
  - destruct (ltb p 0); cbn [List.length]; rewrite IH by lia; reflexivity.
Qed.

Lemma classes_partition (l : list (Qc * Qc * Qc)) :
  (count is_price l + count is_decline l + count is_combined l + count is_other l
   = count losing l)%nat.
Proof.
  unfold count. induction l as [|t l IH]; [reflexivity|].
  cbn [filter]. unfold is_price, is_decline, is_combined, is_other in *.
  destruct (losing t), (low_price t), (steep_decline t); cbn [andb negb List.length];
    lia.
Qed.

(** The rule applied to one trial. *)
Lemma attribute_loss_rule profit avg_price b_factor a :
  attribute_loss profit avg_price b_factor a =
    let t := (profit, avg_price, b_factor) in
    if is_combined t then incr_combined a
    else if is_price t then incr_factor factor_price a
    else if is_decline t then incr_factor factor_decline a
    else if is_other t then incr_other a
    else a.
Proof.
  unfold attribute_loss, is_combined, is_price, is_decline, is_other,
    losing, low_price, steep_decline. cbv zeta.
  destruct (ltb profit 0), (ltb avg_price (lit 0.80)), (ltb b_factor (lit 0.70));
    reflexivity.
Qed.

Lemma attributed_step acc profit avg_price b_factor irr roi :
  attributed acc ->
  attributed
    {| sim_irrs := sim_irrs acc ++ [irr];
       sim_rois := sim_rois acc ++ [roi];
       sim_profits := sim_profits acc ++ [profit];
       sim_b_factors := sim_b_factors acc ++ [b_factor];
       sim_prices := sim_prices acc ++ [avg_price];
       risk_attribution :=
         attribute_loss profit avg_price b_factor (risk_attribution acc) |}.
Proof.
  unfold attributed. cbv zeta. cbn [sim_profits sim_prices sim_b_factors risk_attribution].
  intros (Lp & La & Lb & Hp & Hd & Hc & Ho).
  rewrite trials_of_snoc by congruence.
  rewrite !length_app, !count_snoc. cbn [List.length].
  rewrite attribute_loss_rule. cbv zeta.
  unfold is_price, is_decline, is_combined, is_other in *.
  destruct (losing (profit, avg_price, b_factor)),
           (low_price (profit, avg_price, b_factor)),
           (steep_decline (profit, avg_price, b_factor));
    cbn [andb negb incr_combined incr_factor incr_other
         price decline combined other];
    repeat split; lia.
Qed.

Section AttributionLoop.

Variable fpow : Qc -> Qc -> Qc.

Lemma mc_loop_attributed n price_sims draws i acc g res g' :
  attributed acc ->
  mc_loop fpow n price_sims draws i acc g = (Ok res, g') ->
  attributed res /\
  List.length (sim_profits res) = (n + List.length (sim_profits acc))%nat.
Proof.
  revert i acc g. induction n as [|n IH]; intros i acc g Hacc H; cbn [mc_loop] in H.
  - unfold ret in H. inversion H; subst. split; [assumption|reflexivity].
  - unfold mbind in H.
    destruct (mc_trial fpow price_sims (draws i) i acc g) as [[acc'|e] g1] eqn:E;
      [|discriminate].
    apply mc_trial_inv in E as (pp & av & ys & irr & roi & E). cbv zeta in E.
    destruct E as (_ & _ & _ & _ & _ & ->).
    apply IH in H.
    + destruct H as [A L]. split; [exact A|].
      rewrite L. cbn [sim_profits]. rewrite length_app. cbn [List.length]. lia.
    + now apply attributed_step.
Qed.

End AttributionLoop.

(** C7. In [run_monte_carlo] a trial with profit < 0 increments exactly
    one of the four counters, chosen by the thresholds (average price
    factor < 0.80 alone: price; b_factor < 0.70 alone: decline; both:
    combined; neither: other); a trial with profit >= 0 increments none.
    After the loop each counter is the number of recorded trials of its
    class, and the four counts add up to the number of losing trials. *)
Theorem attribution_exhaustive
    (fpow : Qc -> Qc -> Qc) (num_sims : nat) (price_sims : price_results)
    (draws : nat -> Qc * Qc) (g g' : global) (res : mc_result) :
  run_monte_carlo fpow num_sims price_sims draws g = (Ok res, g') ->
  let trials := trials_of (sim_profits res) (sim_prices res) (sim_b_factors res) in
  let a := risk_attribution res in
  (forall profit avg_price b_factor a0,
     let a1 := attribute_loss profit avg_price b_factor a0 in
     (profit < 0 -> avg_price < lit 0.80 -> ~ b_factor < lit 0.70 ->
      a1 = incr_factor factor_price a0) /\
     (profit < 0 -> ~ avg_price < lit 0.80 -> b_factor < lit 0.70 ->
      a1 = incr_factor factor_decline a0) /\
     (profit < 0 -> avg_price < lit 0.80 -> b_factor < lit 0.70 ->
      a1 = incr_combined a0) /\
     (profit < 0 -> ~ avg_price < lit 0.80 -> ~ b_factor < lit 0.70 ->
      a1 = incr_other a0) /\
     (0 <= profit -> a1 = a0) /\
     (price a1 + decline a1 + combined a1 + other a1
      = price a0 + decline a0 + combined a0 + other a0
        + if ltb profit 0 then 1 else 0)%nat) /\
  List.length trials = num_sims /\
  List.length (sim_profits res) = num_sims /\
  price a = count is_price trials /\
  decline a = count is_decline trials /\
  combined a = count is_combined trials /\
  other a = count is_other trials /\
  (price a + decline a + combined a + other a)%nat
    = count (fun profit => ltb profit 0) (sim_profits res).
Proof.
  intro H. cbv zeta. split.
  - intros profit avg b a0. unfold attribute_loss.
    destruct (ltb profit 0) eqn:P; destruct (ltb avg (lit 0.80)) eqn:A;
      destruct (ltb b (lit 0.70)) eqn:B; cbn [app];
      repeat match goal with
      | E : ltb _ _ = true |- _ => apply ltb_lt in E
      | E : ltb _ _ = false |- _ => apply ltb_ge in E
      end;
      (repeat split; intros;
       try reflexivity;
       try (exfalso;
            match goal with
            | H1 : ?x < ?y, H2 : ?y <= ?x |- _ => exact (Qcle_not_lt _ _ H2 H1)
            | H1 : ?P, H2 : ~ ?P |- _ => exact (H2 H1)
            end);
       try (cbn [incr_factor incr_combined incr_other price decline combined other];
            lia)).
  - unfold run_monte_carlo in H.
    apply mc_loop_attributed in H.
    + destruct H as [(Lp & La & Lb & Hp & Hd & Hc & Ho) L].
      cbn [mc_empty sim_profits List.length] in L. rewrite Nat.add_0_r in L.
      repeat split; try congruence.
      rewrite Hp, Hd, Hc, Ho, classes_partition.
      apply count_losing_profits; congruence.
    + unfold attributed, mc_empty. cbn. repeat split.
Qed.

Lemma attribution_exhaustive_witness :
  exists res,
    run_monte_carlo pow_whole 3 short_sims short_draws None = (Ok res, None) /\
    risk_attribution res = {| price := 1; decline := 0; combined := 1; other := 0 |} /\
    count (fun profit => ltb profit 0) (sim_profits res) = 2%nat /\
    (price (risk_attribution res) + decline (risk_attribution res)
     + combined (risk_attribution res) + other (risk_attribution res))%nat
    = count (fun profit => ltb profit 0) (sim_profits res).
Proof.
  eexists. split; [vm_compute; reflexivity|].
  split; [vm_compute; reflexivity|]. split; [vm_compute; reflexivity|].
  eapply (attribution_exhaustive pow_whole 3 short_sims short_draws None None).
  vm_compute. reflexivity.
Defined.

(* ------------------------------------------------------------------ *)
(** ** The delay transform *)

Lemma lit_one : lit 1.0 = 1.
Proof. apply Qc_is_canon. vm_compute. reflexivity. Qed.

Lemma lit_zero : lit 0.0 = 0.
Proof. apply Qc_is_canon. vm_compute. reflexivity. Qed.

Lemma shares_sum : PDP_SHARE + NON_PDP_SHARE = 1.
Proof. unfold NON_PDP_SHARE. ring. Qed.

(** Whole years and fraction of a delay strictly inside the horizon. *)
Lemma floor_in_horizon d :
  0 < d -> d < lit 10 ->
  exists w : nat,
    floor d = Z.of_nat w /\ (w <= 9)%nat /\
    0 <= d - of_Z (floor d) /\ d - of_Z (floor d) < 1.
Proof.
  intros H0 H10. unfold floor.
  pose proof (Qfloor_le d) as Hl. pose proof (Qlt_floor d) as Hu.
  assert (B : (0 <= Qfloor d <= 9)%Z).
  { to_Q. split.
    - apply Z.lt_succ_r. rewrite Zlt_Qlt. unfold Z.succ.
      eapply Qlt_trans; [|exact Hu]. exact H0.
    - apply Z.lt_succ_r. rewrite Zlt_Qlt.
      eapply Qle_lt_trans; [exact Hl|]. exact H10. }
  exists (Z.to_nat (Qfloor d)). rewrite Z2Nat.id by lia.
  split; [reflexivity|]. split; [lia|].
  rewrite inject_Z_plus in Hu. change (inject_Z 1) with 1%Q in Hu.
  split; to_Q; lra.
Qed.

Lemma floor_monotone d1 d2 : d1 <= d2 -> (floor d1 <= floor d2)%Z.
Proof. intro H. unfold floor. now apply Qfloor_resp_le. Qed.

Lemma shift_length k l : List.length l = 10%nat -> List.length (shift k l) = 10%nat.
Proof.
  intro H. unfold shift. rewrite length_firstn, length_app, repeat_length. lia.
Qed.

Lemma shift_nth k l t :
  (t < 10)%nat ->
  nth t (shift k l) 0 = if (t <? k)%nat then 0 else nth (t - k) l 0.
Proof.
  intro Ht. unfold shift. rewrite nth_firstn.
  assert (E : (t <? 10)%nat = true) by (apply Nat.ltb_lt; exact Ht).
  rewrite E. destruct (t <? k)%nat eqn:Ek.
  - apply Nat.ltb_lt in Ek. rewrite app_nth1 by (rewrite repeat_length; exact Ek).
    apply nth_repeat.
  - apply Nat.ltb_ge in Ek. rewrite app_nth2 by (rewrite repeat_length; exact Ek).
    now rewrite repeat_length.
Qed.

(** The loop body is the linear interpolation between the curve moved
    [w] and [w + 1] whole years. *)
Lemma delayed_at_interpolates non_pdp_yields w f t :
  List.length non_pdp_yields = 10%nat -> (t < 10)%nat ->
  delayed_non_pdp_at non_pdp_yields (Z.of_nat w) f t =
    (1 - f) * nth t (shift w non_pdp_yields) 0
    + f * nth t (shift (S w) non_pdp_yields) 0.
Proof.
  intros L Ht. unfold delayed_non_pdp_at. cbv zeta.
  rewrite !shift_nth by exact Ht. rewrite L, lit_one, lit_zero.
  destruct (lt_eq_lt_dec t w) as [[Hlt|Heq]|Hgt].
  - assert (E : (Z.of_nat t - Z.of_nat w <? 0)%Z = true) by (apply Z.ltb_lt; lia).
    rewrite E.
    assert (E1 : (t <? w)%nat = true) by (apply Nat.ltb_lt; lia).
    assert (E2 : (t <? S w)%nat = true) by (apply Nat.ltb_lt; lia).
    rewrite E1, E2. ring.
  - subst t.
    assert (E : (Z.of_nat w - Z.of_nat w <? 0)%Z = false) by (apply Z.ltb_ge; lia).
    assert (E0 : (Z.of_nat w - Z.of_nat w =? 0)%Z = true) by (apply Z.eqb_eq; lia).
    rewrite E, E0.
    assert (E1 : (w <? w)%nat = false) by (apply Nat.ltb_ge; lia).
    assert (E2 : (w <? S w)%nat = true) by (apply Nat.ltb_lt; lia).
    rewrite E1, E2, Nat.sub_diag. ring.
  - assert (E : (Z.of_nat t - Z.of_nat w <? 0)%Z = false) by (apply Z.ltb_ge; lia).
    assert (E0 : (Z.of_nat t - Z.of_nat w =? 0)%Z = false) by (apply Z.eqb_neq; lia).
    assert (G1 : (Z.of_nat t - Z.of_nat w <? Z.of_nat 10)%Z = true)
      by (apply Z.ltb_lt; lia).
    assert (G2 : (Z.of_nat t - Z.of_nat w - 1 <? Z.of_nat 10)%Z = true)
      by (apply Z.ltb_lt; lia).
    rewrite E, E0, G1, G2.
    assert (E1 : (t <? w)%nat = false) by (apply Nat.ltb_ge; lia).
    assert (E2 : (t <? S w)%nat = false) by (apply Nat.ltb_ge; lia).
    rewrite E1, E2.
    replace (Z.to_nat (Z.of_nat t - Z.of_nat w)) with (t - w)%nat by lia.
    replace (Z.to_nat (Z.of_nat t - Z.of_nat w - 1)) with (t - S w)%nat by lia.
    ring.
Qed.

Lemma vec_add_length u v :
  List.length u = List.length v -> List.length (vec_add u v) = List.length u.
Proof.
  revert v. induction u as [|x u IH]; intros [|y v] H; cbn [List.length] in *;
    try discriminate; cbn [vec_add List.length].
  - reflexivity.
  - f_equal. apply IH. lia.
Qed.

Lemma vec_add_nth u v t :
  List.length u = List.length v -> (t < List.length u)%nat ->
  nth t (vec_add u v) 0 = nth t u 0 + nth t v 0.
Proof.
  revert v t. induction u as [|x u IH]; intros [|y v] t H Ht;
    cbn [List.length] in *; try discriminate; try lia.
  cbn [vec_add]. destruct t as [|t]; cbn [nth]; [reflexivity|].
  apply IH; lia.
Qed.

Lemma map_scale_nth (l : list Qc) k t :
  nth t (map (fun y => y * k) l) 0 = nth t l 0 * k.
Proof.
  rewrite <- (map_nth (fun y => y * k) l 0 t). f_equal. ring.
Qed.

Lemma delayed_non_pdp_length base_yields d :
  List.length (delayed_non_pdp base_yields d) = 10%nat.
Proof. unfold delayed_non_pdp. cbv zeta. now rewrite length_map, length_seq. Qed.

Lemma delayed_non_pdp_nth base_yields d w t :
  List.length base_yields = 10%nat -> floor d = Z.of_nat w -> (t < 10)%nat ->
  let f := d - of_Z (floor d) in
  let non_pdp_yields := map (fun y => y * NON_PDP_SHARE) base_yields in
  nth t (delayed_non_pdp base_yields d) 0 =
    (1 - f) * nth t (shift w non_pdp_yields) 0
    + f * nth t (shift (S w) non_pdp_yields) 0.
Proof.
  intros L Hw Ht. cbv zeta. unfold delayed_non_pdp. cbv zeta.
  set (N := map (fun y => y * NON_PDP_SHARE) base_yields).
  set (f := d - of_Z (floor d)).
  assert (LN : List.length N = 10%nat) by (unfold N; now rewrite length_map).
  rewrite <- (delayed_at_interpolates N w f t LN Ht), <- Hw.
  rewrite (nth_indep _ 0 (delayed_non_pdp_at N (floor d) f 0%nat))
    by (rewrite length_map, length_seq; exact Ht).
  rewrite map_nth, seq_nth by exact Ht. reflexivity.
Qed.

(** The two edge branches: no delay, and a delay beyond the horizon. *)
Lemma delay_edge_cases base_yields d :
  (d <= 0 -> delay_non_pdp_yields base_yields d = base_yields) /\
  (lit 10 <= d ->
   delay_non_pdp_yields base_yields d = map (fun y => y * PDP_SHARE) base_yields).
Proof.
  unfold delay_non_pdp_yields. cbv zeta. split; intro H.
  - apply leb_le in H. now rewrite H.
  - assert (H0 : leb d 0 = false) by (apply leb_gt; qc_lra).
    apply leb_le in H. now rewrite H0, H.
Qed.

(** C4, as the code has it.  For a ten-value base curve and a delay
    strictly between 0 and 10 years, with [w] whole years and fraction
    [f], the value of year [t] of [delay_non_pdp_yields] is the unchanged
    PDP component plus the time-shifted non-PDP yield
    [(1 - f) * nonPDP[t - w] + f * nonPDP[t - w - 1]] taken as it is: no
    penalty factor divides it.  The transform worded by the
    specification coincides with it when the penalty factor is 1. *)
Theorem delay_applies_no_penalty (base_yields : list Qc) (delay_years : Qc) :
  List.length base_yields = 10%nat ->
  0 < delay_years -> delay_years < lit 10 ->
  let w := Z.to_nat (floor delay_years) in
  let f := delay_years - of_Z (floor delay_years) in
  let non_pdp_yields := map (fun y => y * NON_PDP_SHARE) base_yields in
  (w <= 9)%nat /\ 0 <= f /\ f < 1 /\
  List.length (delay_non_pdp_yields base_yields delay_years) = 10%nat /\
  (forall t, (t < 10)%nat ->
     nth t (delay_non_pdp_yields base_yields delay_years) 0 =
       nth t base_yields 0 * PDP_SHARE
       + ((1 - f) * (if (t <? w)%nat then 0 else nth (t - w) non_pdp_yields 0)
          + f * (if (t <? S w)%nat then 0 else nth (t - S w) non_pdp_yields 0))) /\
  (forall fpow capex_inflation opportunity_cost,
     penalty_factor fpow capex_inflation opportunity_cost delay_years = 1 ->
     spec_penalised_delay fpow capex_inflation opportunity_cost
       base_yields delay_years
     = delay_non_pdp_yields base_yields delay_years).
Proof.
  intros L H0 H10. cbv zeta.
  destruct (floor_in_horizon delay_years H0 H10) as (w & Hw & Hw9 & Hf0 & Hf1).
  rewrite Hw, Nat2Z.id. rewrite Hw in Hf0, Hf1.
  assert (B0 : leb delay_years 0 = false) by (apply leb_gt; exact H0).
  assert (B10 : leb (lit 10) delay_years = false) by (apply leb_gt; exact H10).
  assert (Code : delay_non_pdp_yields base_yields delay_years =
                 vec_add (map (fun y => y * PDP_SHARE) base_yields)
                         (delayed_non_pdp base_yields delay_years)).
  { unfold delay_non_pdp_yields. cbv zeta. now rewrite B0, B10. }
  repeat split; trivial.
  - rewrite Code, vec_add_length; rewrite length_map; [exact L|].
    now rewrite delayed_non_pdp_length.
  - intros t Ht. rewrite Code.
    rewrite vec_add_nth;
      [|now rewrite length_map, delayed_non_pdp_length|rewrite length_map; lia].
    rewrite map_scale_nth.
    rewrite (delayed_non_pdp_nth base_yields delay_years w t L Hw Ht). cbv zeta.
    rewrite !shift_nth by exact Ht. rewrite Hw. reflexivity.
  - intros fpow ci oc Hp. rewrite Code. unfold spec_penalised_delay. cbv zeta.
    rewrite Hp. f_equal.
    rewrite <- (map_id (delayed_non_pdp base_yields delay_years)) at 2.
    apply map_ext. intro v. field. 
    intro E. apply Qc_eq_Qeq in E. revert E. vm_compute. discriminate.
Qed.

Lemma delay_applies_no_penalty_witness :
  List.length (delay_non_pdp_yields (repeat (lit 0.186) 10) (lit 1.5)) = 10%nat.
Proof.
  refine (proj1 (proj2 (proj2 (proj2
           (delay_applies_no_penalty (repeat (lit 0.186) 10) (lit 1.5)
              eq_refl _ _))))).
  - unfold Qclt. vm_compute. reflexivity.
  - unfold Qclt. vm_compute. reflexivity.
Defined.

(** C4 as claimed fails: on the harmonic curve (b_factor = 1, Di = 0.25)
    delayed by one year, with the legacy rates 3% and 10%, the claimed
    Year-2 value divides the delayed non-PDP yield by 1.03 x 1.10; the
    code adds it undivided and returns a larger value. *)
Lemma delay_without_penalty_differs :
  exists ys,
    fst (generate_hyperbolic_yield_curve pow_whole (Some 1) (Some (lit 0.25))
           false None) = Ok ys /\
    penalty_factor pow_whole CAPEX_INFLATION_RATE OPPORTUNITY_COST_RATE (lit 1)
      = lit 1.133 /\
    nth 1 (spec_penalised_delay pow_whole CAPEX_INFLATION_RATE
             OPPORTUNITY_COST_RATE ys (lit 1)) 0
    < nth 1 (delay_non_pdp_yields ys (lit 1)) 0.
Proof.
  eexists. split; [vm_compute; reflexivity|]. split.
  - apply Qc_is_canon. vm_compute. reflexivity.
  - unfold Qclt. vm_compute. reflexivity.
Qed.

(* ------------------------------------------------------------------ *)
(** ** Delay and return *)


Lemma pow_nonzero (x : Qc) n : x <> 0 -> x ^ n <> 0.
Proof.
  intro Hx. induction n as [|n IH]; cbn [Qcpower].
  - intro E. apply Qc_eq_Qeq in E. revert E. vm_compute. discriminate.
  - intro E. apply Qcmult_integral in E as [E|E]; contradiction.
Qed.

Lemma sum_terms_discounted r t cfs acc :
  1 + r <> 0 ->
  sum_terms (fun t cf => py_div cf ((1 + r) ^ t)) t cfs acc
  = Ok (acc + py_sum (discounted r t cfs)).
Proof.
  intro Hr. revert t acc.
  induction cfs as [|cf cfs IH]; intros t acc; cbn [sum_terms discounted].
  - rewrite py_sum_nil. f_equal. ring.
  - rewrite py_div_ok by (now apply pow_nonzero). cbn [rbind].
    rewrite IH, py_sum_cons. f_equal. ring.
Qed.

Lemma calculate_npv_value cfs r :
  1 + r <> 0 -> calculate_npv cfs r = Ok (py_sum (discounted r 0 cfs)).
Proof.
  intro Hr. unfold calculate_npv. rewrite sum_terms_discounted by exact Hr.
  f_equal. ring.
Qed.

Lemma dot_nil_r u : dot u [] = 0.
Proof. destruct u; reflexivity. Qed.

Lemma dot_vec_add w A B :
  List.length A = List.length B -> dot w (vec_add A B) = dot w A + dot w B.
Proof.
  revert A B. induction w as [|x w IH]; intros [|a A] [|b B] H;
    cbn [List.length] in H; try discriminate; cbn [vec_add dot]; try ring.
  rewrite IH by lia. ring.
Qed.

Lemma dot_map_scale w A k : dot w (map (fun y => y * k) A) = dot w A * k.
Proof.
  revert A. induction w as [|x w IH]; intros [|a A]; cbn [map dot]; try ring.
  rewrite IH. ring.
Qed.

Lemma dot_firstn w n L :
  (List.length w <= n)%nat -> dot w (firstn n L) = dot w L.
Proof.
  revert n L. induction w as [|x w IH]; intros n L H; [reflexivity|].
  cbn [List.length] in H. destruct n as [|n]; [lia|].
  destruct L as [|y L]; cbn [firstn dot]; [reflexivity|].
  rewrite IH by lia. reflexivity.
Qed.

Lemma dot_zeros_app w k N : dot w (repeat 0 k ++ N) = dot (skipn k w) N.
Proof.
  revert w. induction k as [|k IH]; intro w; [reflexivity|].
  destruct w as [|x w]; cbn [repeat app skipn dot]; [reflexivity|].
  rewrite IH. ring.
Qed.

Lemma dot_shift w N k :
  List.length w = 10%nat -> dot w (shift k N) = dot (skipn k w) N.
Proof.
  intro L. unfold shift. rewrite dot_firstn by lia. apply dot_zeros_app.
Qed.

Lemma antitone_nonneg_tl c : antitone_nonneg c -> antitone_nonneg (tl c).
Proof. destruct c as [|a c]; [trivial|]. now intros [_ H]. Qed.

Lemma antitone_nonneg_skipn k c : antitone_nonneg c -> antitone_nonneg (skipn k c).
Proof.
  revert c. induction k as [|k IH]; intros c H; [exact H|].
  destruct c as [|a c]; [exact H|]. cbn [skipn]. apply IH.
  now apply (antitone_nonneg_tl (a :: c)).
Qed.

Lemma antitone_nonneg_all c : antitone_nonneg c -> Forall (fun x => 0 <= x) c.
Proof.
  induction c as [|a c IH]; intro H; [constructor|].
  destruct H as [Ha Hc]. specialize (IH Hc).
  constructor; [|exact IH].
  destruct c as [|b c]; [exact Ha|].
  inversion IH; subst. eapply Qcle_trans; eassumption.
Qed.

Lemma dot_nonneg c N :
  Forall (fun x => 0 <= x) c -> Forall (fun x => 0 <= x) N -> 0 <= dot c N.
Proof.
  intro Hc. revert N. induction Hc as [|a c Ha Hc IH]; intros N HN.
  - apply Qcle_refl.
  - destruct HN as [|n N Hn HN]; cbn [dot]; [apply Qcle_refl|].
    specialize (IH N HN). qc_nra.
Qed.

Lemma dot_tl_le c N :
  antitone_nonneg c -> Forall (fun x => 0 <= x) N -> dot (tl c) N <= dot c N.
Proof.
  revert N. induction c as [|a c IH]; intros N Hc HN; [apply Qcle_refl|].
  cbn [tl]. destruct HN as [|n N Hn HN].
  - rewrite !dot_nil_r. apply Qcle_refl.
  - destruct Hc as [Ha Hc]. cbn [dot].
    destruct c as [|b c].
    + cbn [dot]. qc_nra.
    + specialize (IH N Hc HN). cbn [tl] in IH. cbn [dot]. cbn [dot] in IH.
      pose proof (dot_nonneg (b :: c) N (antitone_nonneg_all _ Hc) HN) as P.
      cbn [dot] in P. qc_nra.
Qed.

Lemma skipn_S_tl {A} k (l : list A) : skipn (S k) l = tl (skipn k l).
Proof.
  revert l. induction k as [|k IH]; intro l.
  - destruct l; reflexivity.
  - destruct l as [|x l]; [reflexivity|]. cbn [skipn]. rewrite <- IH.
    reflexivity.
Qed.

Section ShiftedMass.

(** Non-increasing, non-negative weights and a non-negative curve. *)
Variables (w N : list Qc).
Hypothesis w_len : List.length w = 10%nat.
Hypothesis w_antitone : antitone_nonneg w.
Hypothesis N_nonneg : Forall (fun x => 0 <= x) N.

Lemma shifted_step k : dot w (shift (S k) N) <= dot w (shift k N).
Proof.
  rewrite !dot_shift by exact w_len. rewrite skipn_S_tl.
  apply dot_tl_le; [now apply antitone_nonneg_skipn|exact N_nonneg].
Qed.

Lemma shifted_antitone k1 k2 :
  (k1 <= k2)%nat -> dot w (shift k2 N) <= dot w (shift k1 N).
Proof.
  induction 1 as [|k2 H IH]; [apply Qcle_refl|].
  eapply Qcle_trans; [apply shifted_step|exact IH].
Qed.

(** The weighted mass of the interpolated shift falls as the shift grows. *)
Lemma interpolated_antitone k1 f1 k2 f2 :
  0 <= f1 -> f1 < 1 -> 0 <= f2 -> f2 < 1 ->
  (k1 < k2)%nat \/ (k1 = k2 /\ f1 <= f2) ->
  (1 - f2) * dot w (shift k2 N) + f2 * dot w (shift (S k2) N)
  <= (1 - f1) * dot w (shift k1 N) + f1 * dot w (shift (S k1) N).
Proof.
  intros A1 B1 A2 B2 [Hlt|[-> Hle]].
  - pose proof (shifted_step k1) as S1. pose proof (shifted_step k2) as S2.
    pose proof (shifted_antitone (S k1) k2 Hlt) as M.
    qc_nra.
  - pose proof (shifted_step k2) as S2. qc_nra.
Qed.

End ShiftedMass.

(** Two yield curves of one length under the same prices: their
    discounted cash flows differ by the discounted revenue only. *)
Lemma discounted_cash_flow_difference r include_ga ps :
  1 + r <> 0 ->
  forall Y Y' k t,
    List.length Y = List.length Y' ->
    py_sum (discounted r t (cash_flow_years k Y ps include_ga))
    - py_sum (discounted r t (cash_flow_years k Y' ps include_ga))
    = CO_INVEST_MM * (dot (discounted r t ps) Y - dot (discounted r t ps) Y').
Proof.
  intro Hr. induction ps as [|p ps IH]; intros Y Y' k t L.
  - destruct Y, Y'; cbn [cash_flow_years discounted dot]; rewrite ?py_sum_nil; ring.
  - destruct Y as [|y Y], Y' as [|y' Y']; cbn [List.length] in L; try discriminate.
    + cbn [cash_flow_years discounted dot]. rewrite ?py_sum_nil. ring.
    + cbn [cash_flow_years discounted dot]. rewrite !py_sum_cons.
      specialize (IH Y Y' (S k) (S t) ltac:(lia)).
      pose proof (pow_nonzero (1 + r) t Hr) as Hp.
      set (u := (1 + r) ^ t) in *.
      set (A := py_sum (discounted r (S t) (cash_flow_years (S k) Y ps include_ga))) in *.
      set (A' := py_sum (discounted r (S t) (cash_flow_years (S k) Y' ps include_ga))) in *.
      set (D := dot (discounted r (S t) ps) Y) in *.
      set (D' := dot (discounted r (S t) ps) Y') in *.
      assert (E : A = A' + CO_INVEST_MM * (D - D')) by (rewrite <- IH; ring).
      rewrite E.
      destruct include_ga; destruct (Nat.eqb k 9); field; exact Hp.
Qed.

Lemma discounted_length r t l : List.length (discounted r t l) = List.length l.
Proof.
  revert t. induction l as [|x l IH]; intro t; cbn [discounted List.length];
    [reflexivity|now rewrite IH].
Qed.

(** Discounting at a non-negative rate keeps a non-increasing,
    non-negative price path non-increasing and non-negative. *)
Lemma discounted_antitone r t ps :
  0 <= r -> antitone_nonneg ps -> antitone_nonneg (discounted r t ps).
Proof.
  intros Hr. revert t. induction ps as [|p ps IH]; intros t H; [exact I|].
  pose proof (antitone_nonneg_all _ H) as Hall.
  destruct H as [Hp Hps]. cbn [discounted antitone_nonneg].
  split; [|now apply IH].
  assert (U : 0 < (1 + r) ^ t).
  { clear -Hr. induction t as [|t IHt]; cbn [Qcpower].
    - unfold Qclt. vm_compute. reflexivity.
    - assert (P : 0 < 1 + r) by qc_lra. qc_nra. }
  assert (Unz : (1 + r) ^ t <> 0).
  { intro E. rewrite E in U. revert U. unfold Qclt. vm_compute. discriminate. }
  assert (Inv : 0 < / (1 + r) ^ t /\ (1 + r) ^ t * / (1 + r) ^ t = 1).
  { split.
    - pose proof (Qcmult_inv_r _ Unz) as M.
      destruct (Qclt_le_dec 0 (/ (1 + r) ^ t)) as [G|G]; [exact G|].
      exfalso. qc_nra.
    - now apply Qcmult_inv_r. }
  destruct Inv as [Ipos Imul].
  inversion Hall as [|? ? P0 Prest]; subst.
  destruct ps as [|p' ps].
  - cbn [discounted]. unfold Qcdiv. qc_nra.
  - cbn [discounted]. cbn [Qcpower].
    assert (V : 1 + r <> 0) by (intro E; apply Qc_eq_Qeq in E; revert E; to_Q; lra).
    assert (E : p' / ((1 + r) * (1 + r) ^ t)
                = (p' * / (1 + r) ^ t) * / (1 + r)) by (field; split; assumption).
    rewrite E. unfold Qcdiv.
    inversion Prest as [|? ? P1 _]; subst.
    assert (W : 0 < / (1 + r) /\ (1 + r) * / (1 + r) = 1).
    { split.
      - pose proof (Qcmult_inv_r _ V) as M.
        destruct (Qclt_le_dec 0 (/ (1 + r))) as [G|G]; [exact G|].
        exfalso. qc_nra.
      - now apply Qcmult_inv_r. }
    destruct W as [Wpos Wmul].
    set (a := / (1 + r) ^ t) in *. set (b := / (1 + r)) in *.
    assert (B1 : b <= 1) by qc_nra.
    assert (Q1 : 0 <= p' * a) by qc_nra.
    assert (Q2 : p' * a <= p * a) by qc_nra.
    qc_nra.
Qed.

Lemma delay_split_range d :
  0 <= snd (delay_split d) /\ snd (delay_split d) < 1.
Proof.
  unfold delay_split.
  destruct (leb d 0) eqn:E0; cbn [snd];
    [split; unfold Qcle, Qclt; vm_compute; first [reflexivity|discriminate]|].
  destruct (leb (lit 10) d) eqn:E10; cbn [snd];
    [split; unfold Qcle, Qclt; vm_compute; first [reflexivity|discriminate]|].
  apply leb_gt in E0, E10.
  destruct (floor_in_horizon d E0 E10) as (w & _ & _ & H). exact H.
Qed.

Lemma delay_split_monotone d1 d2 :
  d1 <= d2 ->
  (fst (delay_split d1) < fst (delay_split d2))%nat \/
  (fst (delay_split d1) = fst (delay_split d2) /\
   snd (delay_split d1) <= snd (delay_split d2)).
Proof.
  intro H. unfold delay_split.
  destruct (leb d1 0) eqn:A0; [apply leb_le in A0|apply leb_gt in A0].
  - destruct (leb d2 0) eqn:B0; cbn [fst snd].
    + right. split; [reflexivity|apply Qcle_refl].
    + apply leb_gt in B0.
      destruct (leb (lit 10) d2) eqn:B10; cbn [fst snd]; [left; lia|].
      apply leb_gt in B10.
      destruct (floor_in_horizon d2 B0 B10) as (w & Hw & _ & F0 & _).
      rewrite Hw, Nat2Z.id. rewrite Hw in F0.
      destruct w as [|w]; [right; split; [reflexivity|exact F0]|left; lia].
  - assert (B0 : leb d2 0 = false) by (apply leb_gt; qc_lra).
    rewrite B0.
    destruct (leb (lit 10) d1) eqn:A10;
      [apply leb_le in A10|apply leb_gt in A10].
    + assert (B10 : leb (lit 10) d2 = true) by (apply leb_le; qc_lra).
      rewrite B10. cbn [fst snd]. right. split; [reflexivity|apply Qcle_refl].
    + destruct (floor_in_horizon d1 A0 A10) as (w1 & Hw1 & W1 & _ & _).
      destruct (leb (lit 10) d2) eqn:B10; cbn [fst snd].
      * left. rewrite Hw1, Nat2Z.id. lia.
      * apply leb_gt in B10. apply leb_gt in B0.
        destruct (floor_in_horizon d2 B0 B10) as (w2 & Hw2 & W2 & _ & _).
        pose proof (floor_monotone d1 d2 H) as M.
        rewrite Hw1, Hw2, !Nat2Z.id. rewrite Hw1, Hw2 in M.
        destruct (Nat.eq_dec w1 w2) as [->|Hne]; [right|left; lia].
        split; [reflexivity|]. qc_lra.
Qed.

Lemma delay_length ys d :
  List.length ys = 10%nat -> List.length (delay_non_pdp_yields ys d) = 10%nat.
Proof.
  intro L. unfold delay_non_pdp_yields. cbv zeta.
  destruct (leb d 0); [exact L|].
  destruct (leb (lit 10) d); [now rewrite length_map|].
  rewrite vec_add_length; rewrite length_map; [exact L|].
  now rewrite delayed_non_pdp_length.
Qed.

(** The weighted sum of the transformed curve: the PDP part, plus the
    interpolated shift of the non-PDP part. *)
Lemma delay_dot w ys d :
  List.length w = 10%nat -> List.length ys = 10%nat ->
  let N := map (fun y => y * NON_PDP_SHARE) ys in
  let k := fst (delay_split d) in
  let f := snd (delay_split d) in
  dot w (delay_non_pdp_yields ys d)
  = dot w ys * PDP_SHARE
    + ((1 - f) * dot w (shift k N) + f * dot w (shift (S k) N)).
Proof.
  intros Lw Ly. cbv zeta.
  set (N := map (fun y => y * NON_PDP_SHARE) ys).
  assert (LN : List.length N = 10%nat) by (unfold N; now rewrite length_map).
  unfold delay_non_pdp_yields, delay_split. cbv zeta.
  destruct (leb d 0) eqn:E0; cbn [fst snd].
  - assert (S0 : shift 0 N = N).
    { unfold shift. cbn [repeat app]. rewrite <- LN. apply firstn_all. }
    rewrite S0. unfold N. rewrite dot_map_scale. unfold NON_PDP_SHARE. ring.
  - destruct (leb (lit 10) d) eqn:E10; cbn [fst snd].
    + rewrite dot_map_scale, dot_shift by exact Lw.
      rewrite skipn_all2 by lia. cbn [dot]. ring.
    + apply leb_gt in E0, E10.
      destruct (floor_in_horizon d E0 E10) as (k & Hk & _ & _ & _).
      rewrite Hk, Nat2Z.id.
      rewrite dot_vec_add
        by (now rewrite length_map, delayed_non_pdp_length).
      rewrite dot_map_scale. f_equal.
      set (f := d - of_Z (Z.of_nat k)).
      assert (E : delayed_non_pdp ys d =
                  vec_add (map (fun y => y * (1 - f)) (shift k N))
                          (map (fun y => y * f) (shift (S k) N))).
      { apply (nth_ext _ _ 0 0).
        - rewrite delayed_non_pdp_length, vec_add_length;
            rewrite !length_map, !shift_length by exact LN; reflexivity.
        - rewrite delayed_non_pdp_length. intros t Ht.
          rewrite (delayed_non_pdp_nth ys d k t Ly Hk Ht). cbv zeta.
          rewrite vec_add_nth;
            [|rewrite !length_map, !shift_length by exact LN; reflexivity
             |rewrite length_map, shift_length by exact LN; exact Ht].
          rewrite !map_scale_nth. rewrite Hk. fold N. fold f. ring. }
      rewrite E, dot_vec_add
        by (rewrite !length_map, !shift_length by exact LN; reflexivity).
      rewrite !dot_map_scale. ring.
Qed.

Lemma non_pdp_nonneg ys :
  Forall (fun y => 0 <= y) ys ->
  Forall (fun y => 0 <= y) (map (fun y => y * NON_PDP_SHARE) ys).
Proof.
  intro H. apply Forall_map. revert H. apply Forall_impl. intros y Hy.
  assert (S : 0 <= NON_PDP_SHARE) by (unfold Qcle; vm_compute; discriminate).
  qc_nra.
Qed.

(** In exact arithmetic the net present value at a rate [r >= 0] never
    rises with the delay: the interpolated shift lowers every discounted
    sum whose weights are non-negative and non-increasing.  The binary64
    sums of the code can differ in their last digits, so two values that
    are equal here may come out in either order there: the statement on
    the code, at the end of this part, carries a tolerance. *)
Lemma exact_npv_non_increasing_in_delay
    (base_yields price_factors_by_year : list Qc) (include_ga : bool)
    (r d1 d2 : Qc) :
  List.length base_yields = 10%nat ->
  List.length price_factors_by_year = 10%nat ->
  Forall (fun y => 0 <= y) base_yields ->
  antitone_nonneg price_factors_by_year ->
  0 <= r ->
  d1 <= d2 ->
  exists v1 v2,
    calculate_npv
      (build_cash_flows (delay_non_pdp_yields base_yields d1)
         price_factors_by_year include_ga) r = Ok v1 /\
    calculate_npv
      (build_cash_flows (delay_non_pdp_yields base_yields d2)
         price_factors_by_year include_ga) r = Ok v2 /\
    v2 <= v1.
Proof.
  intros Ly Lp Hy Hp Hr Hd.
  assert (V : 1 + r <> 0) by (intro E; apply Qc_eq_Qeq in E; revert E; to_Q; lra).
  eexists. eexists.
  split; [apply calculate_npv_value; exact V|].
  split; [apply calculate_npv_value; exact V|].
  unfold build_cash_flows. cbn [discounted]. rewrite !py_sum_cons.
  set (w := discounted r 1 price_factors_by_year).
  assert (Lw : List.length w = 10%nat)
    by (unfold w; now rewrite discounted_length).
  assert (Aw : antitone_nonneg w) by (unfold w; now apply discounted_antitone).
  pose proof (discounted_cash_flow_difference r include_ga price_factors_by_year V
                (delay_non_pdp_yields base_yields d1)
                (delay_non_pdp_yields base_yields d2) 0%nat 1%nat
                ltac:(now rewrite !delay_length)) as D.
  fold w in D. rewrite !(delay_dot w base_yields) in D by assumption.
  cbv zeta in D.
  set (N := map (fun y => y * NON_PDP_SHARE) base_yields) in *.
  pose proof (non_pdp_nonneg base_yields Hy) as HN. fold N in HN.
  destruct (delay_split_range d1) as [A1 B1].
  destruct (delay_split_range d2) as [A2 B2].
  pose proof (interpolated_antitone w N Lw Aw HN _ _ _ _ A1 B1 A2 B2
                (delay_split_monotone d1 d2 Hd)) as M.
  assert (C : 0 <= CO_INVEST_MM) by (unfold Qcle; vm_compute; discriminate).
  set (G1 := (1 - snd (delay_split d1)) * dot w (shift (fst (delay_split d1)) N)
             + snd (delay_split d1) * dot w (shift (S (fst (delay_split d1))) N)) in *.
  set (G2 := (1 - snd (delay_split d2)) * dot w (shift (fst (delay_split d2)) N)
             + snd (delay_split d2) * dot w (shift (S (fst (delay_split d2))) N)) in *.
  set (X1 := py_sum (discounted r 1
               (cash_flow_years 0 (delay_non_pdp_yields base_yields d1)
                  price_factors_by_year include_ga))) in *.
  set (X2 := py_sum (discounted r 1
               (cash_flow_years 0 (delay_non_pdp_yields base_yields d2)
                  price_factors_by_year include_ga))) in *.
  set (P := dot w base_yields * PDP_SHARE) in *.
  set (c0 := - CO_INVEST_MM / (1 + r) ^ 0).
  qc_nra.
Qed.


(* ------------------------------------------------------------------ *)
(** ** Enclosing the Newton-Raphson iterates *)

Lemma sum_terms_derivative r t cfs acc :
  1 + r <> 0 ->
  sum_terms (fun t cf => py_div (- of_nat t * cf) ((1 + r) ^ (t + 1))) t cfs acc
  = Ok (acc + py_sum (derivative_terms r t cfs)).
Proof.
  intro Hr. revert t acc.
  induction cfs as [|cf cfs IH]; intros t acc; cbn [sum_terms derivative_terms].
  - rewrite py_sum_nil. f_equal. ring.
  - rewrite py_div_ok by now apply pow_nonzero.
    cbn [rbind]. rewrite IH, py_sum_cons. f_equal. ring.
Qed.

Lemma npv_derivative_value r cfs :
  1 + r <> 0 -> npv_derivative r cfs = Ok (py_sum (derivative_terms r 0 cfs)).
Proof.
  intro Hr. unfold npv_derivative. rewrite sum_terms_derivative by exact Hr.
  f_equal. ring.
Qed.

Lemma npv_value r cfs :
  1 + r <> 0 -> npv r cfs = Ok (py_sum (discounted r 0 cfs)).
Proof.
  intro Hr. unfold npv. rewrite sum_terms_discounted by exact Hr.
  f_equal. ring.
Qed.

Lemma pow_pos (x : Qc) n : 0 < x -> 0 < x ^ n.
Proof.
  intro H. induction n as [|n IH]; cbn [Qcpower].
  - unfold Qclt. vm_compute. reflexivity.
  - qc_nra.
Qed.

Lemma rounding_scale_pos : 0 < rounding_scale.
Proof. unfold Qclt. vm_compute. reflexivity. Qed.

Lemma of_Z_floor_le (y : Qc) : of_Z (floor y) <= y.
Proof.
  unfold of_Z, floor, Qcle. rewrite this_Q2Qc. apply Qfloor_le.
Qed.

Lemma round_down_le x : round_down x <= x.
Proof.
  unfold round_down. pose proof rounding_scale_pos as P.
  pose proof (of_Z_floor_le (x * rounding_scale)) as F.
  assert (N : rounding_scale <> 0) by (intro E; rewrite E in P; revert P; qc_eval).
  assert (E : of_Z (floor (x * rounding_scale)) / rounding_scale * rounding_scale
              = of_Z (floor (x * rounding_scale))) by (field; exact N).
  revert E F P.
  generalize (of_Z (floor (x * rounding_scale)) / rounding_scale) as d,
             (of_Z (floor (x * rounding_scale))) as z, rounding_scale as s.
  intros d z s E F P. qc_nra.
Qed.

Lemma round_up_ge x : x <= round_up x.
Proof.
  unfold round_up. pose proof (round_down_le (- x)) as H. qc_lra.
Qed.

Lemma round_down_nonneg x : 0 <= x -> 0 <= round_down x.
Proof.
  intro H. unfold round_down. pose proof rounding_scale_pos as P.
  assert (N : rounding_scale <> 0) by (intro E; rewrite E in P; revert P; qc_eval).
  assert (Z0 : 0 <= of_Z (floor (x * rounding_scale))).
  { assert (X : 0 <= x * rounding_scale) by qc_nra.
    unfold Qcle in X. apply Qfloor_resp_le in X.
    change (Qfloor (this 0)) with 0%Z in X.
    unfold of_Z, floor, Qcle. rewrite !this_Q2Qc.
    unfold Qle, inject_Z. cbn [Qnum Qden]. lia. }
  assert (E : of_Z (floor (x * rounding_scale)) / rounding_scale * rounding_scale
              = of_Z (floor (x * rounding_scale))) by (field; exact N).
  revert E Z0 P.
  generalize (of_Z (floor (x * rounding_scale)) / rounding_scale) as d,
             (of_Z (floor (x * rounding_scale))) as z, rounding_scale as s.
  intros d z s E Z0 P. qc_nra.
Qed.

(** The rounded bounds enclose the sum. *)
Lemma series_enclosed xl xh x coeffs :
  0 < xl -> xl <= x -> x <= xh ->
  forall pl ph p,
    0 <= pl -> pl <= p -> p <= ph ->
    series_lower xl xh pl ph coeffs <= series x p coeffs /\
    series x p coeffs <= series_upper xl xh pl ph coeffs.
Proof.
  intros X0 X1 X2.
  induction coeffs as [|c coeffs IH]; intros pl ph p P0 P1 P2;
    cbn [series_lower series_upper series].
  - split; apply Qcle_refl.
  - destruct (IH (round_down (pl * xl)) (round_up (ph * xh)) (p * x)) as [I1 I2].
    + apply round_down_nonneg. qc_nra.
    + eapply Qcle_trans; [apply round_down_le|]. qc_nra.
    + eapply Qcle_trans; [|apply round_up_ge]. qc_nra.
    + assert (T : (if leb 0 c then c * pl else c * ph) <= c * p /\
                  c * p <= (if leb 0 c then c * ph else c * pl)).
      { destruct (leb 0 c) eqn:E; [apply leb_le in E|apply leb_gt in E];
          split; qc_nra. }
      destruct T as [T1 T2].
      pose proof (round_down_le (if leb 0 c then c * pl else c * ph)) as R1.
      pose proof (round_up_ge (if leb 0 c then c * ph else c * pl)) as R2.
      split; apply Qcplus_le_compat; trivial; eapply Qcle_trans; eassumption.
Qed.

Lemma inv_pow (y : Qc) n : / (y ^ n) = (/ y) ^ n.
Proof.
  induction n as [|n IH]; cbn [Qcpower].
  - apply Qc_is_canon. reflexivity.
  - now rewrite Qcinv_mult_distr, IH.
Qed.

Lemma discounted_series r t cfs :
  py_sum (discounted r t cfs) = series (/ (1 + r)) ((/ (1 + r)) ^ t) cfs.
Proof.
  revert t. induction cfs as [|cf cfs IH]; intro t; cbn [discounted series].
  - apply py_sum_nil.
  - rewrite py_sum_cons, IH. unfold Qcdiv. rewrite inv_pow.
    cbn [Qcpower]. f_equal. f_equal. ring.
Qed.

Lemma derivative_terms_series r t cfs :
  py_sum (derivative_terms r t cfs)
  = series (/ (1 + r)) ((/ (1 + r)) ^ (t + 1)) (derivative_coeffs t cfs).
Proof.
  revert t. induction cfs as [|cf cfs IH]; intro t;
    cbn [derivative_terms derivative_coeffs series].
  - apply py_sum_nil.
  - rewrite py_sum_cons, IH. unfold Qcdiv. rewrite inv_pow.
    replace (S t + 1)%nat with (S (t + 1)) by lia.
    cbn [Qcpower]. f_equal. f_equal. ring.
Qed.

(** One pass of the loop from a rate of an enclosure that passes the
    checks: the step and the next rate. *)
Lemma newton_pass_enclosed a b q_lo q_hi a' b' cfs rate :
  newton_enclosure a b q_lo q_hi a' b' cfs = true ->
  a <= rate -> rate <= b ->
  exists f f_prime,
    npv rate cfs = Ok f /\
    npv_derivative rate cfs = Ok f_prime /\
    ltb (Qcabs f_prime) (lit 1e-10) = false /\
    py_div f f_prime = Ok (f / f_prime) /\
    q_lo <= f / f_prime /\ f / f_prime <= q_hi /\
    a' <= rate - f / f_prime /\ rate - f / f_prime <= b'.
Proof.
  unfold newton_enclosure. cbv zeta.
  rewrite !andb_true_iff, !leb_le, !ltb_lt.
  intros (((((((((Ha & Hab) & Hx) & Hg) & Q1) & Q2) & Q3) & Q4) & A') & B')
         Har Hrb.
  assert (V : 1 + rate <> 0).
  { intro E. apply Qc_eq_Qeq in E. revert E. to_Q. lra. }
  assert (X : round_down (1 / (1 + b)) <= / (1 + rate) /\
              / (1 + rate) <= round_up (1 / (1 + a))).
  { assert (Pa : 0 < 1 + a) by qc_lra.
    assert (Pr : 0 < 1 + rate) by qc_lra.
    assert (Pb : 0 < 1 + b) by qc_lra.
    assert (Na : 1 + a <> 0) by (intro E; rewrite E in Pa; revert Pa; qc_eval).
    assert (Nb : 1 + b <> 0) by (intro E; rewrite E in Pb; revert Pb; qc_eval).
    pose proof (round_down_le (1 / (1 + b))) as R1.
    pose proof (round_up_ge (1 / (1 + a))) as R2.
    assert (Ea : 1 / (1 + a) * (1 + a) = 1) by (field; exact Na).
    assert (Eb : 1 / (1 + b) * (1 + b) = 1) by (field; exact Nb).
    assert (Er : / (1 + rate) * (1 + rate) = 1) by (field; exact V).
    revert R1 R2 Ea Eb Er.
    generalize (round_down (1 / (1 + b))) as xl, (round_up (1 / (1 + a))) as xh,
               (1 / (1 + a)) as ia, (1 / (1 + b)) as ib, (/ (1 + rate)) as x.
    intros xl xh ia ib x R1 R2 Ea Eb Er.
    assert (0 < ia) by qc_nra. assert (0 < ib) by qc_nra. assert (0 < x) by qc_nra.
    split.
    - apply Qcle_trans with ib; [exact R1|].
      apply Qcnot_lt_le. intro C. qc_nra.
    - apply Qcle_trans with ia; [|exact R2].
      apply Qcnot_lt_le. intro C. qc_nra. }
  destruct X as [X1 X2].
  assert (One : 0 <= 1 /\ 1 <= 1) by (split; unfold Qcle; vm_compute; discriminate).
  destruct (series_enclosed _ _ _ cfs Hx X1 X2 1 1 1 (proj1 One) (proj2 One)
              (proj2 One)) as [F1 F2].
  assert (Xp : 0 <= round_down (1 / (1 + b))) by (apply Qclt_le_weak; exact Hx).
  destruct (series_enclosed _ _ _ (derivative_coeffs 0 cfs) Hx X1 X2 _ _ _
              Xp X1 X2) as [G1 G2].
  exists (py_sum (discounted rate 0 cfs)), (py_sum (derivative_terms rate 0 cfs)).
  split; [now apply npv_value|]. split; [now apply npv_derivative_value|].
  rewrite discounted_series, derivative_terms_series.
  cbn [Qcpower Nat.add].
  replace (/ (1 + rate) * 1) with (/ (1 + rate)) by ring.
  revert F1 F2 G1 G2 Hg Q1 Q2 Q3 Q4 A' B'.
  generalize (series (/ (1 + rate)) 1 cfs) as f,
             (series (/ (1 + rate)) (/ (1 + rate)) (derivative_coeffs 0 cfs)) as g,
             (series_lower (round_down (1 / (1 + b))) (round_up (1 / (1 + a))) 1 1 cfs)
               as f_lo,
             (series_upper (round_down (1 / (1 + b))) (round_up (1 / (1 + a))) 1 1 cfs)
               as f_hi,
             (series_lower (round_down (1 / (1 + b))) (round_up (1 / (1 + a)))
                (round_down (1 / (1 + b))) (round_up (1 / (1 + a)))
                (derivative_coeffs 0 cfs)) as g_lo,
             (series_upper (round_down (1 / (1 + b))) (round_up (1 / (1 + a)))
                (round_down (1 / (1 + b))) (round_up (1 / (1 + a)))
                (derivative_coeffs 0 cfs)) as g_hi.
  intros f g f_lo f_hi g_lo g_hi F1 F2 G1 G2 Hg Q1 Q2 Q3 Q4 A' B'.
  assert (T : 0 < lit 1e-10) by (unfold Qclt; vm_compute; reflexivity).
  assert (Gn : g < 0) by qc_lra.
  assert (Nz : g <> 0) by (intros ->; revert Gn; qc_eval).
  split.
  { apply ltb_ge. rewrite Qcabs_neg by (apply Qclt_le_weak; exact Gn). qc_lra. }
  split; [now apply py_div_ok|].
  assert (E : f / g * g = f) by (field; exact Nz).
  revert E. generalize (f / g) as q. intros q E.
  assert (L : q_lo <= q).
  { destruct (Qclt_le_dec q_lo 0) as [N|P].
    - assert (q_lo * g_hi <= q_lo * g) by qc_nra. qc_nra.
    - assert (q_lo * g_lo <= q_lo * g) by qc_nra. qc_nra. }
  assert (U : q <= q_hi).
  { destruct (Qclt_le_dec q_hi 0) as [N|P].
    - assert (q_hi * g <= q_hi * g_lo) by qc_nra. qc_nra.
    - assert (q_hi * g <= q_hi * g_hi) by qc_nra. qc_nra. }
  repeat split; trivial; qc_lra.
Qed.

(** A certificate that checks describes the run. *)
Lemma newton_certified_run cert cfs tolerance lo hi :
  0 < tolerance ->
  forall n a b rate,
    newton_certified cert a b cfs tolerance = Some (lo, hi) ->
    (List.length cert <= n)%nat ->
    a <= rate -> rate <= b ->
    exists r, newton n rate cfs tolerance = Ok (Converged r) /\ lo <= r /\ r <= hi.
Proof.
  intro Tol. induction cert as [|[[[q_lo q_hi] a'] b'] rest IH];
    intros n a b rate H Hn Har Hrb; cbn [newton_certified] in H; [discriminate|].
  destruct (newton_enclosure a b q_lo q_hi a' b' cfs) eqn:E; [|discriminate].
  destruct n as [|n]; [cbn [List.length] in Hn; lia|].
  destruct (newton_pass_enclosed _ _ _ _ _ _ _ rate E Har Hrb)
    as (f & g & Ef & Eg & Guard & Ed & L & U & A' & B').
  cbn [newton]. rewrite Ef, Eg. cbn [rbind]. rewrite Guard, Ed. cbn [rbind].
  replace (rate - f / g - rate) with (- (f / g)) by ring. rewrite Qcabs_opp.
  destruct (leb tolerance q_lo || leb q_hi (- tolerance)) eqn:C.
  - assert (S : ltb (Qcabs (f / g)) tolerance = false).
    { apply ltb_ge. apply orb_true_iff in C as [C|C]; apply leb_le in C.
      - rewrite Qcabs_pos by qc_lra. qc_lra.
      - rewrite Qcabs_neg by qc_lra. qc_lra. }
    rewrite S. apply (IH n a' b'); trivial. cbn [List.length] in Hn. lia.
  - destruct (ltb (- tolerance) q_lo && ltb q_hi tolerance) eqn:D; [|discriminate].
    destruct rest; [|discriminate]. inversion H; subst lo hi.
    apply andb_true_iff in D as [D1 D2]. apply ltb_lt in D1, D2.
    assert (S : ltb (Qcabs (f / g)) tolerance = true).
    { apply ltb_lt. destruct (Qclt_le_dec (f / g) 0) as [N|P].
      - rewrite Qcabs_neg by (apply Qclt_le_weak; exact N). qc_lra.
      - rewrite Qcabs_pos by exact P. qc_lra. }
    rewrite S. eexists. split; [reflexivity|]. split; assumption.
Qed.

Lemma calculate_irr_certified cert cfs lo hi :
  newton_certified cert (lit 0.10) (lit 0.10) cfs (lit 1e-8) = Some (lo, hi) ->
  (List.length cert <= 100)%nat ->
  exists r, calculate_irr cfs = Ok (Some r) /\ lo <= r /\ r <= hi.
Proof.
  intros H L.
  destruct (newton_certified_run cert cfs (lit 1e-8) lo hi
              ltac:(unfold Qclt; vm_compute; reflexivity)
              100%nat (lit 0.10) (lit 0.10) (lit 0.10) H L
              (Qcle_refl _) (Qcle_refl _)) as (r & E & B).
  exists r. split; [|exact B].
  unfold calculate_irr, calculate_irr_with. now rewrite E.
Qed.

Lemma calculate_irr_within cert cfs lo hi :
  certified_within cert cfs lo hi = true ->
  (List.length cert <= 100)%nat ->
  exists r, calculate_irr cfs = Ok (Some r) /\ lo < r /\ r < hi.
Proof.
  unfold certified_within. intros H L.
  destruct (newton_certified cert (lit 0.10) (lit 0.10) cfs (lit 1e-8))
    as [[a b]|] eqn:E; [|discriminate].
  apply andb_true_iff in H as [H1 H2]. apply ltb_lt in H1, H2.
  destruct (calculate_irr_certified cert cfs a b E L) as (r & Er & Lr & Ur).
  exists r. split; [exact Er|]. split; qc_lra.
Qed.

(** On a flat price path the claimed monotonicity fails as well, once
    the return is negative.  Harmonic curve (b_factor = 1, Di = 0.25),
    price factor 0.3 in every year: the rate that [calculate_irr]
    returns after eleven passes is about -12.6916% without delay and
    about -12.6599% with the non-PDP yields delayed by a quarter of a
    year.  At a negative rate later cash counts for more, so moving
    yield to later years raises the rate at which the value vanishes. *)
Lemma irr_rises_with_delay_on_flat_path :
  exists ys r0 r1,
    fst (generate_hyperbolic_yield_curve pow_whole (Some 1) (Some (lit 0.25))
           false None) = Ok ys /\
    calculate_irr (build_cash_flows (delay_non_pdp_yields ys 0) flat_low_path true)
      = Ok (Some r0) /\
    calculate_irr
      (build_cash_flows (delay_non_pdp_yields ys (lit 0.25)) flat_low_path true)
      = Ok (Some r1) /\
    r0 < r1 /\
    lit (-0.126916) < r0 /\ r0 < lit (-0.126915) /\
    lit (-0.126599) < r1 /\ r1 < lit (-0.126598).
Proof.
  destruct (calculate_irr_within flat_certificate_undelayed
              (build_cash_flows (delay_non_pdp_yields harmonic_yields 0)
                 flat_low_path true)
              (lit (-0.126916)) (lit (-0.126915)))
    as (r0 & E0 & L0 & U0);
    [vm_compute; reflexivity|apply Nat.leb_le; vm_compute; reflexivity|].
  destruct (calculate_irr_within flat_certificate_delayed
              (build_cash_flows (delay_non_pdp_yields harmonic_yields (lit 0.25))
                 flat_low_path true)
              (lit (-0.126599)) (lit (-0.126598)))
    as (r1 & E1 & L1 & U1);
    [vm_compute; reflexivity|apply Nat.leb_le; vm_compute; reflexivity|].
  exists harmonic_yields, r0, r1.
  split; [vm_compute; reflexivity|].
  split; [exact E0|]. split; [exact E1|].
  split; [|repeat split; assumption].
  apply Qclt_trans with (lit (-0.126915)); [exact U0|].
  apply Qclt_trans with (lit (-0.126599)); [|exact L1].
  unfold Qclt. vm_compute. reflexivity.
Qed.



(* ================================================================== *)
(** * Part III: further properties of the embedded code *)

(* ------------------------------------------------------------------ *)
(** ** More arithmetic and list basics *)

Lemma of_nat_S n : of_nat (S n) = of_nat n + 1.
Proof.
  unfold of_nat, of_Z. apply Qc_is_canon.
  rewrite Nat2Z.inj_succ, <- Z.add_1_r, inject_Z_plus.
  unfold Qcplus. rewrite !this_Q2Qc. reflexivity.
Qed.

Lemma of_nat_0 : of_nat 0 = 0.
Proof. apply Qc_is_canon. reflexivity. Qed.

Lemma of_nat_nonneg n : 0 <= of_nat n.
Proof.
  induction n as [|n IH]; [rewrite of_nat_0; apply Qcle_refl|].
  rewrite of_nat_S. qc_lra.
Qed.

Lemma Qcabs_zero_iff (x : Qc) : Qcabs x = 0 <-> x = 0.
Proof.
  split; intro H.
  - destruct (Qc_eq_dec x 0) as [E|N]; [exact E|exfalso].
    destruct (Qclt_le_dec x 0) as [L|G].
    + rewrite (Qcabs_neg x) in H by (apply Qclt_le_weak; exact L). qc_lra.
    + rewrite (Qcabs_pos x G) in H. contradiction.
  - subst x. apply Qcabs_pos. apply Qcle_refl.
Qed.

Lemma py_min_le_r a b : py_min a b <= b.
Proof.
  unfold py_min. destruct (ltb b a) eqn:E.
  - apply Qcle_refl.
  - now apply ltb_ge.
Qed.


Lemma clip_bounds x lo hi : lo <= hi -> lo <= clip x lo hi /\ clip x lo hi <= hi.
Proof.
  intro H. unfold clip. split; [|apply py_min_le_r].
  unfold py_min. destruct (ltb hi (py_max x lo)); [exact H|apply py_max_ge_r].
Qed.

Lemma clip_inside x lo hi : lo <= x -> x <= hi -> clip x lo hi = x.
Proof.
  intros L H. unfold clip, py_max, py_min.
  destruct (ltb x lo) eqn:E1.
  - apply ltb_lt in E1. exfalso. exact (Qcle_not_lt _ _ L E1).
  - destruct (ltb hi x) eqn:E2; [|reflexivity].
    apply ltb_lt in E2. exfalso. exact (Qcle_not_lt _ _ H E2).
Qed.


Lemma py_sum_le u v : Forall2 Qcle u v -> py_sum u <= py_sum v.
Proof.
  induction 1 as [|x y u v Hxy _ IH]; [apply Qcle_refl|].
  rewrite !py_sum_cons. qc_lra.
Qed.

Lemma py_sum_repeat x n : py_sum (repeat x n) = of_nat n * x.
Proof.
  induction n as [|n IH]; cbn [repeat].
  - rewrite py_sum_nil, of_nat_0. ring.
  - rewrite py_sum_cons, IH, of_nat_S. ring.
Qed.


(** A loop whose body never raises builds the mapped list. *)
Lemma for_each_ok {A B} (body : A -> result B) (g : A -> B) l :
  (forall a, In a l -> body a = Ok (g a)) -> for_each body l = Ok (map g l).
Proof.
  induction l as [|a l IH]; intro H; [reflexivity|].
  cbn [for_each map]. rewrite (H a (or_introl eq_refl)). cbn [rbind].
  rewrite IH by (intros b Hb; apply H; now right). reflexivity.
Qed.

(** A loop whose body raises on [x], after passes that all return. *)
Lemma for_each_raise {A B} (body : A -> result B) pre x post e :
  (forall a, In a pre -> exists b, body a = Ok b) ->
  body x = Raise e ->
  for_each body (pre ++ x :: post) = Raise e.
Proof.
  intros Hpre Hx. induction pre as [|a pre IH]; cbn [app for_each].
  - now rewrite Hx.
  - destruct (Hpre a (or_introl eq_refl)) as [b Hb]. rewrite Hb. cbn [rbind].
    rewrite IH by (intros c Hc; apply Hpre; now right). reflexivity.
Qed.

(* ------------------------------------------------------------------ *)
(** ** Return on investment, net present value, terminal value *)

Lemma co_invest_pos : 0 < CO_INVEST_MM.
Proof. unfold Qclt. vm_compute. reflexivity. Qed.

(** X1.  [calculate_roi] on a list of Python floats: it raises
    [IndexError] exactly on the empty list and [ZeroDivisionError]
    exactly when the first cash flow is zero; otherwise it returns the
    sum of the later cash flows over the absolute value of the first. *)
Theorem calculate_roi_errors (cfs : list Qc) :
  (calculate_roi cfs = Raise IndexError <-> cfs = []) /\
  (calculate_roi cfs = Raise ZeroDivisionError <-> exists rest, cfs = 0 :: rest) /\
  (forall roi,
     calculate_roi cfs = Ok roi <->
     exists c0 rest, cfs = c0 :: rest /\ c0 <> 0 /\ roi = py_sum rest / Qcabs c0).
Proof.
  unfold calculate_roi. destruct cfs as [|c0 rest]; cbn [py_index nth_error rbind tl].
  - split; [tauto|]. split.
    + split; [discriminate|]. intros [r E]. discriminate E.
    + intro roi. split; [discriminate|]. intros (c & r & E & _). discriminate E.
  - destruct (Qc_eq_dec c0 0) as [->|N].
    + replace (Qcabs 0) with 0 by (symmetry; now apply Qcabs_zero_iff).
      rewrite py_div_zero. split; [split; discriminate|]. split.
      * split; [|reflexivity]. intros _. now exists rest.
      * intro roi. split; [discriminate|].
        intros (c & r & E & Hc & _). inversion E; subst. now contradiction Hc.
    + assert (A : Qcabs c0 <> 0) by (intro E; apply N; apply Qcabs_zero_iff; exact E).
      rewrite (py_div_ok _ _ A). split; [split; discriminate|]. split.
      * split; [discriminate|]. intros [r E]. inversion E; subst.
        now contradiction N.
      * intro roi. split.
        -- intro E. inversion E; subst. now exists c0, rest.
        -- intros (c & r & E & _ & ->). inversion E; subst. reflexivity.
Qed.

Lemma discounted_zero_rate t l : discounted 0 t l = l.
Proof.
  revert t. induction l as [|x l IH]; intro t; cbn [discounted]; [reflexivity|].
  rewrite IH. f_equal. replace (1 + 0) with 1 by ring.
  rewrite Qcpower_1. field. discriminate.
Qed.

(** X2.  [calculate_npv] at its edges: at a discount rate of zero it
    returns the plain sum of the cash flows; at a rate of -100% it
    returns 0 on the empty series and the cash flow itself on a series
    of one (the zero discount factor is raised to the power 0), and it
    raises [ZeroDivisionError] as soon as the series has a second
    entry. *)
Theorem calculate_npv_edge_cases :
  (forall cfs, calculate_npv cfs 0 = Ok (py_sum cfs)) /\
  (calculate_npv [] (- lit 1.0) = Ok 0) /\
  (forall c0, calculate_npv (c0 :: nil) (- lit 1.0) = Ok c0) /\
  (forall c0 c1 rest,
     calculate_npv (c0 :: c1 :: rest) (- lit 1.0) = Raise ZeroDivisionError).
Proof.
  split; [|split; [|split]].
  - intro cfs. rewrite calculate_npv_value.
    + now rewrite discounted_zero_rate.
    + replace (1 + 0) with 1 by ring. discriminate.
  - reflexivity.
  - intro c0. unfold calculate_npv. cbn [sum_terms Qcpower].
    rewrite py_div_ok by discriminate. cbn [rbind]. f_equal. field. discriminate.
  - intros c0 c1 rest. unfold calculate_npv. cbn [sum_terms Qcpower].
    rewrite py_div_ok by discriminate. cbn [rbind].
    replace ((1 + - lit 1.0) * 1) with 0 by (apply Qc_is_canon; reflexivity).
    rewrite py_div_zero. reflexivity.
Qed.

Lemma nav_multiple_range x :
  lit 0.60 <= nav_multiple x /\ nav_multiple x <= lit 0.95.
Proof.
  unfold nav_multiple.
  destruct (leb (lit 0.9) x); [|destruct (leb (lit 0.7) x);
    [|destruct (leb (lit 0.5) x)]];
  split; unfold Qcle; vm_compute; discriminate.
Qed.

Lemma mult_nonneg (a b : Qc) : 0 <= a -> 0 <= b -> 0 <= a * b.
Proof. intros. qc_nra. Qed.

Lemma mult_le_mono (a b c d : Qc) :
  0 <= a -> a <= b -> 0 <= c -> c <= d -> a * c <= b * d.
Proof. intros. qc_nra. Qed.

Lemma total_nav_pos : 0 < TOTAL_NAV_MM.
Proof. unfold Qclt. vm_compute. reflexivity. Qed.

Lemma co_invest_share_pos : 0 < CO_INVEST_SHARE.
Proof. unfold Qclt. vm_compute. reflexivity. Qed.

Lemma terminal_value_product p pct :
  estimate_terminal_value p pct
  = TOTAL_NAV_MM * CO_INVEST_SHARE * reserves_pct pct * (p * nav_multiple p).
Proof. unfold estimate_terminal_value, reserves_pct. destruct pct; ring. Qed.

Lemma terminal_value_le p1 p2 pct :
  0 <= p1 -> p1 <= p2 -> 0 <= reserves_pct pct ->
  estimate_terminal_value p1 pct <= estimate_terminal_value p2 pct.
Proof.
  intros H1 H12 Hr. rewrite !terminal_value_product.
  pose proof total_nav_pos as N. pose proof co_invest_share_pos as S.
  apply mult_le_mono.
  - apply mult_nonneg; [|exact Hr].
    apply mult_nonneg; now apply Qclt_le_weak.
  - apply Qcle_refl.
  - apply mult_nonneg; [exact H1|].
    destruct (nav_multiple_range p1) as [L _]. qc_lra.
  - apply mult_le_mono; [exact H1|exact H12| |now apply nav_multiple_monotone].
    destruct (nav_multiple_range p1) as [L _]. qc_lra.
Qed.

Lemma terminal_value_nonneg p pct :
  0 <= p -> 0 <= reserves_pct pct -> 0 <= estimate_terminal_value p pct.
Proof.
  intros Hp Hr. rewrite terminal_value_product.
  pose proof total_nav_pos as N. pose proof co_invest_share_pos as S.
  apply mult_nonneg.
  - apply mult_nonneg; [|exact Hr].
    apply mult_nonneg; now apply Qclt_le_weak.
  - apply mult_nonneg; [exact Hp|].
    destruct (nav_multiple_range p) as [L _]. qc_lra.
Qed.

(** X3.  [estimate_terminal_value] is non-negative and monotone in the
    Year-10 price factor, although the exit multiple is a step function
    of it, and never exceeds the value at the top multiple 0.95. *)
Theorem terminal_value_monotone
    (p1 p2 : Qc) (remaining_reserves_pct : option Qc) :
  0 <= p1 -> p1 <= p2 -> 0 <= reserves_pct remaining_reserves_pct ->
  0 <= estimate_terminal_value p1 remaining_reserves_pct /\
  estimate_terminal_value p1 remaining_reserves_pct
    <= estimate_terminal_value p2 remaining_reserves_pct /\
  estimate_terminal_value p2 remaining_reserves_pct
    <= TOTAL_NAV_MM * reserves_pct remaining_reserves_pct * p2 * lit 0.95
       * CO_INVEST_SHARE.
Proof.
  intros H1 H12 Hr. split; [now apply terminal_value_nonneg|].
  split; [now apply terminal_value_le|].
  rewrite terminal_value_product.
  pose proof total_nav_pos as N. pose proof co_invest_share_pos as S.
  replace (TOTAL_NAV_MM * reserves_pct remaining_reserves_pct * p2 * lit 0.95
           * CO_INVEST_SHARE)
    with (TOTAL_NAV_MM * CO_INVEST_SHARE * reserves_pct remaining_reserves_pct
          * (p2 * lit 0.95)) by ring.
  assert (P2 : 0 <= p2) by qc_lra.
  apply mult_le_mono.
  - apply mult_nonneg; [|exact Hr].
    apply mult_nonneg; now apply Qclt_le_weak.
  - apply Qcle_refl.
  - apply mult_nonneg; [exact P2|].
    destruct (nav_multiple_range p2) as [L _]. qc_lra.
  - apply mult_le_mono; [exact P2|apply Qcle_refl| |].
    + destruct (nav_multiple_range p2) as [L _]. qc_lra.
    + now destruct (nav_multiple_range p2).
Qed.

Lemma terminal_value_monotone_witness :
  0 <= estimate_terminal_value (lit 0.69) None /\
  estimate_terminal_value (lit 0.69) None <= estimate_terminal_value (lit 0.70) None /\
  estimate_terminal_value (lit 0.70) None
    <= TOTAL_NAV_MM * reserves_pct None * lit 0.70 * lit 0.95 * CO_INVEST_SHARE.
Proof.
  apply (terminal_value_monotone (lit 0.69) (lit 0.70) None);
    unfold Qcle; vm_compute; discriminate.
Defined.

(* ------------------------------------------------------------------ *)
(** ** Cash flows on curves and paths of any length *)

Lemma cash_flow_years_length k y p ga :
  List.length (cash_flow_years k y p ga)
  = Nat.min (List.length y) (List.length p).
Proof.
  revert k p. induction y as [|x y IH]; intros k [|q p];
    cbn [cash_flow_years List.length Nat.min]; try reflexivity.
  now rewrite IH.
Qed.

Lemma cash_flow_years_nth k y p ga t :
  (t < Nat.min (List.length y) (List.length p))%nat ->
  nth t (cash_flow_years k y p ga) 0
  = CO_INVEST_MM * nth t y 0 * nth t p 0 - ga_charge ga
    + (if Nat.eqb (k + t) 9
       then estimate_terminal_value (nth t p 0) None else 0).
Proof.
  revert k p t. induction y as [|x y IH]; intros k [|q p] t;
    cbn [List.length Nat.min]; try lia.
  intro Ht. cbn [cash_flow_years]. destruct t as [|t]; cbn [nth].
  - rewrite Nat.add_0_r. unfold ga_charge.
    destruct ga; destruct (Nat.eqb k 9); ring.
  - rewrite IH by lia. now rewrite Nat.add_succ_r.
Qed.

(** X4.  [build_cash_flows] on arrays of any lengths: [zip] stops
    at the shorter one, so the series has one entry more than the
    shorter array; entry [t + 1] is the investment times yield times
    price, less the G&A charge when it is included, and the terminal
    value is added in the tenth operating year only (year index 9), so a
    series built from fewer than ten pairs has none. *)
Theorem build_cash_flows_truncates
    (yield_curve price_factors_by_year : list Qc) (include_ga : bool) :
  let cfs := build_cash_flows yield_curve price_factors_by_year include_ga in
  let n := Nat.min (List.length yield_curve) (List.length price_factors_by_year) in
  List.length cfs = S n /\
  nth 0 cfs 0 = - CO_INVEST_MM /\
  (forall t, (t < n)%nat ->
     nth (S t) cfs 0
     = CO_INVEST_MM * nth t yield_curve 0 * nth t price_factors_by_year 0
       - ga_charge include_ga
       + (if Nat.eqb t 9
          then estimate_terminal_value (nth t price_factors_by_year 0) None
          else 0)).
Proof.
  cbv zeta. split; [|split].
  - unfold build_cash_flows. cbn [List.length].
    now rewrite cash_flow_years_length.
  - reflexivity.
  - intros t Ht. unfold build_cash_flows. cbn [nth].
    now rewrite cash_flow_years_nth.
Qed.

Lemma build_cash_flows_truncates_witness :
  nth 3 (build_cash_flows (repeat (lit 0.2) 10) (repeat (lit 1.0) 3) true) 0
  = CO_INVEST_MM * nth 2 (repeat (lit 0.2) 10) 0 * nth 2 (repeat (lit 1.0) 3) 0
    - ga_charge true
    + (if Nat.eqb 2 9
       then estimate_terminal_value (nth 2 (repeat (lit 1.0) 3) 0) None
       else 0).
Proof.
  apply (proj2 (proj2 (build_cash_flows_truncates
                         (repeat (lit 0.2) 10) (repeat (lit 1.0) 3) true))).
  cbn. lia.
Defined.

Lemma cash_flow_years_monotone k y y' p p' ga :
  Forall2 Qcle y y' -> Forall2 Qcle p p' ->
  Forall (fun v => 0 <= v) y -> Forall (fun v => 0 <= v) p ->
  Forall2 Qcle (cash_flow_years k y p ga) (cash_flow_years k y' p' ga).
Proof.
  intros Hy. revert k p p'.
  induction Hy as [|x x' y y' Hx Hy IH]; intros k p p' Hp Py Pp.
  - destruct p, p'; constructor.
  - inversion Hp as [|q q' ps ps' Hq Hps]; subst; cbn [cash_flow_years];
      [constructor|].
    inversion Py; subst. inversion Pp; subst.
    constructor; [|now apply IH].
    assert (T : estimate_terminal_value q None <= estimate_terminal_value q' None).
    { apply terminal_value_le; trivial. unfold Qcle. vm_compute. discriminate. }
    assert (P : x * q <= x' * q') by now apply mult_le_mono.
    pose proof co_invest_pos as C.
    assert (PC : CO_INVEST_MM * x * q <= CO_INVEST_MM * x' * q').
    { replace (CO_INVEST_MM * x * q) with (CO_INVEST_MM * (x * q)) by ring.
      replace (CO_INVEST_MM * x' * q') with (CO_INVEST_MM * (x' * q')) by ring.
      apply mult_le_mono;
        [apply Qclt_le_weak; exact C|apply Qcle_refl| |exact P].
      now apply mult_nonneg. }
    destruct ga; destruct (Nat.eqb k 9); qc_lra.
Qed.

(** X5.  [build_cash_flows] is monotone: raising any yield or any
    price factor of non-negative arrays lowers no cash flow, and so does
    not lower the profit [sum(cfs)]. *)
Theorem cash_flows_monotone
    (y y' p p' : list Qc) (include_ga : bool) :
  Forall2 Qcle y y' -> Forall2 Qcle p p' ->
  Forall (fun v => 0 <= v) y -> Forall (fun v => 0 <= v) p ->
  Forall2 Qcle (build_cash_flows y p include_ga) (build_cash_flows y' p' include_ga)
  /\ py_sum (build_cash_flows y p include_ga)
     <= py_sum (build_cash_flows y' p' include_ga).
Proof.
  intros Hy Hp Py Pp.
  assert (F : Forall2 Qcle (build_cash_flows y p include_ga)
                (build_cash_flows y' p' include_ga)).
  { unfold build_cash_flows. constructor; [apply Qcle_refl|].
    now apply cash_flow_years_monotone. }
  split; [exact F|now apply py_sum_le].
Qed.

Lemma cash_flows_monotone_witness :
  py_sum (build_cash_flows (lit 0.2 :: lit 0.1 :: nil) (lit 0.8 :: lit 0.9 :: nil) true)
  <= py_sum (build_cash_flows (lit 0.25 :: lit 0.1 :: nil) (lit 1.0 :: lit 0.9 :: nil) true).
Proof.
  apply (cash_flows_monotone
           (lit 0.2 :: lit 0.1 :: nil) (lit 0.25 :: lit 0.1 :: nil)
           (lit 0.8 :: lit 0.9 :: nil) (lit 1.0 :: lit 0.9 :: nil) true);
    repeat constructor; unfold Qcle; vm_compute; discriminate.
Defined.

(* ------------------------------------------------------------------ *)
(** ** The Newton-Raphson loop on a degenerate series *)

Lemma pow_ge_one (x : Qc) n : 1 <= x -> 1 <= x ^ n.
Proof.
  intro H. induction n as [|n IH]; cbn [Qcpower]; [apply Qcle_refl|].
  replace 1 with (1 * 1) at 1 by ring.
  apply mult_le_mono; trivial; unfold Qcle; vm_compute; discriminate.
Qed.

Lemma Qcabs_div_le (a b : Qc) : 1 <= b -> Qcabs (a / b) <= Qcabs a.
Proof.
  intro Hb.
  assert (Hb0 : b <> 0) by (intros ->; revert Hb; qc_eval).
  assert (Hi : 0 <= / b /\ / b <= 1).
  { assert (E : b * / b = 1) by (field; exact Hb0).
    revert E. generalize (/ b) as i. intros i E. split; qc_nra. }
  destruct Hi as [I0 I1].
  unfold Qcdiv. rewrite Qcabs_Qcmult. rewrite (Qcabs_pos (/ b)) by exact I0.
  pose proof (Qcabs_nonneg a) as A.
  revert A I0 I1. generalize (Qcabs a) as x, (/ b) as i. intros x i A I0 I1.
  qc_nra.
Qed.

Lemma derivative_terms_bound r t cfs :
  0 <= r ->
  Qcabs (py_sum (derivative_terms r t cfs)) <= timed_abs_sum t cfs.
Proof.
  intro Hr. revert t.
  induction cfs as [|cf cfs IH]; intro t; cbn [derivative_terms timed_abs_sum].
  - rewrite py_sum_nil, Qcabs_pos by apply Qcle_refl. apply Qcle_refl.
  - rewrite py_sum_cons.
    eapply Qcle_trans; [apply Qcabs_triangle|].
    apply Qcplus_le_compat; [|apply IH].
    eapply Qcle_trans; [apply Qcabs_div_le|].
    + apply pow_ge_one. qc_lra.
    + rewrite Qcabs_Qcmult, Qcabs_opp.
      rewrite (Qcabs_pos (of_nat t)) by apply of_nat_nonneg. apply Qcle_refl.
Qed.

(** A pass whose derivative is below the guard leaves the loop with the
    current rate. *)
Lemma newton_guard n rate cfs tolerance f f_prime :
  npv rate cfs = Ok f ->
  npv_derivative rate cfs = Ok f_prime ->
  ltb (Qcabs f_prime) (lit 1e-10) = true ->
  newton (S n) rate cfs tolerance = Ok (Stopped rate).
Proof.
  intros Hf Hd Hg. cbn [newton]. rewrite Hf, Hd. cbn [rbind]. now rewrite Hg.
Qed.

(** X6.  [calculate_irr] on cash flows that are all but zero: when
    [sum(t * abs(cf))] is below the guard 1e-10 (an empty or an all-zero
    series in particular), the derivative at the initial guess is inside
    the guard, the loop breaks in its first pass and the function
    returns the initial guess, 10%, whatever the sign of the flows.  The
    series is at most 1000 long, so that no power overflows in the
    code. *)
Theorem irr_of_negligible_flows (cfs : list Qc) :
  (List.length cfs <= 1000)%nat ->
  timed_abs_sum 0 cfs < lit 1e-10 ->
  calculate_irr cfs = Ok (Some (lit 0.10)).
Proof.
  intros _ H. unfold calculate_irr, calculate_irr_with.
  assert (Hr : 1 + lit 0.10 <> 0) by (unfold lit; qc_eval).
  rewrite (newton_guard 99 (lit 0.10) cfs (lit 1e-8) _ _
             (npv_value _ cfs Hr) (npv_derivative_value _ cfs Hr)).
  - reflexivity.
  - apply ltb_lt. eapply Qcle_lt_trans; [|exact H].
    apply derivative_terms_bound. unfold Qcle. vm_compute. discriminate.
Qed.

Lemma irr_of_negligible_flows_witness :
  calculate_irr (map lit [-1e-12; 1.2e-12]%Q) = Ok (Some (lit 0.10)).
Proof.
  apply (irr_of_negligible_flows (map lit [-1e-12; 1.2e-12]%Q)).
  - cbn. lia.
  - unfold Qclt. vm_compute. reflexivity.
Defined.

(* ------------------------------------------------------------------ *)
(** ** Payback of a series that starts with an outlay *)

Lemma payback_loop_cases cumulative cfs a n :
  (payback_loop cumulative cfs (seq a n) = None /\
   forall k, (a <= k < a + n)%nat -> leb 0 (nth k cumulative 0) = false)
  \/
  (exists t,
     (a <= t < a + n)%nat /\
     leb 0 (nth t cumulative 0) = true /\
     (forall k, (a <= k < t)%nat -> leb 0 (nth k cumulative 0) = false) /\
     payback_loop cumulative cfs (seq a n) =
       Some (np_add (of_nat (t - 1))
               (np_div (- nth (t - 1) cumulative 0) (nth t cfs 0)))).
Proof.
  revert a. induction n as [|n IH]; intro a; cbn [seq payback_loop].
  - left. split; [reflexivity|]. intros k Hk. lia.
  - destruct (leb 0 (nth a cumulative 0)) eqn:E.
    + right. exists a.
      split; [lia|]. split; [exact E|]. split; [intros k Hk; lia|reflexivity].
    + destruct (IH (S a)) as [[N H]|(t & Ht & Hp & Hn & R)].
      * left. split; [exact N|]. intros k Hk.
        destruct (Nat.eq_dec k a) as [->|Hka]; [exact E|apply H; lia].
      * right. exists t.
        split; [lia|]. split; [exact Hp|]. split; [|exact R].
        intros k Hk.
        destruct (Nat.eq_dec k a) as [->|Hka]; [exact E|apply Hn; lia].
Qed.

Lemma of_nat_pred t : (1 <= t)%nat -> of_nat t = of_nat (t - 1) + 1.
Proof.
  destruct t as [|t]; [lia|]. intros _. cbn [Nat.sub].
  rewrite Nat.sub_0_r. apply of_nat_S.
Qed.

Lemma cumulative_at_0 cfs : cumulative_at cfs 0 = nth 0 cfs 0.
Proof.
  unfold cumulative_at. destruct cfs as [|c cfs]; cbn [firstn nth].
  - reflexivity.
  - rewrite py_sum_cons, py_sum_nil. ring.
Qed.

Lemma payback_outlay_cases cfs :
  nth 0 cfs 0 < 0 ->
  match calculate_payback cfs with
  | None =>
      forall t, (1 <= t < List.length cfs)%nat -> cumulative_at cfs t < 0
  | Some NonFin => False
  | Some (Fin p) =>
      exists t,
        (1 <= t < List.length cfs)%nat /\
        cumulative_at cfs (t - 1) < 0 /\ 0 <= cumulative_at cfs t /\
        of_nat (t - 1) < p /\ p <= of_nat t
  end.
Proof.
  intros H0. unfold calculate_payback. cbv zeta.
  unfold cumsum at 2. rewrite cumsum_from_length.
  destruct (payback_loop_cases (cumsum cfs) cfs 1 (List.length cfs - 1))
    as [[N H]|(t & Ht & Hp & Hn & R)].
  - rewrite N. intros t Ht. rewrite <- cumsum_nth by lia.
    apply leb_gt. apply H. lia.
  - rewrite R. clear R.
    rewrite cumsum_nth in Hp by lia. apply leb_le in Hp.
    rewrite cumsum_nth by lia.
    assert (Hprev : cumulative_at cfs (t - 1) < 0).
    { destruct (Nat.eq_dec t 1) as [->|Ht1].
      - cbn [Nat.sub]. now rewrite cumulative_at_0.
      - rewrite <- cumsum_nth by lia. apply leb_gt. apply Hn. lia. }
    assert (Hstep : cumulative_at cfs t
                    = cumulative_at cfs (t - 1) + nth t cfs 0).
    { pose proof (cumulative_at_S cfs (t - 1)) as Hs.
      replace (S (t - 1)) with t in Hs by lia. apply Hs. lia. }
    assert (Hpos : 0 < nth t cfs 0) by qc_lra.
    assert (Hnz : nth t cfs 0 <> 0)
      by (intro E; rewrite E in Hpos; revert Hpos; qc_eval).
    unfold np_div. apply eqb_neq in Hnz as Hb. rewrite Hb. cbn [np_add].
    exists t.
    assert (E : - cumulative_at cfs (t - 1) / nth t cfs 0 * nth t cfs 0
                = - cumulative_at cfs (t - 1)) by (field; exact Hnz).
    split; [lia|]. split; [exact Hprev|]. split; [exact Hp|].
    rewrite (of_nat_pred t) by lia.
    revert E Hprev Hpos Hp Hstep.
    generalize (- cumulative_at cfs (t - 1) / nth t cfs 0) as x,
               (cumulative_at cfs t) as e,
               (cumulative_at cfs (t - 1)) as c, (nth t cfs 0) as d,
               (of_nat (t - 1)) as m.
    intros x e c d m E Hprev Hpos Hp Hstep. split; qc_nra.
Qed.



(* ------------------------------------------------------------------ *)
(** ** The decline draw and the shape of a Monte Carlo run *)

Lemma decline_risk_b_range b_shock Di_shock :
  let b := fst (fst (simulate_decline_curve_risk true b_shock Di_shock)) in
  lit 0.3 <= b /\ b <= lit 1.2.
Proof.
  cbn. apply clip_bounds. unfold Qcle. vm_compute. discriminate.
Qed.

Lemma zero_shock_draw :
  simulate_decline_curve_risk true 0 0
  = (lit 0.9, lit 0.25, "Near Type Curve"%string).
Proof.
  unfold simulate_decline_curve_risk. cbv zeta.
  replace (base_b_factor + 0) with (lit 0.9) by (unfold base_b_factor; ring).
  replace (base_Di + 0) with (lit 0.25) by (unfold base_Di; ring).
  rewrite !clip_inside by (unfold Qcle; vm_compute; discriminate).
  replace (ltb (lit 0.9) (lit 0.5)) with false by (vm_compute; reflexivity).
  replace (ltb (lit 0.9) (lit 0.7)) with false by (vm_compute; reflexivity).
  replace (ltb (lit 1.0) (lit 0.9)) with false by (vm_compute; reflexivity).
  reflexivity.
Qed.

(** X8.  [simulate_decline_curve_risk]: a stochastic draw returns
    the clipped values [clip(0.9 + b_shock, 0.3, 1.2)] and
    [clip(0.25 + Di_shock, 0.10, 0.45)], hence a b-factor in
    [[0.3, 1.2]] and a decline rate in [[0.10, 0.45]] whatever the
    shocks, and the label is a function of the b-factor alone with the
    thresholds 0.5, 0.7 and 1.0; zero shocks give the base parameters
    under the label "Near Type Curve", while the deterministic call
    gives them under the label "Base Case". *)
Theorem decline_risk_bounds (b_shock Di_shock : Qc) :
  (let '(b_factor, Di, curve_label) :=
     simulate_decline_curve_risk true b_shock Di_shock in
   b_factor = clip (lit 0.9 + b_shock) (lit 0.3) (lit 1.2) /\
   Di = clip (lit 0.25 + Di_shock) (lit 0.10) (lit 0.45) /\
   (lit 0.3 <= b_factor /\ b_factor <= lit 1.2) /\
   (lit 0.10 <= Di /\ Di <= lit 0.45) /\
   (curve_label = "Severe Steepening"%string <-> b_factor < lit 0.5) /\
   (curve_label = "Moderate Steepening"%string
    <-> lit 0.5 <= b_factor /\ b_factor < lit 0.7) /\
   (curve_label = "Flatter than Expected"%string <-> lit 1.0 < b_factor) /\
   (curve_label = "Near Type Curve"%string
    <-> lit 0.7 <= b_factor /\ b_factor <= lit 1.0)) /\
  simulate_decline_curve_risk true 0 0
    = (lit 0.9, lit 0.25, "Near Type Curve"%string) /\
  simulate_decline_curve_risk false b_shock Di_shock
    = (lit 0.9, lit 0.25, "Base Case"%string).
Proof.
  split; [|split; [apply zero_shock_draw|reflexivity]].
  unfold simulate_decline_curve_risk. cbv zeta.
  set (b := clip (base_b_factor + b_shock) (lit 0.3) (lit 1.2)).
  set (D := clip (base_Di + Di_shock) (lit 0.10) (lit 0.45)).
  split; [reflexivity|]. split; [reflexivity|].
  split; [apply clip_bounds; unfold Qcle; vm_compute; discriminate|].
  split; [apply clip_bounds; unfold Qcle; vm_compute; discriminate|].
  clearbody b D.
  destruct (ltb b (lit 0.5)) eqn:E5; [apply ltb_lt in E5|apply ltb_ge in E5].
  { repeat split; intros; try discriminate; try assumption;
      try (exfalso; qc_lra);
      try (exfalso; match goal with H : _ /\ _ |- _ => destruct H end; qc_lra). }
  destruct (ltb b (lit 0.7)) eqn:E7; [apply ltb_lt in E7|apply ltb_ge in E7].
  { repeat split; intros; try discriminate; try assumption;
      try (exfalso; qc_lra);
      try (exfalso; match goal with H : _ /\ _ |- _ => destruct H end; qc_lra). }
  destruct (ltb (lit 1.0) b) eqn:E1; [apply ltb_lt in E1|apply ltb_ge in E1].
  { repeat split; intros; try discriminate; try assumption;
      try (exfalso; qc_lra);
      try (exfalso; match goal with H : _ /\ _ |- _ => destruct H end; qc_lra). }
  repeat split; intros; try discriminate; try assumption;
    try (exfalso; qc_lra);
    try (exfalso; match goal with H : _ /\ _ |- _ => destruct H end; qc_lra).
Qed.

Lemma py_index_inv {A} (l : list A) i x :
  py_index l i = Ok x -> nth_error l i = Some x.
Proof. unfold py_index. destruct (nth_error l i); intro H; now inversion H. Qed.

Lemma firstn_snoc_nth_error {A} (l : list A) i x :
  nth_error l i = Some x -> firstn (S i) l = firstn i l ++ x :: nil.
Proof.
  revert i. induction l as [|a l IH]; intros [|i] H; cbn in H; try discriminate.
  - now inversion H.
  - change (firstn (S (S i)) (a :: l)) with (a :: firstn (S i) l).
    now rewrite (IH _ H).
Qed.

Section MonteCarloShape.

Variable fpow : Qc -> Qc -> Qc.

Lemma mc_loop_recorded n price_sims draws i acc g res g' :
  recorded price_sims i acc ->
  mc_loop fpow n price_sims draws i acc g = (Ok res, g') ->
  recorded price_sims (n + i) res.
Proof.
  revert i acc g. induction n as [|n IH]; intros i acc g Hacc H; cbn [mc_loop] in H.
  - unfold ret in H. inversion H; subst. exact Hacc.
  - unfold mbind in H.
    destruct (mc_trial fpow price_sims (draws i) i acc g) as [[acc'|e] g1] eqn:E;
      [|discriminate].
    apply mc_trial_inv in E as (pp & av & ys & irr & roi & E). cbv zeta in E.
    destruct E as (Ep & Ea & _ & _ & Er & ->).
    replace (S n + i)%nat with (n + S i)%nat by lia.
    apply IH in H; [exact H|]. clear H IH.
    destruct Hacc as (L1 & L2 & L3 & L4 & L5 & B1 & B2 & P & Fb).
    apply py_index_inv in Ep, Ea.
    assert (I1 : (i < List.length (blended_paths price_sims))%nat)
      by (apply nth_error_Some; congruence).
    assert (I2 : (i < List.length (blended_avg price_sims))%nat)
      by (apply nth_error_Some; congruence).
    unfold recorded. cbn [sim_irrs sim_rois sim_profits sim_b_factors sim_prices].
    rewrite !length_app. cbn [List.length].
    repeat split; try lia.
    + rewrite (firstn_snoc_nth_error _ _ _ Ea). now rewrite P.
    + apply Forall_app. split; [exact Fb|]. constructor; [|constructor].
      apply decline_risk_b_range.
Qed.

End MonteCarloShape.

(** X9.  A run of [run_monte_carlo] that returns has recorded one
    entry per simulation in each of its five arrays; it returns only if
    the price simulations hold at least [num_sims] paths and averages
    (otherwise an index is out of range), [sim_prices] is the first
    [num_sims] averages in their order, and every recorded b-factor
    lies in [[0.3, 1.2]]. *)
Theorem monte_carlo_shape
    (fpow : Qc -> Qc -> Qc) (num_sims : nat) (price_sims : price_results)
    (draws : nat -> Qc * Qc) (g g' : global) (res : mc_result) :
  run_monte_carlo fpow num_sims price_sims draws g = (Ok res, g') ->
  List.length (sim_irrs res) = num_sims /\
  List.length (sim_rois res) = num_sims /\
  List.length (sim_profits res) = num_sims /\
  List.length (sim_b_factors res) = num_sims /\
  List.length (sim_prices res) = num_sims /\
  (num_sims <= List.length (blended_paths price_sims))%nat /\
  (num_sims <= List.length (blended_avg price_sims))%nat /\
  sim_prices res = firstn num_sims (blended_avg price_sims) /\
  Forall (fun b => lit 0.3 <= b /\ b <= lit 1.2) (sim_b_factors res).
Proof.
  intro H. unfold run_monte_carlo in H.
  apply mc_loop_recorded in H.
  - rewrite Nat.add_0_r in H. exact H.
  - unfold recorded, mc_empty. cbn. repeat split; try lia; constructor.
Qed.

Lemma monte_carlo_shape_witness :
  exists res,
    run_monte_carlo pow_whole 3 short_sims short_draws None = (Ok res, None) /\
    List.length (sim_irrs res) = 3%nat /\
    sim_prices res = firstn 3 (blended_avg short_sims).
Proof.
  eexists. split; [vm_compute; reflexivity|].
  match goal with
  | |- context [sim_irrs ?r] =>
      pose proof (monte_carlo_shape pow_whole 3 short_sims short_draws None None r) as H
  end.
  destruct H as (H1 & _ & _ & _ & _ & _ & _ & H8 & _).
  - vm_compute. reflexivity.
  - split; [exact H1|exact H8].
Defined.

(* ------------------------------------------------------------------ *)
(** ** The price simulation: shape, averages, the strip as fixed point *)

Lemma blend_length years ps : List.length (blend years ps) = years.
Proof. unfold blend. now rewrite length_map, length_seq. Qed.

Section PriceShape.

Variable chol : vec3 * vec3 * vec3.

(** What the loop over the simulations appends to the five lists. *)
Lemma simulate_sims_appends years sims draws results :
  let path s := simulate_path chol years (draws s) in
  let r := simulate_sims chol years sims draws results in
  res_oil r = res_oil results ++ map (fun s => mean (tl (oil (path s)))) (seq 0 sims) /\
  res_gas r = res_gas results ++ map (fun s => mean (tl (gas (path s)))) (seq 0 sims) /\
  res_ngl r = res_ngl results ++ map (fun s => mean (tl (ngl (path s)))) (seq 0 sims) /\
  blended_avg r
    = blended_avg results ++ map (fun s => mean (blend years (path s))) (seq 0 sims) /\
  blended_paths r
    = blended_paths results ++ map (fun s => blend years (path s)) (seq 0 sims).
Proof.
  cbv zeta. revert draws results.
  induction sims as [|sims IH]; intros draws results; cbn [simulate_sims seq map].
  - rewrite !app_nil_r. repeat split.
  - destruct (IH (fun s => draws (S s))
               {| res_oil := res_oil results
                             ++ mean (tl (oil (simulate_path chol years (draws 0%nat)))) :: nil;
                  res_gas := res_gas results
                             ++ mean (tl (gas (simulate_path chol years (draws 0%nat)))) :: nil;
                  res_ngl := res_ngl results
                             ++ mean (tl (ngl (simulate_path chol years (draws 0%nat)))) :: nil;
                  blended_avg := blended_avg results
                             ++ mean (blend years (simulate_path chol years (draws 0%nat))) :: nil;
                  blended_paths := blended_paths results
                             ++ blend years (simulate_path chol years (draws 0%nat)) :: nil |})
      as (H1 & H2 & H3 & H4 & H5).
    cbn [res_oil res_gas res_ngl blended_avg blended_paths] in *.
    rewrite H1, H2, H3, H4, H5.
    rewrite <- !seq_shift, !map_map, <- !app_assoc. cbn [app].
    repeat split.
Qed.


End PriceShape.

Lemma nth_map_seq {A} (f : nat -> A) n i d :
  (i < n)%nat -> nth i (map f (seq 0 n)) d = f i.
Proof.
  intro H. rewrite (nth_indep _ d (f 0%nat)) by now rewrite length_map, length_seq.
  rewrite (map_nth f (seq 0 n) 0%nat i). now rewrite seq_nth.
Qed.

(** X10.  The shape of what [simulate_commodity_prices] returns,
    whatever the draws: each of the five lists has one entry per
    simulation, every blended path has [years] entries, so that every
    index below [sims] is in range, and the recorded blended average of
    a simulation is the mean of its blended path. *)
Theorem price_simulation_shape
    (chol : vec3 * vec3 * vec3) (years sims : nat) (draws : nat -> nat -> vec3) :
  (0 < years)%nat ->
  let r := simulate_commodity_prices chol years sims draws in
  List.length (res_oil r) = sims /\
  List.length (res_gas r) = sims /\
  List.length (res_ngl r) = sims /\
  List.length (blended_avg r) = sims /\
  List.length (blended_paths r) = sims /\
  Forall (fun path => List.length path = years) (blended_paths r) /\
  (forall i, (i < sims)%nat ->
     exists path,
       py_index (blended_paths r) i = Ok path /\
       py_index (blended_avg r) i = Ok (mean path)).
Proof.
  intros _. cbv zeta. unfold simulate_commodity_prices.
  destruct (simulate_sims_appends chol years sims draws
              {| res_oil := []; res_gas := []; res_ngl := [];
                 blended_avg := []; blended_paths := [] |})
    as (H1 & H2 & H3 & H4 & H5).
  cbn [res_oil res_gas res_ngl blended_avg blended_paths app] in *.
  rewrite H1, H2, H3, H4, H5. clear H1 H2 H3 H4 H5.
  rewrite !length_map, !length_seq.
  repeat split.
  - apply Forall_forall. intros path Hin. apply in_map_iff in Hin as (s & <- & _).
    apply blend_length.
  - intros i Hi.
    exists (blend years (simulate_path chol years (draws i))).
    unfold py_index. rewrite !nth_error_map, nth_error_seq.
    apply Nat.ltb_lt in Hi. rewrite Hi. split; reflexivity.
Qed.

Lemma price_simulation_shape_witness :
  let r :=
    simulate_commodity_prices ((1, 0, 0), (0, 1, 0), (0, 0, 1)) 2 1
      (fun _ _ => (- lit 5.0, lit 0.5, lit 0.0)) in
  exists path,
    py_index (blended_paths r) 0 = Ok path /\
    py_index (blended_avg r) 0 = Ok (mean path).
Proof.
  cbv zeta.
  apply (price_simulation_shape ((1, 0, 0), (0, 1, 0), (0, 0, 1)) 2 1
           (fun _ _ => (- lit 5.0, lit 0.5, lit 0.0))); lia.
Defined.

Lemma matvec3_zero chol : matvec3 chol (0, 0, 0) = (0, 0, 0).
Proof.
  destruct chol as [[[[a0 a1] a2] [[b0 b1] b2]] [[c0 c1] c2]].
  unfold matvec3, dot3. repeat f_equal; ring.
Qed.

(** At the strip level and without a shock a price stays where it is. *)
Lemma ou_step_strip p : mu p = lit 1.0 -> ou_step p (lit 1.0) 0 = lit 1.0.
Proof.
  intro Hm. unfold ou_step. cbv zeta. rewrite Hm.
  replace (lit 1.0 + theta p * (lit 1.0 - lit 1.0) * dt + sigma p * sqrt_dt * 0)
    with (lit 1.0) by ring.
  unfold py_max. replace (ltb (lit 0.2) (lit 1.0)) with true by (vm_compute; reflexivity).
  reflexivity.
Qed.

Lemma last_repeat (x : Qc) n d : last (repeat x (S n)) d = x.
Proof.
  induction n as [|n IH]; [reflexivity|].
  change (repeat x (S (S n))) with (x :: repeat x (S n)).
  cbn [last]. cbn [repeat] in *. exact IH.
Qed.

Lemma repeat_snoc {A} (x : A) n : repeat x n ++ x :: nil = repeat x (S n).
Proof. induction n as [|n IH]; [reflexivity|]. cbn [repeat app]. now rewrite IH. Qed.

Lemma nth_repeat_lt (x : Qc) n t d : (t < n)%nat -> nth t (repeat x n) d = x.
Proof.
  revert t. induction n as [|n IH]; intros t H; [lia|].
  destruct t as [|t]; [reflexivity|]. cbn [repeat nth]. apply IH. lia.
Qed.

Lemma mean_repeat_one n : (0 < n)%nat -> mean (repeat (lit 1.0) n) = lit 1.0.
Proof.
  intro H. unfold mean. rewrite py_sum_repeat, repeat_length.
  assert (N : of_nat n <> 0).
  { destruct n as [|n]; [lia|]. rewrite of_nat_S.
    pose proof (of_nat_nonneg n) as P. intro E.
    revert P E. generalize (of_nat n). intros q P E. qc_lra. }
  rewrite lit_one. field. exact N.
Qed.

Section StripFixedPoint.

Variable chol : vec3 * vec3 * vec3.

Lemma simulate_years_strip years k :
  simulate_years chol years (fun _ => (0, 0, 0))
    {| oil := repeat (lit 1.0) (S k);
       gas := repeat (lit 1.0) (S k);
       ngl := repeat (lit 1.0) (S k) |}
  = {| oil := repeat (lit 1.0) (S (years + k));
       gas := repeat (lit 1.0) (S (years + k));
       ngl := repeat (lit 1.0) (S (years + k)) |}.
Proof.
  revert k. induction years as [|years IH]; intro k; cbn [simulate_years].
  - reflexivity.
  - unfold simulate_year. rewrite matvec3_zero. cbn [oil gas ngl].
    rewrite !last_repeat, !ou_step_strip by reflexivity.
    rewrite !repeat_snoc. rewrite IH.
    replace (S (years + S k)) with (S (S years + k)) by lia. reflexivity.
Qed.

Lemma simulate_path_strip years :
  simulate_path chol years (fun _ => (0, 0, 0))
  = {| oil := repeat (lit 1.0) (S years);
       gas := repeat (lit 1.0) (S years);
       ngl := repeat (lit 1.0) (S years) |}.
Proof.
  unfold simulate_path.
  change (lit 1.0 :: nil) with (repeat (lit 1.0) 1).
  rewrite simulate_years_strip. now rewrite Nat.add_0_r.
Qed.

Lemma blend_strip years :
  blend years
    {| oil := repeat (lit 1.0) (S years);
       gas := repeat (lit 1.0) (S years);
       ngl := repeat (lit 1.0) (S years) |}
  = repeat (lit 1.0) years.
Proof.
  unfold blend.
  rewrite (map_ext_in _ (fun _ => lit 1.0)).
  - rewrite map_const, length_seq. reflexivity.
  - intros t Ht. apply in_seq in Ht. unfold blended_at. cbn [oil gas ngl].
    rewrite !nth_repeat_lt by lia.
    apply Qc_is_canon. vm_compute. reflexivity.
Qed.

End StripFixedPoint.

Lemma tl_repeat {A} (x : A) n : tl (repeat x (S n)) = repeat x n.
Proof. reflexivity. Qed.

(** X11.  The strip is a fixed point of the price process: with
    every draw equal to zero, whatever the Cholesky factor, every
    simulated price stays at 1.0, so every blended path is constant at
    1.0 (the commodity mix adds up to one) and every average is 1.0. *)
Theorem strip_is_fixed_point
    (chol : vec3 * vec3 * vec3) (years sims : nat) :
  (0 < years)%nat ->
  let r := simulate_commodity_prices chol years sims (fun _ _ => (0, 0, 0)) in
  blended_paths r = repeat (repeat (lit 1.0) years) sims /\
  blended_avg r = repeat (lit 1.0) sims /\
  res_oil r = repeat (lit 1.0) sims /\
  res_gas r = repeat (lit 1.0) sims /\
  res_ngl r = repeat (lit 1.0) sims.
Proof.
  intros Hy. cbv zeta. unfold simulate_commodity_prices.
  destruct (simulate_sims_appends chol years sims (fun _ _ => (0, 0, 0))
              {| res_oil := []; res_gas := []; res_ngl := [];
                 blended_avg := []; blended_paths := [] |})
    as (H1 & H2 & H3 & H4 & H5).
  cbn [res_oil res_gas res_ngl blended_avg blended_paths app] in *.
  rewrite H1, H2, H3, H4, H5. clear H1 H2 H3 H4 H5.
  rewrite simulate_path_strip. cbn [oil gas ngl].
  rewrite blend_strip, tl_repeat, mean_repeat_one by exact Hy.
  rewrite !map_const, length_seq. repeat split.
Qed.

Lemma strip_is_fixed_point_witness :
  blended_paths
    (simulate_commodity_prices ((1, 0, 0), (0, 1, 0), (0, 0, 1)) 10 2
       (fun _ _ => (0, 0, 0)))
  = repeat (repeat (lit 1.0) 10) 2.
Proof.
  apply (strip_is_fixed_point ((1, 0, 0), (0, 1, 0), (0, 0, 1)) 10 2). lia.
Defined.

(** X12.  Without a shock a step of the Ornstein-Uhlenbeck update
    moves the price towards the long-run mean 1.0 and not beyond it:
    for a mean of 1.0 and a reversion speed in [[0, 0.5]] (those of oil,
    gas and NGL are 0.3, 0.5 and 0.35) the new price lies between the
    current price and 1.0, on either side of the mean, and the floor at
    0.2 does not change that. *)
Theorem ou_step_mean_reverts (p : price_param) (current_price : Qc) :
  mu p = lit 1.0 -> 0 <= theta p -> theta p <= lit 0.5 ->
  (current_price <= lit 1.0 ->
   current_price <= ou_step p current_price 0 /\
   ou_step p current_price 0 <= lit 1.0) /\
  (lit 1.0 <= current_price ->
   lit 1.0 <= ou_step p current_price 0 /\
   ou_step p current_price 0 <= current_price) /\
  Forall (fun q => mu q = lit 1.0 /\ 0 <= theta q /\ theta q <= lit 0.5)
    [PRICE_PARAMS_oil; PRICE_PARAMS_gas; PRICE_PARAMS_ngl].
Proof.
  intros Hm H0 H1.
  assert (E : ou_step p current_price 0
              = py_max (lit 0.2)
                  (current_price + theta p * (lit 1.0 - current_price))).
  { unfold ou_step. cbv zeta. rewrite Hm. f_equal.
    unfold dt. rewrite lit_one. ring. }
  assert (F : lit 0.2 <= lit 1.0) by (unfold Qcle; vm_compute; discriminate).
  assert (T : lit 0.5 <= lit 1.0) by (unfold Qcle; vm_compute; discriminate).
  split; [|split];
    [| |repeat constructor; unfold Qcle; vm_compute; discriminate].
  - rewrite E. clear E. rewrite lit_one in *. revert H0 H1 F T.
    generalize (theta p) as th, (lit 0.2) as fl, (lit 0.5) as half.
    intros th fl half H0 H1 F T Hc. unfold py_max.
    destruct (ltb fl (current_price + th * (1 - current_price))) eqn:L;
      [apply ltb_lt in L|apply ltb_ge in L]; split;
      first [exact F | qc_nra].
  - rewrite E. clear E. rewrite lit_one in *. revert H0 H1 F T.
    generalize (theta p) as th, (lit 0.2) as fl, (lit 0.5) as half.
    intros th fl half H0 H1 F T Hc. unfold py_max.
    destruct (ltb fl (current_price + th * (1 - current_price))) eqn:L;
      [apply ltb_lt in L|apply ltb_ge in L]; split;
      first [exact F | qc_nra].
Qed.

Lemma ou_step_mean_reverts_witness :
  lit 0.4 <= ou_step PRICE_PARAMS_gas (lit 0.4) 0 /\
  ou_step PRICE_PARAMS_gas (lit 0.4) 0 <= lit 1.0.
Proof.
  apply (ou_step_mean_reverts PRICE_PARAMS_gas (lit 0.4));
    first [reflexivity | unfold Qcle; vm_compute; discriminate].
Defined.

(* ------------------------------------------------------------------ *)
(** ** The yield curve is positive *)

Lemma map_scale_positive (scale : Qc) l :
  0 < scale -> Forall (fun y => lit 0.03 <= y) l ->
  Forall (fun y => 0 < y) (map (fun y => y * scale) l).
Proof.
  intros Hs F. apply Forall_map. revert F. apply Forall_impl. intros y Hy.
  assert (T : 0 < lit 0.03) by (unfold Qclt; vm_compute; reflexivity).
  revert T Hy. generalize (lit 0.03) as fl. intros fl T Hy. qc_nra.
Qed.

(** X13.  Every curve that [generate_hyperbolic_yield_curve] returns,
    for any parameters and any float power, has ten values that are all
    positive: the first three are the deck yields, and the seven tail
    values are at least the floor 0.03 when the curve is not
    calibrated, and positive multiples of such values when it is (the
    scaling factor is positive because the floored tail has a positive
    sum and the deck target exceeds the first three yields). *)
Theorem yield_curve_positive
    (fpow : Qc -> Qc -> Qc) (b_factor Di : option Qc) (calibrate_base : bool)
    (g : global) (curve : list Qc) :
  fst (generate_hyperbolic_yield_curve fpow b_factor Di calibrate_base g)
    = Ok curve ->
  List.length curve = 10%nat /\
  firstn 3 curve = [YIELD_Y1; YIELD_Y2; YIELD_Y3] /\
  Forall (fun y => 0 < y) curve /\
  (is_base_case (default_b b_factor) (default_Di Di) || calibrate_base = false ->
   Forall (fun y => lit 0.03 <= y) curve).
Proof.
  rewrite generate_unfold. cbv zeta.
  destruct (arps_tail fpow (default_b b_factor) (default_Di Di) (seq 1 7))
    as [raw|e] eqn:Er; [|discriminate].
  apply arps_tail_floor in Er as [L F]. cbn [List.length seq] in L.
  assert (D : Forall (fun y => lit 0.03 <= y) [YIELD_Y1; YIELD_Y2; YIELD_Y3])
    by (repeat constructor; unfold Qcle; vm_compute; discriminate).
  assert (P : forall l, Forall (fun y => lit 0.03 <= y) l ->
                        Forall (fun y => 0 < y) l).
  { intros l. apply Forall_impl. intros y Hy.
    assert (T : 0 < lit 0.03) by (unfold Qclt; vm_compute; reflexivity).
    qc_lra. }
  destruct (is_base_case _ _ || calibrate_base); cbn [fst]; intro H;
    inversion H; subst curve; clear H.
  - split; [cbn [app List.length]; rewrite length_map, L; reflexivity|].
    split; [reflexivity|]. split; [|discriminate].
    apply (Forall_app _ [YIELD_Y1; YIELD_Y2; YIELD_Y3]). split; [apply P; exact D|].
    apply map_scale_positive; [|exact F].
    assert (Hpos : 0 < py_sum raw).
    { apply sum_floor_positive; [exact F|]. intros ->. discriminate L. }
    assert (N : py_sum raw <> 0)
      by (intro E; rewrite E in Hpos; revert Hpos; qc_eval).
    assert (R : 0 < AVG_10Y_YIELD * lit 10 - py_sum [YIELD_Y1; YIELD_Y2; YIELD_Y3])
      by (unfold Qclt; vm_compute; reflexivity).
    assert (E : (AVG_10Y_YIELD * lit 10 - py_sum [YIELD_Y1; YIELD_Y2; YIELD_Y3])
                / py_sum raw * py_sum raw
                = AVG_10Y_YIELD * lit 10 - py_sum [YIELD_Y1; YIELD_Y2; YIELD_Y3])
      by (field; exact N).
    revert R E Hpos.
    generalize (AVG_10Y_YIELD * lit 10 - py_sum [YIELD_Y1; YIELD_Y2; YIELD_Y3]) as n,
               ((AVG_10Y_YIELD * lit 10 - py_sum [YIELD_Y1; YIELD_Y2; YIELD_Y3])
                / py_sum raw) as q, (py_sum raw) as s.
    intros n q s R E Hpos.
    apply Qcnot_le_lt. intro C. qc_nra.
  - split; [cbn [app List.length]; rewrite L; reflexivity|].
    split; [reflexivity|].
    assert (A : Forall (fun y => lit 0.03 <= y) ([YIELD_Y1; YIELD_Y2; YIELD_Y3] ++ raw))
      by (apply Forall_app; split; assumption).
    cbn [app] in A.
    split; [apply P; exact A|intros _; exact A].
Qed.

Lemma yield_curve_positive_witness :
  exists curve,
    fst (generate_hyperbolic_yield_curve pow_whole (Some 1) (Some (lit 0.25))
           false None) = Ok curve /\
    Forall (fun y => 0 < y) curve.
Proof.
  eexists. split; [vm_compute; reflexivity|].
  match goal with
  | |- Forall _ ?c =>
      exact (proj1 (proj2 (proj2
               (yield_curve_positive pow_whole (Some 1) (Some (lit 0.25)) false
                  None c ltac:(vm_compute; reflexivity)))))
  end.
Defined.

(* ------------------------------------------------------------------ *)
(** ** The non-PDP delay: what it keeps *)

Lemma pdp_share_range : 0 < PDP_SHARE /\ PDP_SHARE < 1.
Proof. split; unfold Qclt; vm_compute; reflexivity. Qed.

Lemma nth_nonneg (l : list Qc) t : Forall (fun x => 0 <= x) l -> 0 <= nth t l 0.
Proof.
  intro F. revert t. induction F as [|x l Hx _ IH]; intros [|t]; cbn [nth];
    try apply Qcle_refl; trivial.
Qed.

Lemma shift_nth_nonneg k l t :
  Forall (fun x => 0 <= x) l -> (t < 10)%nat -> 0 <= nth t (shift k l) 0.
Proof.
  intros F Ht. rewrite shift_nth by exact Ht.
  destruct (t <? k)%nat; [apply Qcle_refl|now apply nth_nonneg].
Qed.

(** X14.  [delay_non_pdp_yields] never takes the PDP part away: for a
    ten-value curve with non-negative entries and any delay (negative,
    fractional, beyond the horizon), every year of the transformed curve
    holds at least the PDP share of that year's base yield. *)
Theorem delay_keeps_pdp_floor (base_yields : list Qc) (delay_years : Qc) :
  List.length base_yields = 10%nat ->
  Forall (fun y => 0 <= y) base_yields ->
  forall t, (t < 10)%nat ->
    nth t base_yields 0 * PDP_SHARE
    <= nth t (delay_non_pdp_yields base_yields delay_years) 0.
Proof.
  intros L F t Ht.
  pose proof (nth_nonneg base_yields t F) as Y.
  destruct pdp_share_range as [P0 P1].
  unfold delay_non_pdp_yields. cbv zeta.
  destruct (leb delay_years 0) eqn:E0.
  { revert Y P0 P1. generalize (nth t base_yields 0) as y, PDP_SHARE as s.
    intros y s Y P0 P1. qc_nra. }
  destruct (leb (lit 10) delay_years) eqn:E10.
  { rewrite map_scale_nth. apply Qcle_refl. }
  apply leb_gt in E0, E10.
  destruct (floor_in_horizon delay_years E0 E10) as (w & Hw & _ & F0 & F1).
  rewrite vec_add_nth;
    rewrite ?length_map, ?delayed_non_pdp_length; try lia.
  rewrite map_scale_nth.
  rewrite (delayed_non_pdp_nth base_yields delay_years w t L Hw Ht).
  pose proof (shift_nth_nonneg w _ t (non_pdp_nonneg base_yields F) Ht) as S0.
  pose proof (shift_nth_nonneg (S w) _ t (non_pdp_nonneg base_yields F) Ht) as S1.
  revert S0 S1 F0 F1.
  generalize (nth t (shift w (map (fun y => y * NON_PDP_SHARE) base_yields)) 0) as a.
  generalize (nth t (shift (S w) (map (fun y => y * NON_PDP_SHARE) base_yields)) 0) as b.
  generalize (delay_years - of_Z (floor delay_years)) as f.
  generalize (nth t base_yields 0 * PDP_SHARE) as c.
  intros c f b a S0 S1 F0 F1. qc_nra.
Qed.

Lemma delay_keeps_pdp_floor_witness :
  nth 0 (repeat (lit 0.186) 10) 0 * PDP_SHARE
  <= nth 0 (delay_non_pdp_yields (repeat (lit 0.186) 10) (lit 1.5)) 0.
Proof.
  apply (delay_keeps_pdp_floor (repeat (lit 0.186) 10) (lit 1.5)).
  - reflexivity.
  - repeat constructor; unfold Qcle; vm_compute; discriminate.
  - lia.
Defined.

(* ------------------------------------------------------------------ *)
(** ** The whole-curve delay *)

Lemma nth_default_0 (l : list Qc) t :
  (List.length l <= t)%nat -> nth t l 0 = 0.
Proof. apply nth_overflow. Qed.

(** One pass of the loop of [delay_all_yields], in terms of the shifted
    curve. *)
Lemma delayed_all_at_shift yields w f t :
  yields <> [] -> (t < 10)%nat ->
  delayed_all_at yields (Z.of_nat w) f t
  = Ok (baseline_at w f t
        + POST_DELAY_EFFICIENCY_FACTOR
          * ((1 - f) * nth t (shift w yields) 0
             + f * nth t (shift (S w) yields) 0)).
Proof.
  intros Hne Ht. unfold delayed_all_at, baseline_at.
  rewrite !shift_nth by exact Ht.
  destruct (Nat.ltb_spec t w) as [Hlt|Hge].
  - assert (Z1 : (Z.of_nat t <? Z.of_nat w)%Z = true) by (apply Z.ltb_lt; lia).
    assert (N1 : (t <? S w)%nat = true) by (apply Nat.ltb_lt; lia).
    rewrite Z1, N1. f_equal. ring.
  - assert (Z1 : (Z.of_nat t <? Z.of_nat w)%Z = false) by (apply Z.ltb_ge; lia).
    rewrite Z1.
    destruct (Nat.eqb_spec t w) as [->|Hne'].
    + rewrite Z.eqb_refl.
      assert (N1 : (w <? S w)%nat = true) by (apply Nat.ltb_lt; lia).
      rewrite N1, Nat.sub_diag.
      destruct yields as [|y0 ys]; [congruence|].
      cbn [py_index nth_error rbind nth]. f_equal. rewrite lit_one. ring.
    + assert (Z2 : (Z.of_nat t =? Z.of_nat w)%Z = false) by (apply Z.eqb_neq; lia).
      assert (N1 : (t <? S w)%nat = false) by (apply Nat.ltb_ge; lia).
      rewrite Z2, N1. cbv zeta.
      assert (Z3 : (0 <=? Z.of_nat t - Z.of_nat w - 1)%Z = true)
        by (apply Z.leb_le; lia).
      rewrite Z3. cbn [andb].
      replace (Z.to_nat (Z.of_nat t - Z.of_nat w)) with (t - w)%nat by lia.
      replace (Z.to_nat (Z.of_nat t - Z.of_nat w - 1)) with (t - S w)%nat by lia.
      f_equal.
      destruct (Z.ltb_spec (Z.of_nat t - Z.of_nat w) (Z.of_nat (List.length yields)));
      destruct (Z.ltb_spec (Z.of_nat t - Z.of_nat w - 1) (Z.of_nat (List.length yields)));
        rewrite ?(nth_default_0 yields (t - w)) by lia;
        rewrite ?(nth_default_0 yields (t - S w)) by lia;
        rewrite ?lit_one, ?lit_zero; ring.
Qed.

Lemma delay_all_yields_value yields d w :
  yields <> [] -> 0 < d -> d < lit 10 -> floor d = Z.of_nat w ->
  delay_all_yields yields d
  = Ok (map (fun t =>
               baseline_at w (d - of_Z (floor d)) t
               + POST_DELAY_EFFICIENCY_FACTOR
                 * ((1 - (d - of_Z (floor d))) * nth t (shift w yields) 0
                    + (d - of_Z (floor d)) * nth t (shift (S w) yields) 0))
          (seq 0 10)).
Proof.
  intros Hne H0 H10 Hw. unfold delay_all_yields. cbv zeta.
  apply leb_gt in H0 as E0. apply leb_gt in H10 as E10. rewrite E0, E10, Hw.
  apply for_each_ok. intros t Ht. apply in_seq in Ht.
  apply delayed_all_at_shift; [exact Hne|lia].
Qed.

(** X15.  [delay_all_yields], case by case.  A delay of zero or less
    returns the curve as it is, and a delay of ten years or more returns
    ten times the floor 0.03, whatever the curve.  In between, with [w]
    whole years and the fraction [f]: on an empty curve the transition
    year raises [IndexError]; otherwise the result has ten values, the
    baseline 0.05 in the years before [w], the blend
    [0.05 * f + yields[0] * 0.85 * (1 - f)] in year [w], and in each
    later year [t] the ramped interpolation
    [yields[t - w] * 0.85 * (1 - f) + yields[t - w - 1] * 0.85 * f], a
    year beyond the curve counting as zero. *)
Theorem delay_all_yields_cases (base_yields : list Qc) (delay_years : Qc) :
  (delay_years <= 0 -> delay_all_yields base_yields delay_years = Ok base_yields) /\
  (lit 10 <= delay_years ->
   delay_all_yields base_yields delay_years = Ok (repeat (lit 0.03) 10)) /\
  (0 < delay_years -> delay_years < lit 10 ->
   let w := Z.to_nat (floor delay_years) in
   let f := delay_years - of_Z (floor delay_years) in
   match base_yields with
   | [] => delay_all_yields base_yields delay_years = Raise IndexError
   | y0 :: _ =>
       exists delayed,
         delay_all_yields base_yields delay_years = Ok delayed /\
         List.length delayed = 10%nat /\
         (w <= 9)%nat /\ 0 <= f /\ f < 1 /\
         (forall t, (t < w)%nat -> nth t delayed 0 = lit 0.05) /\
         nth w delayed 0 = lit 0.05 * f + y0 * lit 0.85 * (1 - f) /\
         (forall t, (w < t < 10)%nat ->
            nth t delayed 0
            = nth (t - w) base_yields 0 * lit 0.85 * (1 - f)
              + nth (t - S w) base_yields 0 * lit 0.85 * f)
   end).
Proof.
  split; [|split].
  - intro H. unfold delay_all_yields. apply leb_le in H. now rewrite H.
  - intro H. unfold delay_all_yields. cbv zeta.
    assert (E0 : leb delay_years 0 = false) by (apply leb_gt; qc_lra).
    apply leb_le in H. now rewrite E0, H.
  - intros H0 H10. cbv zeta.
    destruct (floor_in_horizon delay_years H0 H10) as (w & Hw & W9 & F0 & F1).
    rewrite Hw, Nat2Z.id. rewrite Hw in F0, F1.
    destruct base_yields as [|y0 ys].
    + unfold delay_all_yields. cbv zeta.
      apply leb_gt in H0 as E0. apply leb_gt in H10 as E10. rewrite E0, E10, Hw.
      replace (seq 0 10) with (seq 0 w ++ w :: seq (S w) (9 - w))
        by (change (w :: seq (S w) (9 - w)) with (seq w (S (9 - w)));
            rewrite <- seq_app; f_equal; lia).
      apply for_each_raise.
      * intros a Ha. apply in_seq in Ha. unfold delayed_all_at.
        assert (Z1 : (Z.of_nat a <? Z.of_nat w)%Z = true)
          by (apply Z.ltb_lt; lia).
        rewrite Z1. eexists. reflexivity.
      * unfold delayed_all_at. rewrite Z.ltb_irrefl, Z.eqb_refl. reflexivity.
    + rewrite (delay_all_yields_value (y0 :: ys) delay_years w)
        by (trivial; discriminate).
      rewrite Hw. eexists. split; [reflexivity|].
      split; [now rewrite length_map, length_seq|].
      split; [exact W9|]. split; [exact F0|]. split; [exact F1|].
      split; [|split].
      * intros t Ht. rewrite nth_map_seq by lia.
        rewrite !shift_nth by lia. unfold baseline_at.
        assert (N1 : (t <? w)%nat = true) by (apply Nat.ltb_lt; lia).
        assert (N2 : (t <? S w)%nat = true) by (apply Nat.ltb_lt; lia).
        rewrite N1, N2. unfold BASELINE_YIELD_DURING_DELAY. ring.
      * rewrite nth_map_seq by lia.
        rewrite !shift_nth by lia. unfold baseline_at.
        assert (N2 : (w <? S w)%nat = true) by (apply Nat.ltb_lt; lia).
        rewrite Nat.ltb_irrefl, Nat.eqb_refl, N2, Nat.sub_diag. cbn [nth].
        unfold BASELINE_YIELD_DURING_DELAY, POST_DELAY_EFFICIENCY_FACTOR. ring.
      * intros t Ht. rewrite nth_map_seq by lia.
        rewrite !shift_nth by lia. unfold baseline_at.
        assert (N1 : (t <? w)%nat = false) by (apply Nat.ltb_ge; lia).
        assert (N2 : (t <? S w)%nat = false) by (apply Nat.ltb_ge; lia).
        assert (N3 : (t =? w)%nat = false) by (apply Nat.eqb_neq; lia).
        rewrite N1, N2, N3. unfold POST_DELAY_EFFICIENCY_FACTOR. ring.
Qed.

Lemma delay_all_yields_cases_witness :
  exists delayed,
    delay_all_yields (repeat (lit 0.2) 10) (lit 1.5) = Ok delayed /\
    nth 0 delayed 0 = lit 0.05 /\
    nth 1 delayed 0 = lit 0.05 * lit 0.5 + lit 0.2 * lit 0.85 * (1 - lit 0.5).
Proof.
  destruct (proj2 (proj2 (delay_all_yields_cases (repeat (lit 0.2) 10) (lit 1.5))))
    as (delayed & E & _ & _ & _ & _ & H0 & H1 & _);
    [unfold Qclt; vm_compute; reflexivity|unfold Qclt; vm_compute; reflexivity|].
  exists delayed. split; [exact E|]. split.
  - apply H0. vm_compute. lia.
  - exact H1.
Defined.

(* ------------------------------------------------------------------ *)
(** ** The Monte Carlo run with a delay transform *)

Section DelayedRun.

Variable fpow : Qc -> Qc -> Qc.

(** A transform that returns its input at the given parameter acts as
    no transform at all. *)
Lemma mc_delay_trial_identity f d d' sims shock i acc g :
  (forall ys, f ys d = Ok ys) ->
  mc_delay_trial fpow (Some f) d sims shock i acc g
  = mc_delay_trial fpow None d' sims shock i acc g.
Proof.
  intro Hf. unfold mc_delay_trial. cbv zeta. unfold mbind, lift. cbv beta.
  destruct (quiet_yield_curve fpow _ None false g) as [[ys|e] g1]; [|reflexivity].
  now rewrite Hf.
Qed.

Lemma mc_delay_loop_identity f d d' n sims draws i acc g :
  (forall ys, f ys d = Ok ys) ->
  mc_delay_loop fpow n (Some f) d sims draws i acc g
  = mc_delay_loop fpow n None d' sims draws i acc g.
Proof.
  intro Hf. revert i acc g.
  induction n as [|n IH]; intros i acc g; cbn [mc_delay_loop]; [reflexivity|].
  unfold mbind. rewrite (mc_delay_trial_identity f d d') by exact Hf.
  destruct (mc_delay_trial fpow None d' sims (draws i) i acc g) as [[acc'|e] g1];
    [apply IH|reflexivity].
Qed.

(** What a pass that returns has done. *)
Lemma mc_delay_trial_inv delay_function d sims shock i acc g acc' g' :
  mc_delay_trial fpow delay_function d sims shock i acc g = (Ok acc', g') ->
  exists modified_yields price_path irr,
    let cash_flows := build_cash_flows modified_yields price_path true in
    py_index (blended_paths sims) i = Ok price_path /\
    calculate_irr cash_flows = Ok irr /\
    acc' =
      {| irrs := irrs acc ++ [irr_or_sentinel_not_none irr];
         profits := profits acc ++ [py_sum cash_flows];
         paybacks :=
           paybacks acc ++ [payback_or_sentinel (calculate_payback cash_flows)] |}.
Proof.
  unfold mc_delay_trial. cbv zeta. unfold mbind at 1.
  destruct (quiet_yield_curve fpow _ None false g) as [[ys|e] g1]; [|discriminate].
  unfold mbind at 1. unfold lift at 1.
  destruct (match delay_function with
            | Some f => f ys d
            | None => Ok ys
            end) as [modified|]; [|discriminate].
  unfold mbind at 1. unfold lift at 1.
  destruct (py_index (blended_paths sims) i) as [price_path|] eqn:Ep;
    [|discriminate].
  unfold mbind at 1. unfold lift at 1.
  destruct (calculate_irr _) as [irr|] eqn:Ei; [|discriminate].
  unfold ret. intro H. inversion H; subst.
  exists modified, price_path, irr. cbv zeta. repeat split; trivial.
Qed.

Lemma mc_delay_loop_recorded n delay_function d sims draws i acc g res g' :
  delay_recorded sims i acc ->
  mc_delay_loop fpow n delay_function d sims draws i acc g = (Ok res, g') ->
  delay_recorded sims (n + i) res.
Proof.
  revert i acc g. induction n as [|n IH]; intros i acc g Hacc H;
    cbn [mc_delay_loop] in H.
  - unfold ret in H. inversion H; subst. exact Hacc.
  - unfold mbind in H.
    destruct (mc_delay_trial fpow delay_function d sims (draws i) i acc g)
      as [[acc'|e] g1] eqn:E; [|discriminate].
    apply mc_delay_trial_inv in E as (ys & pp & irr & E). cbv zeta in E.
    destruct E as (Ep & _ & ->).
    replace (S n + i)%nat with (n + S i)%nat by lia.
    apply IH in H; [exact H|]. clear H IH.
    destruct Hacc as (L1 & L2 & L3 & B1 & Fp).
    apply py_index_inv in Ep.
    assert (I1 : (i < List.length (blended_paths sims))%nat)
      by (apply nth_error_Some; congruence).
    unfold delay_recorded. cbn [irrs profits paybacks].
    rewrite !length_app. cbn [List.length].
    repeat split; try lia.
    apply Forall_app. split; [exact Fp|]. constructor; [|constructor].
    assert (O : nth 0 (build_cash_flows ys pp true) 0 < 0).
    { unfold build_cash_flows. cbn [nth]. unfold Qclt. vm_compute. reflexivity. }
    pose proof (payback_outlay_cases _ O) as C.
    destruct (calculate_payback (build_cash_flows ys pp true)) as [[p|]|];
      cbn [payback_or_sentinel].
    + destruct C as (t & _ & _ & _ & Lo & _).
      exists p. split; [reflexivity|].
      pose proof (of_nat_nonneg (t - 1)) as N. qc_lra.
    + contradiction.
    + eexists. split; [reflexivity|]. unfold Qclt. vm_compute. reflexivity.
Qed.

End DelayedRun.

(** X16.  At the parameter zero each of the three transforms
    ([delay_non_pdp_yields], [delay_all_yields], [apply_yield_haircut])
    returns the curve as it is, so [run_monte_carlo_with_delay] run with
    any of them gives the result, exceptions and module global
    included, of the run without a transform on the same draws. *)
Theorem zero_parameter_is_baseline
    (fpow : Qc -> Qc -> Qc) (num_simulations : nat)
    (price_simulations : price_results) (draws : nat -> Qc) (g : global) :
  let baseline :=
    run_monte_carlo_with_delay fpow None 0 num_simulations price_simulations
      draws g in
  run_monte_carlo_with_delay fpow
    (Some (fun ys d => Ok (delay_non_pdp_yields ys d))) 0
    num_simulations price_simulations draws g = baseline /\
  run_monte_carlo_with_delay fpow (Some delay_all_yields) 0
    num_simulations price_simulations draws g = baseline /\
  run_monte_carlo_with_delay fpow
    (Some (fun ys h => Ok (apply_yield_haircut ys h))) 0
    num_simulations price_simulations draws g = baseline.
Proof.
  cbv zeta. unfold run_monte_carlo_with_delay. split; [|split];
    apply mc_delay_loop_identity; intro ys.
  - reflexivity.
  - reflexivity.
  - f_equal. unfold apply_yield_haircut.
    rewrite <- (map_id ys) at 2. apply map_ext. intro y. rewrite lit_one. ring.
Qed.

(** X17.  A run of [run_monte_carlo_with_delay] that returns has
    recorded one IRR, one profit and one payback per simulation, and it
    returns only if the price simulations hold at least
    [num_simulations] paths.  Every recorded payback is a finite
    positive number: the first cash flow is the investment, so a payback
    that is found is positive, and one that is not found is recorded as
    99. *)
Theorem delayed_run_shape
    (fpow : Qc -> Qc -> Qc)
    (delay_function : option (list Qc -> Qc -> result (list Qc)))
    (delay_parameter : Qc) (num_simulations : nat)
    (price_simulations : price_results) (draws : nat -> Qc)
    (g g' : global) (res : delay_mc_result) :
  run_monte_carlo_with_delay fpow delay_function delay_parameter
    num_simulations price_simulations draws g = (Ok res, g') ->
  List.length (irrs res) = num_simulations /\
  List.length (profits res) = num_simulations /\
  List.length (paybacks res) = num_simulations /\
  (num_simulations <= List.length (blended_paths price_simulations))%nat /\
  Forall (fun payback => exists p, payback = Fin p /\ 0 < p) (paybacks res).
Proof.
  intro H. unfold run_monte_carlo_with_delay in H.
  apply mc_delay_loop_recorded in H.
  - rewrite Nat.add_0_r in H. exact H.
  - unfold delay_recorded. cbn. repeat split; try lia; constructor.
Qed.

Lemma delayed_run_shape_witness :
  exists res,
    run_monte_carlo_with_delay pow_whole (Some delay_all_yields) (lit 1.0) 2
      short_sims (fun _ => lit 0.1) None = (Ok res, None) /\
    List.length (paybacks res) = 2%nat /\
    Forall (fun payback => exists p, payback = Fin p /\ 0 < p) (paybacks res).
Proof.
  eexists. split; [vm_compute; reflexivity|].
  match goal with
  | |- context [paybacks ?r] =>
      pose proof (delayed_run_shape pow_whole (Some delay_all_yields) (lit 1.0) 2
                    short_sims (fun _ => lit 0.1) None None r) as H
  end.
  destruct H as (_ & _ & H3 & _ & H5).
  - vm_compute. reflexivity.
  - split; [exact H3|exact H5].
Defined.

(* ------------------------------------------------------------------ *)
(** ** The breakeven search *)

Lemma dict_get_set_same k v d : dict_get k (dict_set k v d) = Some v.
Proof.
  induction d as [|[k' v'] d IH]; cbn [dict_set dict_get].
  - now rewrite String.eqb_refl.
  - destruct (String.eqb k k') eqn:E; cbn [dict_get].
    + now rewrite String.eqb_refl.
    + now rewrite E.
Qed.

Lemma dict_get_set_other k k' v d :
  k <> k' -> dict_get k (dict_set k' v d) = dict_get k d.
Proof.
  intro H. apply String.eqb_neq in H as E.
  induction d as [|[k2 v2] d IH]; cbn [dict_set dict_get].
  - now rewrite E.
  - destruct (String.eqb k' k2) eqn:E2; cbn [dict_get].
    + apply String.eqb_eq in E2. subst k2. now rewrite E.
    + now rewrite IH.
Qed.

Lemma of_nat_le m n : (m <= n)%nat -> of_nat m <= of_nat n.
Proof.
  induction 1 as [|n _ IH]; [apply Qcle_refl|]. rewrite of_nat_S. qc_lra.
Qed.

Lemma breakeven_grid_nth i :
  (i < 100)%nat -> nth i breakeven_grid 0 = lit 1.0 + of_nat i * (- lit 0.01).
Proof. intro H. unfold breakeven_grid. now rewrite nth_map_seq. Qed.

Lemma breakeven_grid_length : List.length breakeven_grid = 100%nat.
Proof. reflexivity. Qed.

Lemma rbind_ok_inv {A B} (c : result A) (k : A -> result B) v :
  (x <- c ;; k x) = Ok v -> exists a, c = Ok a /\ k a = Ok v.
Proof.
  destruct c as [a|e]; cbn [rbind]; intro H; [|discriminate].
  now exists a.
Qed.

(** How a search that returns has ended: without a hit, or at the first
    factor whose rate is below the threshold. *)
Lemma threshold_search_cases y thr kf kp fs results res :
  threshold_search y thr kf kp fs results = Ok res ->
  (res = results /\ forall x, In x fs -> search_continues y thr x)
  \/
  (exists pre factor post r,
     fs = pre ++ factor :: post /\
     (forall x, In x pre -> search_continues y thr x) /\
     calculate_irr (build_cash_flows y (repeat factor 10) true) = Ok (Some r) /\
     r < thr /\
     res = dict_set kp (lit 70 * (factor + lit 0.01))
             (dict_set kf (factor + lit 0.01) results)).
Proof.
  induction fs as [|f fs IH]; cbn [threshold_search]; intro H.
  - left. inversion H. split; [reflexivity|]. intros x [].
  - destruct (calculate_irr (build_cash_flows y (repeat f 10) true))
      as [[r|]|e] eqn:E; cbn [rbind] in H; [| |discriminate].
    + destruct (ltb r thr) eqn:L.
      * right. exists [], f, fs, r. apply ltb_lt in L. inversion H.
        repeat split; trivial. intros x [].
      * apply ltb_ge in L. destruct (IH H) as [[-> C]|(pre & g & post & r' & -> & C & R)].
        -- left. split; [reflexivity|]. intros x [<-|Hx]; [|now apply C].
           exists (Some r). now split.
        -- right. exists (f :: pre), g, post, r'. split; [reflexivity|].
           split; [|exact R]. intros x [<-|Hx]; [|now apply C].
           exists (Some r). now split.
    + destruct (IH H) as [[-> C]|(pre & g & post & r' & -> & C & R)].
      * left. split; [reflexivity|]. intros x [<-|Hx]; [|now apply C].
        exists None. now split.
      * right. exists (f :: pre), g, post, r'. split; [reflexivity|].
        split; [|exact R]. intros x [<-|Hx]; [|now apply C].
        exists None. now split.
Qed.

(** X18.  In [run_breakeven_analysis] the two searches walk the
    same grid of price factors downwards, and a rate below 0 is below
    10%, so the 10% search stops no later than the breakeven search:
    whenever a breakeven factor is reported, a 10% floor factor is
    reported too and is at least as large; each price is 70 times its
    factor, and the factors lie between 0 and 1.02. *)
Theorem irr_floor_dominates_breakeven (base_yields : list Qc) (results : dict) :
  run_breakeven_analysis base_yields = Ok results ->
  forall breakeven_factor,
    dict_get "breakeven_factor" results = Some breakeven_factor ->
    dict_get "breakeven_price" results = Some (lit 70 * breakeven_factor) /\
    0 < breakeven_factor /\
    exists irr_10_floor_factor,
      dict_get "irr_10_floor_factor" results = Some irr_10_floor_factor /\
      dict_get "irr_10_floor_price" results
        = Some (lit 70 * irr_10_floor_factor) /\
      breakeven_factor <= irr_10_floor_factor /\
      irr_10_floor_factor < lit 1.02.
Proof.
  unfold run_breakeven_analysis. cbv zeta. intros H bf Hbf.
  apply rbind_ok_inv in H as (r1 & E1 & H).
  apply rbind_ok_inv in H as (r2 & E2 & H).
  inversion H; subst r2. clear H.
  apply threshold_search_cases in E1, E2.
  destruct E1 as [[-> _]|(pre & f & post & r & G1 & _ & I1 & R1 & ->)].
  { exfalso. destruct E2 as [[-> _]|(pre2 & f2 & post2 & r2 & _ & _ & _ & _ & ->)].
    - cbn [dict_get] in Hbf. discriminate Hbf.
    - rewrite dict_get_set_other in Hbf by discriminate.
      rewrite dict_get_set_other in Hbf by discriminate.
      cbn [dict_get] in Hbf. discriminate Hbf. }
  destruct E2 as [[-> C]|(pre2 & f2 & post2 & r2 & G2 & C2 & I2 & R2 & ->)].
  { exfalso. destruct (C f) as (irr & Ei & Hi).
    - rewrite G1. apply in_elt.
    - rewrite I1 in Ei. inversion Ei; subst irr. qc_lra. }
  rewrite !dict_get_set_other in Hbf by discriminate.
  rewrite dict_get_set_same in Hbf.
  inversion Hbf; subst bf. clear Hbf.
  assert (Lp : (List.length pre < 100)%nat).
  { pose proof breakeven_grid_length as L. rewrite G1, length_app in L.
    cbn [List.length] in L. lia. }
  assert (Lp2 : (List.length pre2 <= List.length pre)%nat).
  { destruct (Nat.le_gt_cases (List.length pre2) (List.length pre)) as [Le|Gt];
      [exact Le|exfalso].
    assert (Hin : In f pre2).
    { assert (N1 : nth (List.length pre) breakeven_grid 0 = f)
        by (rewrite G1; apply nth_middle).
      rewrite G2, app_nth1 in N1 by exact Gt. rewrite <- N1.
      now apply nth_In. }
    destruct (C2 f Hin) as (irr & Ei & Hi).
    rewrite I1 in Ei. inversion Ei; subst irr. qc_lra. }
  assert (F1 : f = lit 1.0 + of_nat (List.length pre) * (- lit 0.01)).
  { rewrite <- breakeven_grid_nth by exact Lp. rewrite G1. symmetry.
    apply nth_middle. }
  assert (F2 : f2 = lit 1.0 + of_nat (List.length pre2) * (- lit 0.01)).
  { rewrite <- breakeven_grid_nth by lia. rewrite G2. symmetry.
    apply nth_middle. }
  pose proof (of_nat_le _ _ Lp2) as M.
  pose proof (of_nat_nonneg (List.length pre2)) as M0.
  assert (M99 : of_nat (List.length pre) <= lit 99).
  { replace (lit 99) with (of_nat 99) by (apply Qc_is_canon; reflexivity).
    apply of_nat_le. lia. }
  split.
  { rewrite !dict_get_set_other by discriminate. now rewrite dict_get_set_same. }
  split; [rewrite F1; qc_lra|].
  exists (f2 + lit 0.01).
  split.
  { rewrite dict_get_set_other by discriminate. now rewrite dict_get_set_same. }
  split; [now rewrite dict_get_set_same|].
  split; rewrite ?F1, F2; qc_lra.
Qed.

Lemma irr_floor_dominates_breakeven_witness :
  exists results breakeven_factor irr_10_floor_factor,
    run_breakeven_analysis (lit 1.05 :: nil) = Ok results /\
    dict_get "breakeven_factor" results = Some breakeven_factor /\
    dict_get "irr_10_floor_factor" results = Some irr_10_floor_factor /\
    breakeven_factor <= irr_10_floor_factor.
Proof.
  assert (R : match run_breakeven_analysis (lit 1.05 :: nil) with
              | Ok results =>
                  match dict_get "breakeven_factor" results with
                  | Some _ => true
                  | None => false
                  end
              | Raise _ => false
              end = true) by (vm_compute; reflexivity).
  destruct (run_breakeven_analysis (lit 1.05 :: nil)) as [results|] eqn:E;
    [|discriminate R].
  destruct (dict_get "breakeven_factor" results) as [bf|] eqn:B;
    [|discriminate R].
  destruct (irr_floor_dominates_breakeven (lit 1.05 :: nil) results E bf B)
    as (_ & _ & ff & H1 & _ & H2 & _).
  exists results, bf, ff. split; [reflexivity|]. split; [exact B|].
  split; [exact H1|exact H2].
Defined.
